(** * BoardBench: games, agents and the match runner

    A shallow embedding of the rules engines (games/gomoku.py,
    games/connect4.py), of the agents' decision logic
    (agents/random_agent.py, agents/llm_agent.py) and of the orchestration
    loop (engine/match_runner.py), followed by the properties of the
    specification stated over them. *)

From Stdlib Require Import ZArith List Bool Lia QArith Qminmax.
From Stdlib Require Import Ascii String DecimalString DecimalPos Sorted.
From stdpp Require Import base tactics option list numbers.

Local Open Scope Z_scope.

(** ** Exceptions and fallible computations *)

(** The Python exceptions the modelled code can raise.  [BadRef] stands for a
    read through a reference that names no array; no Python program can
    produce one, and it only makes the store operations total. *)
Inductive exn : Type :=
| ValueError (msg : string)
| IndexError
| OverflowError
| ZeroDivisionError
| BadRef.

Inductive result (A : Type) : Type :=
| Ok (a : A)
| Raise (e : exn).
Arguments Ok {A} a.
Arguments Raise {A} e.

Definition rbind {A B} (m : result A) (k : A → result B) : result B :=
  match m with
  | Ok a => k a
  | Raise e => Raise e
  end.

Declare Scope result_scope.
Delimit Scope result_scope with res.
Notation "x <- m ;; k" := (rbind m (fun x => k))
  (at level 100, m at next level, right associativity) : result_scope.
Local Open Scope result_scope.

Definition is_ok {A} (m : result A) : bool :=
  match m with Ok _ => true | Raise _ => false end.

(** [[f(x) for x in l]] where [f] may raise: elements are evaluated left to
    right and the first exception aborts the comprehension. *)
Fixpoint map_res {A B} (f : A → result B) (l : list A) : result (list B) :=
  match l with
  | [] => Ok []
  | x :: l' => y <- f x ;; ys <- map_res f l' ;; Ok (y :: ys)
  end.

(** [[x for x in l if p(x)]] where [p] may raise. *)
Fixpoint filter_res {A} (p : A → result bool) (l : list A) : result (list A) :=
  match l with
  | [] => Ok []
  | x :: l' =>
      b <- p x ;; xs <- filter_res p l' ;; Ok (if b then x :: xs else xs)
  end.

(** [for x in l: if p(x): return ...]: the loop stops at the first hit. *)
Fixpoint any_res {A} (p : A → result bool) (l : list A) : result bool :=
  match l with
  | [] => Ok false
  | x :: l' => b <- p x ;; if b then Ok true else any_res p l'
  end.

(** Python's [range(n)] and [range(a, b)]. *)
Definition range (n : Z) : list Z := seqZ 0 n.
Definition range2 (a b : Z) : list Z := seqZ a (b - a).

(** ** Two-dimensional numpy arrays of dtype int8

    An array is the list of its rows.  Scalar indices follow numpy: an index
    [i] on an axis of size [n] is valid for [-n <= i < n], negative indices
    count from the end, anything else raises IndexError.  Slices never raise:
    their bounds are clipped to the axis. *)
Abbreviation ndarray := (list (list Z)) (only parsing).

Definition has_shape (rows cols : nat) (a : ndarray) : Prop :=
  length a = rows ∧ Forall (λ r, length r = cols) a.

Definition np_zeros (rows cols : nat) : ndarray :=
  replicate rows (replicate cols 0).

Definition np_index (n : nat) (i : Z) : result nat :=
  if (0 <=? i) && (i <? Z.of_nat n) then Ok (Z.to_nat i)
  else if (- Z.of_nat n <=? i) && (i <? 0) then Ok (Z.to_nat (i + Z.of_nat n))
  else Raise IndexError.

(** [l[i]] on one axis. *)
Definition np_item {A} (l : list A) (i : Z) : result A :=
  k <- np_index (length l) i ;;
  match l !! k with
  | Some x => Ok x
  | None => Raise IndexError
  end.

(** A slice bound, clipped to [0, n] after the negative-index adjustment. *)
Definition np_clip (n : nat) (i : Z) : nat :=
  Z.to_nat (Z.min (Z.of_nat n) (Z.max 0 (if i <? 0 then i + Z.of_nat n else i))).

(** [l[a:b]]. *)
Definition np_slice {A} (l : list A) (a b : Z) : list A :=
  let lo := np_clip (length l) a in
  let hi := np_clip (length l) b in
  take (hi - lo) (drop lo l).

(** [a[r, c]]. *)
Definition np_get (a : ndarray) (r c : Z) : result Z :=
  row <- np_item a r ;; np_item row c.

(** The value of an int8 cell: Python integers outside [-128, 127] are
    refused (OverflowError). *)
Definition int8 (v : Z) : result Z :=
  if (-128 <=? v) && (v <=? 127) then Ok v else Raise OverflowError.

(** The array after [a[r, c] = v]. *)
Definition np_set (a : ndarray) (r c v : Z) : result ndarray :=
  i <- np_index (length a) r ;;
  row <- np_item a r ;;
  j <- np_index (length row) c ;;
  w <- int8 v ;;
  Ok (<[i := <[j := w]> row]> a).

(** The cell of an array at non-negative coordinates, without the wrap-around
    of negative indices: what a specification means by "the cell (r, c)". *)
Definition cell (a : ndarray) (r c : Z) : option Z :=
  if (0 <=? r) && (0 <=? c)
  then row ← a !! Z.to_nat r; row !! Z.to_nat c
  else None.

(** The valid domain of a cell: EMPTY, PLAYER_1, PLAYER_2. *)
Definition cell_ok (v : Z) : Prop := v = 0 ∨ v = 1 ∨ v = 2.

(** A board of the given dimensions whose cells are all in the domain. *)
Definition valid_board (rows cols : nat) (a : ndarray) : Prop :=
  has_shape rows cols a ∧ Forall (Forall cell_ok) a.

(** *** Runs of marks

    The four direction vectors of the win scan, as (row step, column step). *)
Definition directions : list (Z * Z) := [(0, 1); (1, 0); (1, 1); (-1, 1)].

(** The [w] cells from [(r, c)] along [d] all exist and hold [mark]: an
    unbroken run that fits on the board. *)
Definition run_at (a : ndarray) (w mark r c : Z) (d : Z * Z) : Prop :=
  ∀ i, 0 ≤ i < w → cell a (r + i * d.1) (c + i * d.2) = Some mark.

Definition has_run (a : ndarray) (w mark : Z) : Prop :=
  ∃ d r c, d ∈ directions ∧ run_at a w mark r c d.

(** The start cells a scan visits for a direction: those from which the
    window of [w] cells stays on a [rows] x [cols] board. *)
Definition starts (rows cols w : Z) (d : Z * Z) (r c : Z) : Prop :=
  (if d.1 =? 0 then 0 ≤ r < rows
   else if d.1 =? 1 then 0 ≤ r < rows - w + 1 else w - 1 ≤ r < rows)
  ∧ (if d.2 =? 0 then 0 ≤ c < cols else 0 ≤ c < cols - w + 1).

(** What each of the four scans computes. *)
Definition scans_dir (rows cols : nat) (a : ndarray) (w mark : Z) (d : Z * Z)
    (res : result bool) : Prop :=
  ∃ b, res = Ok b
       ∧ (b = true ↔
          ∃ r c, starts (Z.of_nat rows) (Z.of_nat cols) w d r c
                 ∧ run_at a w mark r c d).


(** A board without an empty cell. *)
Definition full_board (a : ndarray) : Prop :=
  ∀ r c v, cell a r c = Some v → v ≠ 0.

(** What [is_terminal] has to return, given the results of [get_winner] and
    of [get_legal_moves] for player 0. *)
Definition terminal_spec {Move} (term : result bool)
    (win : result (option Z)) (legal : result (list Move)) : Prop :=
  ∃ t w moves, term = Ok t ∧ win = Ok w ∧ legal = Ok moves
               ∧ (t = true ↔ is_Some w ∨ moves = []).

(** ** The store of arrays

    [make_move] copies its argument and writes into the copy.  To state that
    the caller's array is left alone, arrays live in a store and the methods
    that write take and return references. *)
Abbreviation loc := nat (only parsing).
Abbreviation heap := (list (list (list Z))) (only parsing).

(** A computation over the store that may raise; the store it leaves behind
    is returned in both cases. *)
Definition M (A : Type) : Type := heap → result A * heap.

Definition ret {A} (a : A) : M A := λ h, (Ok a, h).
Definition throw {A} (e : exn) : M A := λ h, (Raise e, h).
Definition sbind {A B} (m : M A) (k : A → M B) : M B :=
  λ h, match m h with
       | (Ok a, h') => k a h'
       | (Raise e, h') => (Raise e, h')
       end.

Declare Scope store_scope.
Delimit Scope store_scope with store.
Notation "x <~ m ;; k" := (sbind m (fun x => k))
  (at level 100, m at next level, right associativity) : store_scope.
Local Open Scope store_scope.

(** [state.copy()]: a fresh array with the same contents. *)
Definition np_copy (l : loc) : M loc :=
  λ h, match h !! l with
       | Some a => (Ok (length h), h ++ [a])
       | None => (Raise BadRef, h)
       end.

(** [arr[r, c]] through a reference. *)
Definition load (l : loc) (r c : Z) : M Z :=
  λ h, match h !! l with
       | Some a => (np_get a r c, h)
       | None => (Raise BadRef, h)
       end.

(** [arr[r, c] = v] through a reference: the array is updated in place. *)
Definition store (l : loc) (r c v : Z) : M unit :=
  λ h, match h !! l with
       | Some a =>
           match np_set a r c v with
           | Ok a' => (Ok tt, <[l := a']> h)
           | Raise e => (Raise e, h)
           end
       | None => (Raise BadRef, h)
       end.

(** Runs a method that takes one array reference on a store holding just
    that array, and reads the array it returns. *)
Definition on_value (m : loc → M loc) (a : ndarray) : result ndarray :=
  match m 0%nat [a] with
  | (Ok l, h) =>
      match h !! l with
      | Some b => Ok b
      | None => Raise BadRef
      end
  | (Raise e, _) => Raise e
  end.

(** What a method that works on a fresh copy of the array [a] leaves behind:
    the old store with one more array, the new state on success and the
    untouched copy when the method raised. *)
Definition copied (h : heap) (a : ndarray) (r : result ndarray)
  : result loc * heap :=
  match r with
  | Ok b => (Ok (length h), h ++ [b])
  | Raise e => (Raise e, h ++ [a])
  end.

(** ** Python strings

    Strings are sequences of 8-bit characters; [str_of_int] is [str(n)] (and
    the [{n}] of an f-string) for an integer [n]. *)
Definition str_of_int (z : Z) : string := NilZero.string_of_int (Z.to_int z).

Definition is_digit (c : ascii) : bool :=
  let n := nat_of_ascii c in (48 <=? n)%nat && (n <=? 57)%nat.

Definition digit_val (c : ascii) : Z := Z.of_nat (nat_of_ascii c) - 48.

(** The characters [str.strip()] and [int()] skip: space, the controls
    [\t \n \v \f \r] and the separators [\x1c .. \x1f]. *)
Definition is_space (c : ascii) : bool :=
  let n := nat_of_ascii c in
  (n =? 32)%nat || ((9 <=? n)%nat && (n <=? 13)%nat)
  || ((28 <=? n)%nat && (n <=? 31)%nat).

Fixpoint lstrip (s : string) : string :=
  match s with
  | String c s' => if is_space c then lstrip s' else s
  | EmptyString => EmptyString
  end.

Fixpoint rstrip (s : string) : string :=
  match s with
  | String c s' =>
      match rstrip s' with
      | EmptyString => if is_space c then EmptyString else String c EmptyString
      | t => String c t
      end
  | EmptyString => EmptyString
  end.

Definition strip (s : string) : string := rstrip (lstrip s).

(** The digits of a decimal literal: at least one digit, single underscores
    allowed between digits only.  [prev] tells whether the previous character
    was a digit. *)
Fixpoint parse_digits (acc : Z) (prev : bool) (s : string) : option Z :=
  match s with
  | EmptyString => if prev then Some acc else None
  | String c s' =>
      if is_digit c then parse_digits (10 * acc + digit_val c) true s'
      else if Ascii.eqb c "_" then
             if prev then parse_digits acc false s' else None
      else None
  end.

(** [int(s)] for a string [s]; [None] stands for the ValueError.  The
    conversion is the mathematical one: the bound that recent CPython
    versions put on the number of digits (4300 unless configured otherwise)
    is not modelled. *)
Definition int_of_str (s : string) : option Z :=
  match strip s with
  | String "-" t => Z.opp <$> parse_digits 0 false t
  | String "+" t => parse_digits 0 false t
  | t => parse_digits 0 false t
  end.

(** [s.split(sep)] for a one-character separator. *)
Fixpoint split (sep : ascii) (s : string) : list string :=
  match s with
  | EmptyString => [EmptyString]
  | String c s' =>
      if Ascii.eqb c sep then EmptyString :: split sep s'
      else match split sep s' with
           | p :: ps => String c p :: ps
           | [] => [String c EmptyString]
           end
  end.

Definition lower_char (c : ascii) : ascii :=
  let n := nat_of_ascii c in
  if (65 <=? n)%nat && (n <=? 90)%nat then ascii_of_nat (n + 32) else c.

(** [s.lower()]. *)
Fixpoint lower (s : string) : string :=
  match s with
  | EmptyString => EmptyString
  | String c s' => String (lower_char c) (lower s')
  end.

(** [s.startswith(p)]. *)
Fixpoint startswith (p s : string) : bool :=
  match p, s with
  | EmptyString, _ => true
  | String a p', String b s' => Ascii.eqb a b && startswith p' s'
  | String _ _, EmptyString => false
  end.

(** [s[n:]] for [n >= 0]. *)
Fixpoint str_from (n : nat) (s : string) : string :=
  match n, s with
  | O, _ => s
  | S n', String _ s' => str_from n' s'
  | S _, EmptyString => EmptyString
  end.

(** Every character of [s] passes the test [p]. *)
Fixpoint str_all (p : ascii → bool) (s : string) : bool :=
  match s with
  | EmptyString => true
  | String c s' => p c && str_all p s'
  end.

Definition sign_or_digit (c : ascii) : bool := is_digit c || Ascii.eqb c "-".

(** The number written by the digits [d] after the digits already read as
    [acc]. *)
Fixpoint uint_value (d : Decimal.uint) (acc : Z) : Z :=
  match d with
  | Decimal.Nil => acc
  | Decimal.D0 d => uint_value d (10 * acc)
  | Decimal.D1 d => uint_value d (10 * acc + 1)
  | Decimal.D2 d => uint_value d (10 * acc + 2)
  | Decimal.D3 d => uint_value d (10 * acc + 3)
  | Decimal.D4 d => uint_value d (10 * acc + 4)
  | Decimal.D5 d => uint_value d (10 * acc + 5)
  | Decimal.D6 d => uint_value d (10 * acc + 6)
  | Decimal.D7 d => uint_value d (10 * acc + 7)
  | Decimal.D8 d => uint_value d (10 * acc + 8)
  | Decimal.D9 d => uint_value d (10 * acc + 9)
  end.

(** ** Win detection shared by the two games

    [for player_id in range(1, 3): ... return player_id - 1] followed by
    [return None]: [hit] is the body of the loop, telling whether one of its
    [return] statements is reached. *)
Fixpoint first_winner (hit : Z → result bool) (ids : list Z)
  : result (option Z) :=
  match ids with
  | [] => Ok None
  | player_id :: ids' =>
      b <- hit player_id ;;
      if b then Ok (Some (player_id - 1)) else first_winner hit ids'
  end.

(** [np.all(cells == player_id)]. *)
Definition all_eq (player_id : Z) (cells : list Z) : bool :=
  forallb (λ v, v =? player_id) cells.

(** ** Gomoku (games/gomoku.py) *)
Module Gomoku.

(** The configuration fixed by the constructor.  The field
    [_current_player] is written by [reset] and never read; it is left out. *)
Record game : Type := Game { board_size : nat; win_length : nat }.

Definition move : Type := (Z * Z)%type.

Definition name (g : game) : string := "Gomoku"%string.
Definition num_players (g : game) : Z := 2.

Definition reset (g : game) : ndarray :=
  np_zeros (board_size g) (board_size g).

Definition get_legal_moves (g : game) (state : ndarray) (player : Z)
  : result (list move) :=
  let n := Z.of_nat (board_size g) in
  filter_res (λ '(r, c), v <- np_get state r c ;; Ok (v =? 0))
             (r ← range n; c ← range n; [(r, c)]).

Definition out_of_bounds_msg (row col : Z) : string :=
  ("Position (" ++ str_of_int row ++ ", " ++ str_of_int col
     ++ ") is out of bounds")%string.
Definition occupied_msg (row col : Z) : string :=
  ("Position (" ++ str_of_int row ++ ", " ++ str_of_int col
     ++ ") is already occupied")%string.

Definition make_move (g : game) (state : loc) (mv : move) (player : Z)
  : M loc :=
  let n := Z.of_nat (board_size g) in
  new_state <~ np_copy state ;;
  let '(row, col) := mv in
  if negb ((0 <=? row) && (row <? n) && ((0 <=? col) && (col <? n)))
  then throw (ValueError (out_of_bounds_msg row col))
  else
    v <~ load new_state row col ;;
    if negb (v =? 0)
    then throw (ValueError (occupied_msg row col))
    else
      _ <~ store new_state row col (player + 1) ;;
      ret new_state.

(** [make_move] on an array given by value. *)
Definition apply_move (g : game) (state : ndarray) (mv : move) (player : Z)
  : result ndarray :=
  on_value (λ l, make_move g l mv player) state.

(** The contents of [new_state] when [make_move] returns, from the
    contents [a] of [state]. *)
Definition place (g : game) (a : ndarray) (mv : move) (player : Z)
  : result ndarray :=
  let n := Z.of_nat (board_size g) in
  let '(row, col) := mv in
  if negb ((0 <=? row) && (row <? n) && ((0 <=? col) && (col <? n)))
  then Raise (ValueError (out_of_bounds_msg row col))
  else
    v <- np_get a row col ;;
    if negb (v =? 0) then Raise (ValueError (occupied_msg row col))
    else np_set a row col (player + 1).

(** The states a match can go through: the board of [reset] and every board
    returned by a [make_move] for player 0 or 1 on such a state. *)
Inductive reachable (g : game) : ndarray → Prop :=
| reach_reset : reachable g (reset g)
| reach_move (a b : ndarray) (mv : move) (player : Z) :
    reachable g a → player = 0 ∨ player = 1 →
    apply_move g a mv player = Ok b → reachable g b.

(** The four scans of [get_winner] for one mark. *)
Definition scan_rows (g : game) (state : ndarray) (player_id : Z)
  : result bool :=
  let n := Z.of_nat (board_size g) in
  let w := Z.of_nat (win_length g) in
  any_res (λ row,
    any_res (λ col,
      r <- np_item state row ;;
      Ok (all_eq player_id (np_slice r col (col + w))))
      (range (n - w + 1)))
    (range n).

Definition scan_cols (g : game) (state : ndarray) (player_id : Z)
  : result bool :=
  let n := Z.of_nat (board_size g) in
  let w := Z.of_nat (win_length g) in
  any_res (λ col,
    any_res (λ row,
      cells <- map_res (λ r, np_item r col) (np_slice state row (row + w)) ;;
      Ok (all_eq player_id cells))
      (range (n - w + 1)))
    (range n).

Definition scan_diag_down (g : game) (state : ndarray) (player_id : Z)
  : result bool :=
  let n := Z.of_nat (board_size g) in
  let w := Z.of_nat (win_length g) in
  any_res (λ row,
    any_res (λ col,
      cells <- map_res (λ i, np_get state (row + i) (col + i)) (range w) ;;
      Ok (all_eq player_id cells))
      (range (n - w + 1)))
    (range (n - w + 1)).

Definition scan_diag_up (g : game) (state : ndarray) (player_id : Z)
  : result bool :=
  let n := Z.of_nat (board_size g) in
  let w := Z.of_nat (win_length g) in
  any_res (λ row,
    any_res (λ col,
      cells <- map_res (λ i, np_get state (row - i) (col + i)) (range w) ;;
      Ok (all_eq player_id cells))
      (range (n - w + 1)))
    (range2 (w - 1) n).

Definition scan (g : game) (state : ndarray) (player_id : Z) : result bool :=
  any_res (λ dir, dir g state player_id)
          [scan_rows; scan_cols; scan_diag_down; scan_diag_up].

Definition get_winner (g : game) (state : ndarray) : result (option Z) :=
  first_winner (scan g state) (range2 1 3).

Definition is_terminal (g : game) (state : ndarray) : result bool :=
  w <- get_winner g state ;;
  match w with
  | Some _ => Ok true
  | None =>
      moves <- get_legal_moves g state 0 ;;
      Ok (Nat.eqb (length moves) 0)
  end.

Definition move_to_string (mv : move) : string :=
  let '(row, col) := mv in
  (str_of_int row ++ "," ++ str_of_int col)%string.

Definition bad_format_msg (move_str : string) : string :=
  ("Invalid move format: " ++ move_str
     ++ ". Expected integers 'row,col'")%string.

(** Both the explicit [raise] for a wrong number of parts and the
    ValueError of [int] are caught by the [except ValueError] clause, which
    raises the final message. *)
Definition string_to_move (move_str : string) : result move :=
  match split "," move_str with
  | [p0; p1] =>
      match int_of_str p0, int_of_str p1 with
      | Some row, Some col => Ok (row, col)
      | _, _ => Raise (ValueError (bad_format_msg move_str))
      end
  | _ => Raise (ValueError (bad_format_msg move_str))
  end.

End Gomoku.

(** ** Connect4 (games/connect4.py) *)
Module Connect4.

Record game : Type := Game { rows : nat; cols : nat; win_length : nat }.

Definition move : Type := Z.

Definition name (g : game) : string := "Connect4"%string.
Definition num_players (g : game) : Z := 2.

Definition reset (g : game) : ndarray := np_zeros (rows g) (cols g).

Definition get_legal_moves (g : game) (state : ndarray) (player : Z)
  : result (list move) :=
  filter_res (λ col, v <- np_get state 0 col ;; Ok (v =? 0))
             (range (Z.of_nat (cols g))).

(** The gravity loop [for row in range(rows - 1, -1, -1)] with its
    [break]. *)
Fixpoint drop_piece (new_state : loc) (mv : move) (player : Z)
    (todo : list Z) : M unit :=
  match todo with
  | [] => ret tt
  | row :: todo' =>
      v <~ load new_state row mv ;;
      if v =? 0 then store new_state row mv (player + 1)
      else drop_piece new_state mv player todo'
  end.

Definition make_move (g : game) (state : loc) (mv : move) (player : Z)
  : M loc :=
  new_state <~ np_copy state ;;
  _ <~ drop_piece new_state mv player
         (reverse (range (Z.of_nat (rows g)))) ;;
  ret new_state.

Definition apply_move (g : game) (state : ndarray) (mv : move) (player : Z)
  : result ndarray :=
  on_value (λ l, make_move g l mv player) state.

(** The contents of [new_state] after the gravity loop. *)
Fixpoint fall (a : ndarray) (mv : move) (player : Z) (todo : list Z)
  : result ndarray :=
  match todo with
  | [] => Ok a
  | row :: todo' =>
      v <- np_get a row mv ;;
      if v =? 0 then np_set a row mv (player + 1)
      else fall a mv player todo'
  end.

Definition place (g : game) (a : ndarray) (mv : move) (player : Z)
  : result ndarray :=
  fall a mv player (reverse (range (Z.of_nat (rows g)))).

Inductive reachable (g : game) : ndarray → Prop :=
| reach_reset : reachable g (reset g)
| reach_move (a b : ndarray) (mv : move) (player : Z) :
    reachable g a → player = 0 ∨ player = 1 →
    apply_move g a mv player = Ok b → reachable g b.

Definition scan_horizontal (g : game) (state : ndarray) (player_id : Z)
  : result bool :=
  let w := Z.of_nat (win_length g) in
  any_res (λ row,
    any_res (λ col,
      r <- np_item state row ;;
      Ok (all_eq player_id (np_slice r col (col + w))))
      (range (Z.of_nat (cols g) - w + 1)))
    (range (Z.of_nat (rows g))).

Definition scan_vertical (g : game) (state : ndarray) (player_id : Z)
  : result bool :=
  let w := Z.of_nat (win_length g) in
  any_res (λ row,
    any_res (λ col,
      cells <- map_res (λ r, np_item r col) (np_slice state row (row + w)) ;;
      Ok (all_eq player_id cells))
      (range (Z.of_nat (cols g))))
    (range (Z.of_nat (rows g) - w + 1)).

Definition scan_diag_down (g : game) (state : ndarray) (player_id : Z)
  : result bool :=
  let w := Z.of_nat (win_length g) in
  any_res (λ row,
    any_res (λ col,
      cells <- map_res (λ i, np_get state (row + i) (col + i)) (range w) ;;
      Ok (all_eq player_id cells))
      (range (Z.of_nat (cols g) - w + 1)))
    (range (Z.of_nat (rows g) - w + 1)).

Definition scan_diag_up (g : game) (state : ndarray) (player_id : Z)
  : result bool :=
  let w := Z.of_nat (win_length g) in
  any_res (λ row,
    any_res (λ col,
      cells <- map_res (λ i, np_get state (row - i) (col + i)) (range w) ;;
      Ok (all_eq player_id cells))
      (range (Z.of_nat (cols g) - w + 1)))
    (range2 (w - 1) (Z.of_nat (rows g))).

Definition scan (g : game) (state : ndarray) (player_id : Z) : result bool :=
  any_res (λ dir, dir g state player_id)
          [scan_horizontal; scan_vertical; scan_diag_down; scan_diag_up].

Definition get_winner (g : game) (state : ndarray) : result (option Z) :=
  first_winner (scan g state) (range2 1 3).

Definition is_terminal (g : game) (state : ndarray) : result bool :=
  w <- get_winner g state ;;
  match w with
  | Some _ => Ok true
  | None =>
      moves <- get_legal_moves g state 0 ;;
      Ok (Nat.eqb (length moves) 0)
  end.

Definition move_to_string (mv : move) : string :=
  ("Column " ++ str_of_int mv)%string.

Definition bad_format_msg (move_str : string) : string :=
  ("Invalid move format: " ++ move_str)%string.

Definition string_to_move (move_str : string) : result move :=
  let parsed :=
    if startswith "column " (lower move_str)
    then int_of_str (str_from 7 move_str)
    else int_of_str move_str in
  match parsed with
  | Some col => Ok col
  | None => Raise (ValueError (bad_format_msg move_str))
  end.

End Connect4.


(** ** Sample positions *)

(** A Connect4 position after six moves in column 0. *)
Definition column0_full : ndarray :=
  [[2; 0; 0; 0; 0; 0; 0]; [1; 0; 0; 0; 0; 0; 0]; [2; 0; 0; 0; 0; 0; 0];
   [1; 0; 0; 0; 0; 0; 0]; [2; 0; 0; 0; 0; 0; 0]; [1; 0; 0; 0; 0; 0; 0]].

(** The boards of the win-scan checks of the specification: 5x5, three in a
    row. *)
Definition horizontal_win_board_5x5 : ndarray :=
  [[0; 0; 0; 0; 0]; [0; 0; 0; 0; 0]; [1; 1; 1; 0; 0]; [0; 0; 0; 0; 0];
   [0; 0; 0; 0; 0]].
Definition vertical_win_board_5x5 : ndarray :=
  [[0; 0; 2; 0; 0]; [0; 0; 2; 0; 0]; [0; 0; 2; 0; 0]; [0; 0; 0; 0; 0];
   [0; 0; 0; 0; 0]].
Definition diagonal_win_board_5x5 : ndarray :=
  [[1; 0; 0; 0; 0]; [0; 1; 0; 0; 0]; [0; 0; 1; 0; 0]; [0; 0; 0; 0; 0];
   [0; 0; 0; 0; 0]].

(** A full 4x4 board without three in a row in any direction. *)
Definition drawn_board_4x4 : ndarray :=
  [[1; 1; 2; 2]; [2; 2; 1; 1]; [1; 1; 2; 2]; [2; 2; 1; 1]].

(** ** The process-wide random generator

    The agents and the match runner draw from the one generator of Python's
    [random] module.  Its algorithm is not part of this repository, so the
    development is parametric in it: [gen_seed n] is the state after
    [random.seed(n)], [gen_below s n] the result of the draw below [n > 0]
    that [random.choice] makes on a sequence of length [n], with the next
    state. *)
Record generator : Type := Generator {
  gen_state : Type;
  gen_seed : Z → gen_state;
  gen_below : gen_state → nat → nat * gen_state
}.

(** The draw below [n] is below [n]. *)
Definition well_behaved (G : generator) : Prop :=
  ∀ s n, (0 < n)%nat → ((gen_below G s n).1 < n)%nat.

(** [random.choice(seq)]: IndexError on an empty sequence, otherwise the
    element at the index drawn below [len(seq)]. *)
Definition choice {G : generator} {A} (seq : list A) (s : gen_state G)
  : result A * gen_state G :=
  match seq with
  | [] => (Raise IndexError, s)
  | _ :: _ =>
      let '(i, s') := gen_below G s (length seq) in
      match seq !! i with
      | Some x => (Ok x, s')
      | None => (Raise IndexError, s')
      end
  end.

(** *** The generator of CPython

    The Mersenne Twister MT19937 as CPython's [random] module runs it, to
    evaluate the agents on the draws a real run makes.  [random.seed(n)] for
    an integer [n] initialises the 624 words from the 32-bit digits of
    [abs(n)]; the draw below [n] keeps the top [n.bit_length()] bits of a
    32-bit output and retries while the value is not below [n]. *)
Module Mersenne.

Record mt : Type := MT { words : list Z; index : nat }.

Definition mask32 (x : Z) : Z := Z.land x 4294967295.

Fixpoint init_genrand_from (n : nat) (i prev : Z) : list Z :=
  match n with
  | O => []
  | S n' =>
      let x := mask32 (1812433253 * Z.lxor prev (Z.shiftr prev 30) + i) in
      x :: init_genrand_from n' (i + 1) x
  end.

Definition init_genrand (s : Z) : list Z :=
  mask32 s :: init_genrand_from 623 1 (mask32 s).

Definition wrap_index (w : list Z) (i : nat) : list Z * nat :=
  if (624 <=? i)%nat then (<[0%nat := w !!! 623%nat]> w, 1%nat) else (w, i).

Fixpoint mix_key (k : nat) (key w : list Z) (i j : nat) : list Z * nat :=
  match k with
  | O => (w, i)
  | S k' =>
      let prev := w !!! (i - 1)%nat in
      let x := mask32 (Z.lxor prev (Z.shiftr prev 30) * 1664525) in
      let v := mask32 (Z.lxor (w !!! i) x + key !!! j + Z.of_nat j) in
      let '(w', i') := wrap_index (<[i := v]> w) (S i) in
      let j' := if (length key <=? S j)%nat then 0%nat else S j in
      mix_key k' key w' i' j'
  end.

Fixpoint mix_index (k : nat) (w : list Z) (i : nat) : list Z :=
  match k with
  | O => w
  | S k' =>
      let prev := w !!! (i - 1)%nat in
      let x := mask32 (Z.lxor prev (Z.shiftr prev 30) * 1566083941) in
      let v := mask32 (Z.lxor (w !!! i) x - Z.of_nat i) in
      let '(w', i') := wrap_index (<[i := v]> w) (S i) in
      mix_index k' w' i'
  end.

Definition init_by_array (key : list Z) : mt :=
  let '(w, i) :=
    mix_key (Nat.max 624 (length key)) key (init_genrand 19650218) 1 0 in
  MT (<[0%nat := 2147483648]> (mix_index 623 w i)) 624.

(** The 32-bit digits of a non-negative integer, least significant first;
    at most [n] of them. *)
Fixpoint digits32 (n : nat) (x : Z) : list Z :=
  match n with
  | O => []
  | S n' =>
      if x <? 4294967296 then [x]
      else mask32 x :: digits32 n' (Z.shiftr x 32)
  end.

Definition seed (n : Z) : mt :=
  init_by_array (digits32 (S (Z.to_nat (Z.log2 (Z.abs n)))) (Z.abs n)).

(** The regeneration of the 624 words, in place and in index order. *)
Definition twist (w : list Z) : list Z :=
  fold_left
    (λ w kk,
       let y := Z.lor (Z.land (w !!! kk) 2147483648)
                      (Z.land (w !!! ((kk + 1) mod 624)%nat) 2147483647) in
       let v := Z.lxor (Z.lxor (w !!! ((kk + 397) mod 624)%nat) (Z.shiftr y 1))
                       (if Z.odd y then 2567483615 else 0) in
       <[kk := v]> w)
    (seq 0 624) w.

Definition temper (y : Z) : Z :=
  let y := Z.lxor y (Z.shiftr y 11) in
  let y := Z.lxor y (Z.land (mask32 (Z.shiftl y 7)) 2636928640) in
  let y := Z.lxor y (Z.land (mask32 (Z.shiftl y 15)) 4022730752) in
  Z.lxor y (Z.shiftr y 18).

Definition genrand_uint32 (s : mt) : Z * mt :=
  let s' := if (624 <=? index s)%nat then MT (twist (words s)) 0 else s in
  (temper (words s' !!! index s'), MT (words s') (S (index s'))).

(** [getrandbits(k)] for [k > 0]: one output per 32 bits, least significant
    first, the last one cut to the bits that remain. *)
Fixpoint getrandbits_words (n : nat) (k : Z) (s : mt) : Z * mt :=
  match n with
  | O => (0, s)
  | S n' =>
      let '(r, s') := genrand_uint32 s in
      if k <=? 32 then (Z.shiftr r (32 - k), s')
      else
        let '(hi, s'') := getrandbits_words n' (k - 32) s' in
        (r + Z.shiftl hi 32, s'')
  end.

Definition getrandbits (k : Z) (s : mt) : Z * mt :=
  getrandbits_words (Z.to_nat ((k - 1) / 32 + 1)) k s.

(** The loop [while r >= n: r = getrandbits(k)], cut after [fuel] draws.
    Each draw is below [n] with probability more than one half. *)
Fixpoint below_loop (fuel : nat) (n k : Z) (s : mt) : nat * mt :=
  match fuel with
  | O => (0%nat, s)
  | S fuel' =>
      let '(r, s') := getrandbits k s in
      if (0 <=? r) && (r <? n) then (Z.to_nat r, s')
      else below_loop fuel' n k s'
  end.

Definition randbelow (s : mt) (n : nat) : nat * mt :=
  below_loop 4096 (Z.of_nat n) (Z.log2 (Z.of_nat n) + 1) s.

End Mersenne.

Definition mersenne : generator :=
  Generator Mersenne.mt Mersenne.seed Mersenne.randbelow.

(** ** Agents (agents/base.py)

    What [make_move] hands back to its caller: a move, or an exception, of
    which the caller only uses the text [str(e)]. *)
Inductive reply (Move : Type) : Type :=
| Returned (m : Move)
| Raised (msg : string).
Arguments Returned {Move} m.
Arguments Raised {Move} msg.

(** An agent with private state [AState], playing a game with states [State]
    and moves [Move].  [make_move] may read and advance the process-wide
    generator.  The lifecycle hooks [game_start], [game_end] and
    [move_feedback] do nothing in the base class; the calls the runner makes
    to them are recorded as events of the match. *)
Record Agent (G : generator) (State Move AState : Type) : Type := MkAgent {
  agent_name : string;
  agent_make_move :
    AState → gen_state G → State → list Move → Z
    → reply Move * AState * gen_state G
}.
Arguments MkAgent {G State Move AState} _ _.
Arguments agent_name {G State Move AState} _.
Arguments agent_make_move {G State Move AState} _ _ _ _ _ _.

(** ** RandomAgent (agents/random_agent.py) *)
Module RandomAgent.
Section random_agent.
Context {G : generator} {State Move : Type}.

Definition make_move (self : unit) (rng : gen_state G) (state : State)
    (legal_moves : list Move) (player : Z)
  : reply Move * unit * gen_state G :=
  match legal_moves with
  | [] => (Raised "No legal moves available", self, rng)
  | _ :: _ =>
      match choice legal_moves rng with
      | (Ok m, rng') => (Returned m, self, rng')
      | (Raise _, rng') => (Raised "Cannot choose from an empty sequence",
                            self, rng')
      end
  end.

(** [RandomAgent(name, seed)]: a seed that is not [None] reseeds the
    process-wide generator. *)
Definition new (name : string) (seed : option Z) (rng : gen_state G)
  : Agent G State Move unit * gen_state G :=
  (MkAgent name make_move,
   match seed with
   | Some n => gen_seed G n
   | None => rng
   end).

(** The moves an agent returns when it is asked once for each list of
    [lists], in order. *)
Fixpoint ask (a : Agent G State Move unit) (state : State) (player : Z)
    (lists : list (list Move)) (rng : gen_state G)
  : list (reply Move) * gen_state G :=
  match lists with
  | [] => ([], rng)
  | legal_moves :: lists' =>
      let '(r, _, rng') := agent_make_move a tt rng state legal_moves player in
      let '(rs, rng'') := ask a state player lists' rng' in
      (r :: rs, rng'')
  end.

(** Two agents are constructed with the same seed, one after the other;
    then the first is asked once for each list of [lists], then the second
    is. *)
Definition same_seed_experiment (seed : Z) (state : State)
    (lists : list (list Move)) (rng0 : gen_state G)
  : list (reply Move) * list (reply Move) :=
  let '(a1, rng1) := new "Agent1" (Some seed) rng0 in
  let '(a2, rng2) := new "Agent2" (Some seed) rng1 in
  let '(moves1, rng3) := ask a1 state 0 lists rng2 in
  let '(moves2, _) := ask a2 state 0 lists rng3 in
  (moves1, moves2).

(** An agent is constructed with a seed and asked at once for each list of
    [lists]. *)
Definition fresh_agent_moves (name : string) (seed : Z) (state : State)
    (player : Z) (lists : list (list Move)) (rng0 : gen_state G)
  : list (reply Move) :=
  let '(a, rng1) := new name (Some seed) rng0 in
  (ask a state player lists rng1).1.

End random_agent.

End RandomAgent.

(** ** LLMAgent._parse_response (agents/llm_agent.py) *)
Module LLMAgent.

(** The longest prefix of digits of [s]. *)
Fixpoint digits_prefix (s : string) : string :=
  match s with
  | String c s' => if is_digit c then String c (digits_prefix s') else EmptyString
  | EmptyString => EmptyString
  end.

(** A match of [MOVE:\s*(\d+)], ignoring case, at the start of [s]: the
    text of group 1.  White space and digits are disjoint, so the greedy
    [\s*] never has to give characters back. *)
Definition match_here (s : string) : option string :=
  if startswith "move:" (lower s)
  then match digits_prefix (lstrip (str_from 5 s)) with
       | EmptyString => None
       | ds => Some ds
       end
  else None.

(** [re.search]: the match at the leftmost position that has one. *)
Fixpoint re_search (s : string) : option string :=
  match match_here s with
  | Some ds => Some ds
  | None =>
      match s with
      | String _ s' => re_search s'
      | EmptyString => None
      end
  end.




Definition _parse_response {G : generator} {Move} (response : string)
    (legal_moves : list Move) (rng : gen_state G)
  : result Move * gen_state G :=
  let fallback := choice legal_moves rng in
  match re_search response with
  | Some ds =>
      match int_of_str ds with
      | None => (Raise (ValueError "invalid literal for int()"), rng)
      | Some move_index =>
          if (0 <=? move_index) && (move_index <? Z.of_nat (length legal_moves))
          then match legal_moves !! Z.to_nat move_index with
               | Some m => (Ok m, rng)
               | None => (Raise IndexError, rng)
               end
          else fallback
      end
  | None => fallback
  end.


End LLMAgent.

(** ** The game interface (games/base.py) *)
Record Game (State Move : Type) : Type := MkGame {
  name : string;
  num_players : Z;
  reset : State;
  get_legal_moves : State → Z → result (list Move);
  make_move : State → Move → Z → result State;
  is_terminal : State → result bool;
  get_winner : State → result (option Z);
  move_to_string : Move → string
}.
Arguments MkGame {State Move} _ _ _ _ _ _ _ _.
Arguments name {State Move} _.
Arguments num_players {State Move} _.
Arguments reset {State Move} _.
Arguments get_legal_moves {State Move} _ _ _.
Arguments make_move {State Move} _ _ _ _.
Arguments is_terminal {State Move} _ _.
Arguments get_winner {State Move} _ _.
Arguments move_to_string {State Move} _ _.

(** The two games behind the interface.  The runner passes boards by value:
    every state it holds is a fresh array returned by [make_move] or a copy
    of one. *)
Definition gomoku (g : Gomoku.game) : Game ndarray Gomoku.move :=
  MkGame (Gomoku.name g) (Gomoku.num_players g) (Gomoku.reset g)
         (Gomoku.get_legal_moves g) (Gomoku.apply_move g)
         (Gomoku.is_terminal g) (Gomoku.get_winner g) Gomoku.move_to_string.

Definition connect4 (g : Connect4.game) : Game ndarray Connect4.move :=
  MkGame (Connect4.name g) (Connect4.num_players g) (Connect4.reset g)
         (Connect4.get_legal_moves g) (Connect4.apply_move g)
         (Connect4.is_terminal g) (Connect4.get_winner g)
         Connect4.move_to_string.

(** ** MatchRunner (engine/match_runner.py) *)
Module MatchRunner.

(** An entry of [moves_history]. *)
Record move_info : Type := MoveInfo {
  mi_player : Z;
  mi_agent_name : string;
  mi_move : string;
  mi_time_taken : Q
}.

(** The calls the runner makes to the hooks of the agents. *)
Inductive event (Move : Type) : Type :=
| GameStart (player : Z)
| MoveFeedback (player : Z) (mv : option Move) (success : bool)
    (message : string)
| GameEnd (player : Z) (winner : option Z).
Arguments GameStart {Move} player.
Arguments MoveFeedback {Move} player mv success message.
Arguments GameEnd {Move} player winner.

(** The result dictionary, without the entries that come from outside the
    match (the uuid [match_id] and the [date]). *)
Record match_result : Type := MatchResult {
  res_game : string;
  res_agents : list string;
  res_moves : nat;
  res_winner : option Z;
  res_avg_move_time : Q;
  res_max_move_time : Q
}.

(** How a run ends: with a value, with an exception that leaves
    [run_match], or, in this model only, by exhausting the bound put on the
    number of iterations of the [while] loop. *)
Inductive outcome (A : Type) : Type :=
| Done (a : A)
| Failed (e : exn)
| OutOfFuel.
Arguments Done {A} a.
Arguments Failed {A} e.
Arguments OutOfFuel {A}.

(** The number of [move_feedback] calls with the given verdict. *)
Definition is_feedback {Move} (success : bool) (e : event Move) : bool :=
  match e with
  | MoveFeedback _ _ ok _ => Bool.eqb ok success
  | _ => false
  end.

Definition feedbacks {Move} (success : bool) (evs : list (event Move)) : nat :=
  length (List.filter (is_feedback success) evs).

Section runner.
Context {G : generator} {State Move AState : Type}.
Context `{EqDecision Move}.

(** The successive readings of [time.time()] during the match. *)
Context (clock : nat → Q).

(** The runner's fields, the local variables of [run_match], the private
    states of the agents, the process-wide generator, the number of clock
    readings made so far and the hook calls made so far. *)
Record run : Type := Run {
  state : State;
  current_player : Z;
  move_count : Z;
  moves_history : list move_info;
  states_history : list State;
  move_times : list Q;
  agent_states : list AState;
  rng : gen_state G;
  ticks : nat;
  events : list (event Move)
}.

(** [MatchRunner(game, agents)]: the constructor refuses a number of agents
    other than [game.num_players]. *)
Definition new (game : Game State Move)
    (agents : list (Agent G State Move AState))
  : result (Game State Move * list (Agent G State Move AState)) :=
  if negb (Z.of_nat (length agents) =? num_players game)
  then Raise (ValueError
                (name game ++ " requires " ++ str_of_int (num_players game)
                 ++ " players, but " ++ str_of_int (Z.of_nat (length agents))
                 ++ " agents were provided")%string)
  else Ok (game, agents).

Context (game : Game State Move).
Context (agents : list (Agent G State Move AState)).

(** What one evaluation of the loop condition and body leads to. *)
Inductive step : Type :=
| Continue (r : run)
| Stop (r : run)
| Abort (e : exn).

(** [(current_player + 1) % self.game.num_players]. *)
Definition next_player (r : run) : result Z :=
  if num_players game =? 0 then Raise ZeroDivisionError
  else Ok ((current_player r + 1) mod num_players game).

(** The [try] block: the agent's answer and whether it is accepted. *)
Definition judge (legal_moves : list Move) (rep : reply Move)
  : option Move * bool * string :=
  match rep with
  | Returned m =>
      if decide (m ∈ legal_moves) then (Some m, true, EmptyString)
      else (Some m, false,
            ("Move " ++ move_to_string game m
               ++ " is not in the list of legal moves")%string)
  | Raised msg => (None, false, ("Agent error: " ++ msg)%string)
  end.

(** The branch [if move_success]. *)
Definition accept (r : run) (a : Agent G State Move AState) (m : Move)
    (elapsed : Q) : step :=
  let move_info :=
    MoveInfo (current_player r) (agent_name a) (move_to_string game m)
             elapsed in
  match make_move game (state r) m (current_player r), next_player r with
  | Raise e, _ => Abort e
  | Ok _, Raise e => Abort e
  | Ok new_state, Ok next =>
      Continue (Run new_state next (move_count r + 1)
                    (moves_history r ++ [move_info])
                    (states_history r ++ [new_state])
                    (move_times r ++ [elapsed])
                    (agent_states r) (rng r) (ticks r) (events r))
  end.

(** The branch [else]: a random legal move is played instead. *)
Definition recover (r : run) (legal_moves : list Move) : step :=
  match legal_moves with
  | [] =>
      match next_player r with
      | Raise e => Abort e
      | Ok next =>
          Continue (Run (state r) next (move_count r + 1)
                        (moves_history r) (states_history r) (move_times r)
                        (agent_states r) (rng r) (ticks r) (events r))
      end
  | _ :: _ =>
      match choice legal_moves (rng r) with
      | (Raise e, _) => Abort e
      | (Ok m, rng') =>
          match make_move game (state r) m (current_player r),
                next_player r with
          | Raise e, _ => Abort e
          | Ok _, Raise e => Abort e
          | Ok new_state, Ok next =>
              Continue (Run new_state next (move_count r + 1)
                            (moves_history r)
                            (states_history r ++ [new_state])
                            (move_times r)
                            (agent_states r) rng' (ticks r) (events r))
          end
      end
  end.

(** One test of the loop condition followed, when it holds, by one run of
    the loop body. *)
Definition turn (max_moves : Z) (r : run) : step :=
  match is_terminal game (state r) with
  | Raise e => Abort e
  | Ok true => Stop r
  | Ok false =>
      if negb (move_count r <? max_moves) then Stop r
      else
        match np_item agents (current_player r),
              np_item (agent_states r) (current_player r) with
        | Ok agent, Ok ast =>
            match get_legal_moves game (state r) (current_player r) with
            | Raise e => Abort e
            | Ok [] =>
                match next_player r with
                | Raise e => Abort e
                | Ok next =>
                    Continue (Run (state r) next (move_count r)
                                  (moves_history r) (states_history r)
                                  (move_times r) (agent_states r) (rng r)
                                  (ticks r) (events r))
                end
            | Ok legal_moves =>
                let start_time := clock (ticks r) in
                let '(rep, ast', rng') :=
                  agent_make_move agent ast (rng r) (state r) legal_moves
                                  (current_player r) in
                let end_time := clock (S (ticks r)) in
                let elapsed := (end_time - start_time)%Q in
                let '(mv, move_success, error_message) :=
                  judge legal_moves rep in
                let r' :=
                  Run (state r) (current_player r) (move_count r)
                      (moves_history r) (states_history r) (move_times r)
                      (<[Z.to_nat (current_player r) := ast']>
                         (agent_states r))
                      rng' (S (S (ticks r)))
                      (events r ++ [MoveFeedback (current_player r) mv
                                      move_success error_message]) in
                match move_success, mv with
                | true, Some m => accept r' agent m elapsed
                | _, _ => recover r' legal_moves
                end
            end
        | Raise e, _ => Abort e
        | _, Raise e => Abort e
        end
  end.

Fixpoint run_loop (fuel : nat) (max_moves : Z) (r : run) : outcome run :=
  match fuel with
  | O => OutOfFuel
  | S fuel' =>
      match turn max_moves r with
      | Continue r' => run_loop fuel' max_moves r'
      | Stop r' => Done r'
      | Abort e => Failed e
      end
  end.

Definition sum_times (l : list Q) : Q := fold_left Qplus l 0%Q.
Definition max_times (l : list Q) : Q :=
  match l with
  | [] => 0%Q
  | t :: l' => fold_left Qmax l' t
  end.

(** The result dictionary of [run_match], from the final values of the
    runner's fields. *)
Definition result_of (r : run) (winner : option Z) : match_result :=
  MatchResult (name game) (map agent_name agents)
              (length (moves_history r)) winner
              (match move_times r with
               | [] => 0%Q
               | _ :: _ =>
                   (sum_times (move_times r)
                    / inject_Z (Z.of_nat (length (move_times r))))%Q
               end)
              (max_times (move_times r)).

(** The state of the run when the loop is entered. *)
Definition start (agent_states0 : list AState) (rng0 : gen_state G) : run :=
  Run (reset game) 0 0 [] [reset game] [] agent_states0 rng0 0
      (map (λ i : nat, GameStart (Z.of_nat i)) (seq 0 (length agents))).

(** [run_match(max_moves)]: the result dictionary and the final values of
    the runner's fields.  The call to the external logger at the end is left
    out. *)
Definition run_match (fuel : nat) (max_moves : Z) (agent_states0 : list AState)
    (rng0 : gen_state G) : outcome (match_result * run) :=
  match run_loop fuel max_moves (start agent_states0 rng0) with
  | OutOfFuel => OutOfFuel
  | Failed e => Failed e
  | Done r =>
      match get_winner game (state r) with
      | Raise e => Failed e
      | Ok winner =>
          let r' :=
            Run (state r) (current_player r) (move_count r) (moves_history r)
                (states_history r) (move_times r) (agent_states r) (rng r)
                (ticks r)
                (events r ++ map (λ i : nat, GameEnd (Z.of_nat i) winner)
                                 (seq 0 (length agents))) in
          Done (result_of r' winner, r')
      end
  end.

(** The three ways through the loop body, as a relation between the run
    before and after: the pass, the accepted move and the rejected move
    followed by the random legal move. *)
Inductive turn_to (max_moves : Z) (r : run) : run → Prop :=
| turn_pass (agent : Agent G State Move AState) (ast : AState) (next : Z) :
    is_terminal game (state r) = Ok false → move_count r < max_moves →
    np_item agents (current_player r) = Ok agent →
    np_item (agent_states r) (current_player r) = Ok ast →
    get_legal_moves game (state r) (current_player r) = Ok [] →
    next_player r = Ok next →
    turn_to max_moves r
      (Run (state r) next (move_count r) (moves_history r) (states_history r)
           (move_times r) (agent_states r) (rng r) (ticks r) (events r))
| turn_accepted (agent : Agent G State Move AState) (ast ast' : AState)
    (legal_moves : list Move) (m : Move) (rng' : gen_state G)
    (new_state : State) (next : Z) :
    is_terminal game (state r) = Ok false → move_count r < max_moves →
    np_item agents (current_player r) = Ok agent →
    np_item (agent_states r) (current_player r) = Ok ast →
    get_legal_moves game (state r) (current_player r) = Ok legal_moves →
    agent_make_move agent ast (rng r) (state r) legal_moves (current_player r)
    = (Returned m, ast', rng') →
    m ∈ legal_moves →
    make_move game (state r) m (current_player r) = Ok new_state →
    next_player r = Ok next →
    let elapsed := (clock (S (ticks r)) - clock (ticks r))%Q in
    turn_to max_moves r
      (Run new_state next (move_count r + 1)
           (moves_history r
              ++ [MoveInfo (current_player r) (agent_name agent)
                           (move_to_string game m) elapsed])
           (states_history r ++ [new_state])
           (move_times r ++ [elapsed])
           (<[Z.to_nat (current_player r) := ast']> (agent_states r))
           rng' (S (S (ticks r)))
           (events r ++ [MoveFeedback (current_player r) (Some m) true
                           EmptyString]))
| turn_rejected (agent : Agent G State Move AState) (ast ast' : AState)
    (legal_moves : list Move) (rep : reply Move) (mv : option Move)
    (message : string) (m : Move) (rng' rng'' : gen_state G)
    (new_state : State) (next : Z) :
    is_terminal game (state r) = Ok false → move_count r < max_moves →
    np_item agents (current_player r) = Ok agent →
    np_item (agent_states r) (current_player r) = Ok ast →
    get_legal_moves game (state r) (current_player r) = Ok legal_moves →
    legal_moves ≠ [] →
    agent_make_move agent ast (rng r) (state r) legal_moves (current_player r)
    = (rep, ast', rng') →
    judge legal_moves rep = (mv, false, message) →
    choice legal_moves rng' = (Ok m, rng'') →
    make_move game (state r) m (current_player r) = Ok new_state →
    next_player r = Ok next →
    turn_to max_moves r
      (Run new_state next (move_count r + 1) (moves_history r)
           (states_history r ++ [new_state]) (move_times r)
           (<[Z.to_nat (current_player r) := ast']> (agent_states r))
           rng'' (S (S (ticks r)))
           (events r ++ [MoveFeedback (current_player r) mv false message])).

(** The agent in seat [i] answers every request the runner can make, on a
    state of [I] with the legal moves of that state, with a move that is not
    one of them. *)
Definition always_illegal (I : State → Prop) (i : nat) : Prop :=
  ∀ a ast rng0 s p legal_moves,
    agents !! i = Some a → I s →
    get_legal_moves game s p = Ok legal_moves →
    ∃ m, (agent_make_move a ast rng0 s legal_moves p).1.1 = Returned m
         ∧ m ∉ legal_moves.

(** The bookkeeping of the runner: one history entry and one time sample
    per accepted move, one snapshot and one consumed turn per applied
    move. *)
Record booked (accepted rejected : nat) (r : run) : Prop := Booked {
  book_moves : length (moves_history r) = accepted;
  book_times : move_times r = map mi_time_taken (moves_history r);
  book_states : length (states_history r) = S (accepted + rejected);
  book_count : move_count r = Z.of_nat (accepted + rejected)
}.

(** Each snapshot but the first is the previous one after a legal move of
    the player whose turn it was. *)
Definition legal_chain (history : list State) : Prop :=
  ∀ (j : nat) (s s' : State),
    history !! j = Some s → history !! S j = Some s' →
    ∃ legal_moves m,
      get_legal_moves game s (Z.of_nat j mod num_players game) = Ok legal_moves
      ∧ m ∈ legal_moves
      ∧ make_move game s m (Z.of_nat j mod num_players game) = Ok s'.

Definition booked_run (r : run) : Prop :=
  booked (feedbacks true (events r)) (feedbacks false (events r)) r.

(** What holds of a run of a lawful game between two turns. *)
Record sound (I : State → Prop) (bad : nat) (r : run) : Prop := Sound {
  snd_state : I (state r);
  snd_count : 0 ≤ move_count r;
  snd_player : current_player r = move_count r mod num_players game;
  snd_agents : length (agent_states r) = length agents;
  snd_history :
    ∃ past, states_history r = past ++ [state r]
            ∧ Z.of_nat (length past) = move_count r
            ∧ Forall (λ s, is_terminal game s = Ok false) past;
  snd_chain : legal_chain (states_history r);
  snd_turns :
    ∀ p, 0 ≤ p < num_players game → p < move_count r →
         ∃ mv ok msg, MoveFeedback p mv ok msg ∈ events r;
  snd_bad :
    ∀ mv ok msg,
      MoveFeedback (Z.of_nat bad) mv ok msg ∈ events r → ok = false
}.

(** The average and the maximum of the result, from time samples. *)
Definition avg_of (times : list Q) : Q :=
  match times with
  | [] => 0%Q
  | _ :: _ => (sum_times times / inject_Z (Z.of_nat (length times)))%Q
  end.

(** A turn in which the agent's answer was rejected: no entry is added to
    [moves_history] and no sample to [move_times], while one of the legal
    moves is applied and its state is added to [states_history]. *)
Definition rejected_turn (r r' : run) : Prop :=
  moves_history r' = moves_history r
  ∧ move_times r' = move_times r
  ∧ move_count r' = move_count r + 1
  ∧ ∃ legal_moves m rng1,
      get_legal_moves game (state r) (current_player r) = Ok legal_moves
      ∧ choice legal_moves rng1 = (Ok m, rng r')
      ∧ m ∈ legal_moves
      ∧ make_move game (state r) m (current_player r) = Ok (state r')
      ∧ states_history r' = states_history r ++ [state r'].

(** The result counts and times the accepted moves only: the fallback moves
    appear in the snapshots and in the consumed turns, not in the moves of
    the result nor in its statistics. *)
Definition counts_accepted_only (res : match_result) (r : run) : Prop :=
  res_moves res = feedbacks true (events r)
  ∧ length (moves_history r) = feedbacks true (events r)
  ∧ length (states_history r)
    = S (feedbacks true (events r) + feedbacks false (events r))
  ∧ move_count r
    = Z.of_nat (feedbacks true (events r) + feedbacks false (events r))
  ∧ res_avg_move_time res = avg_of (map mi_time_taken (moves_history r))
  ∧ res_max_move_time res = max_times (map mi_time_taken (moves_history r)).

(** A match that runs to completion with the agent in seat [bad] rejected
    at each of its turns: for every bound on the iterations above the cap,
    [run_match] returns; the turns consumed are the cap or the number after
    which the state is terminal, whichever comes first, with one snapshot
    per turn, each the previous one after a legal move; every feedback to
    the seat says "rejected", and there is one as soon as the seat had a
    turn; the result counts the accepted moves only. *)
Definition completes_by_recovery (bad : nat) (max_moves : Z)
    (agent_states0 : list AState) (rng0 : gen_state G) : Prop :=
  ∀ fuel, (Z.to_nat max_moves < fuel)%nat →
    ∃ res r,
      run_match fuel max_moves agent_states0 rng0 = Done (res, r)
      ∧ 0 ≤ move_count r ≤ max_moves
      ∧ (is_terminal game (state r) = Ok true ∨ move_count r = max_moves)
      ∧ (∃ past, states_history r = past ++ [state r]
                 ∧ Z.of_nat (length past) = move_count r
                 ∧ Forall (λ s, is_terminal game s = Ok false) past)
      ∧ legal_chain (states_history r)
      ∧ (∀ mv ok msg,
            MoveFeedback (Z.of_nat bad) mv ok msg ∈ events r → ok = false)
      ∧ (Z.of_nat bad < move_count r →
         ∃ mv msg, MoveFeedback (Z.of_nat bad) mv false msg ∈ events r)
      ∧ move_count r
        = Z.of_nat (feedbacks true (events r) + feedbacks false (events r))
      ∧ res_moves res = feedbacks true (events r).

End runner.

(** The rules a game has to follow for a match to run through: on the states
    [I] that a match can reach, the methods do not raise, a state that is
    not terminal has a legal move whoever is asked, and a legal move of a
    player can be applied. *)
Record lawful {State Move} (game : Game State Move) (I : State → Prop)
  : Prop := Lawful {
  law_players : 0 < num_players game;
  law_reset : I (reset game);
  law_terminal : ∀ s, I s → ∃ t, is_terminal game s = Ok t;
  law_legal : ∀ s p, I s →
    ∃ l, get_legal_moves game s p = Ok l
         ∧ (is_terminal game s = Ok false → l ≠ []);
  law_move : ∀ s p l m,
    I s → 0 ≤ p < num_players game → get_legal_moves game s p = Ok l →
    m ∈ l → ∃ s', make_move game s m p = Ok s' ∧ I s';
  law_winner : ∀ s, I s → ∃ w, get_winner game s = Ok w
}.

End MatchRunner.

(** ** The agents of the test suite *)
Module TestAgents.
Section test_agents.
Context {G : generator} {State Move : Type} `{EqDecision Move}.

(** A mock whose [make_move] has a fixed return value
    (tests/unit/engine/test_match_runner.py). *)
Definition always (name : string) (m : Move) : Agent G State Move nat :=
  MkAgent name (λ calls rng _ _ _, (Returned m, S calls, rng)).

(** [ScriptedAgent] (tests/integration/test_full_match.py): the next move of
    the script when it is legal, the first legal move otherwise. *)
Definition scripted (name : string) (moves : list Move)
  : Agent G State Move nat :=
  MkAgent name
    (λ move_index rng _ legal_moves _,
       let fallback :=
         match legal_moves with
         | m :: _ => Returned m
         | [] => Raised "move_to_string of None"
         end in
       (match moves !! move_index with
        | Some m => if decide (m ∈ legal_moves) then Returned m else fallback
        | None => fallback
        end, S move_index, rng)).

End test_agents.
End TestAgents.

(** Two seeded agents are constructed, then their match is run. *)
Definition seeded_match {G : generator} {State Move : Type}
    `{EqDecision Move} (clock : nat → Q) (game : Game State Move)
    (name1 name2 : string) (seed1 seed2 : Z) (fuel : nat) (max_moves : Z)
    (rng0 : gen_state G) :=
  let '(a1, rng1) := RandomAgent.new (G := G) (State := State) (Move := Move)
                         name1 (Some seed1) rng0 in
  let '(a2, rng2) := RandomAgent.new name2 (Some seed2) rng1 in
  MatchRunner.run_match clock game [a1; a2] fuel max_moves [tt; tt] rng2.


(** ** Sample matches *)

(** The legal moves of the unit test of the seeded agents. *)
Definition diagonal_moves : list Gomoku.move :=
  [(0, 0); (1, 1); (2, 2); (3, 3); (4, 4)].

(** The hook calls made up to the end of a turn that goes on. *)
Definition events_after {G : generator} {State Move AState : Type}
    (s : @MatchRunner.step G State Move AState)
  : option (list (MatchRunner.event Move)) :=
  match s with
  | MatchRunner.Continue r => Some (MatchRunner.events r)
  | _ => None
  end.

(** What is observed of a finished match: the result's count of moves, the
    turns consumed, the number of snapshots, the texts of the recorded moves
    and the hook calls. *)
Definition observed {G : generator} {State Move AState : Type}
    (o : MatchRunner.outcome
           (MatchRunner.match_result * @MatchRunner.run G State Move AState))
  : option (nat * Z * nat * list string * list (MatchRunner.event Move)) :=
  match o with
  | MatchRunner.Done (res, r) =>
      Some (MatchRunner.res_moves res, MatchRunner.move_count r,
            length (MatchRunner.states_history r),
            map MatchRunner.mi_move (MatchRunner.moves_history r),
            MatchRunner.events r)
  | _ => None
  end.

(** Clock readings one second apart. *)
Definition sample_clock (n : nat) : Q := inject_Z (Z.of_nat n).

(** An agent that always asks for the cell (9, 9), off a 5x5 board, and one
    that always asks for column 9, off a 7-column board. *)
Definition off_board : Agent mersenne ndarray Gomoku.move nat :=
  TestAgents.always "BadAgent" (9, 9).
Definition off_columns : Agent mersenne ndarray Connect4.move nat :=
  TestAgents.always "BadAgent" 9.

(** * The rest of the rules engines, the other agents and the match log *)

(** ** Gomoku._check_line (games/gomoku.py)

    The line check that walks from a start cell along a direction.  The
    [while] loop adds one to [count] in each round and returns as soon as
    [count] reaches [win_length]; [fuel] bounds the number of rounds. *)
Module GomokuLine.
Import Gomoku MatchRunner.

Fixpoint check_line_loop (fuel : nat) (g : game) (state : ndarray)
    (row col row_dir col_dir player_id count : Z) : outcome bool :=
  match fuel with
  | O => OutOfFuel
  | S fuel' =>
      let n := Z.of_nat (board_size g) in
      if (0 <=? row) && (row <? n) && ((0 <=? col) && (col <? n))
      then
        match np_get state row col with
        | Raise e => Failed e
        | Ok v =>
            if v =? player_id then
              let count := count + 1 in
              let row := row + row_dir in
              let col := col + col_dir in
              if Z.of_nat (win_length g) <=? count then Done true
              else check_line_loop fuel' g state row col row_dir col_dir
                                   player_id count
            else Done false
        end
      else Done false
  end.

Definition _check_line (g : game) (state : ndarray)
    (start_row start_col row_dir col_dir player_id : Z) : outcome bool :=
  check_line_loop (S (win_length g)) g state start_row start_col
                  row_dir col_dir player_id 0.

End GomokuLine.

(** ** Counting cells *)

(** The number of empty cells of a board. *)
Definition empties (a : ndarray) : nat :=
  length (List.filter (Z.eqb 0) (concat a)).

(** No empty cell lies below a piece: in every column the empty cells are
    the topmost ones (row 0 is the top row). *)
Definition settled (a : ndarray) : Prop :=
  ∀ r c, cell a r c = Some 0 →
         ∀ r', 0 ≤ r' < r → cell a r' c = Some 0.

(** The row-major order of Gomoku moves: by row, then by column. *)
Definition row_major (m m' : Z * Z) : Prop :=
  m.1 < m'.1 ∨ (m.1 = m'.1 ∧ m.2 < m'.2).

(** The board [b] is the board [a] with at most one cell changed, from
    empty to [mark]. *)
Definition one_mark_added (a b : ndarray) (mark : Z) : Prop :=
  ∀ r c, cell b r c = cell a r c
         ∨ (cell a r c = Some 0 ∧ cell b r c = Some mark).

(** ** Matches between arbitrary agents *)

(** What a finished match of a game on a board with [cells] cells looks
    like, whatever the agents did: the snapshot of index [j] has [j] cells
    filled, the turns consumed are the index of the last snapshot, which is
    the final state, and a match that was given at least [cells] turns ends
    in a terminal state. *)
Definition fills_the_board {G : generator} {Move AState : Type}
    (game : Game (list (list Z)) Move) (cells : nat) (max_moves : Z)
    (r : @MatchRunner.run G (list (list Z)) Move AState) : Prop :=
  (∀ (j : nat) (s : list (list Z)),
      MatchRunner.states_history r !! j = Some s →
      (empties s + j)%nat = cells)
  ∧ MatchRunner.states_history r !! Z.to_nat (MatchRunner.move_count r)
    = Some (MatchRunner.state r)
  ∧ 0 ≤ MatchRunner.move_count r ≤ Z.min max_moves (Z.of_nat cells)
  ∧ (Z.of_nat cells ≤ max_moves →
     is_terminal game (MatchRunner.state r) = Ok true).

(** ** EnforcedRandomAgent (agents/enforced_random_agent.py) *)
Module EnforcedRandomAgent.
Section enforced_random_agent.
Context {G : generator} {State Move : Type}.

(** The validation loop.  Each candidate is tried on the state with
    [game.make_move]; the copy of the state that is made first leaves no
    trace, since [make_move] receives a fresh array.  A candidate whose
    trial raises ValueError is skipped; any other exception leaves the loop
    and the method. *)
Fixpoint validate (game : Game State Move) (state : State) (player : Z)
    (legal_moves validated_moves : list Move) : result (list Move) :=
  match legal_moves with
  | [] => Ok validated_moves
  | move :: rest =>
      match make_move game state move player with
      | Ok _ => validate game state player rest (validated_moves ++ [move])
      | Raise (ValueError _) => validate game state player rest validated_moves
      | Raise e => Raise e
      end
  end.

(** [make_move]: the move or the exception, and the generator afterwards.
    The second test of the source for an empty list cannot succeed after the
    first and is left out. *)
Definition make_move (game : Game State Move) (rng : gen_state G)
    (state : State) (legal_moves : list Move) (player : Z)
  : result Move * gen_state G :=
  match legal_moves with
  | [] => (Raise (ValueError "No legal moves available"), rng)
  | _ :: _ =>
      match validate game state player legal_moves [] with
      | Raise e => (Raise e, rng)
      | Ok [] =>
          (Raise (ValueError "No valid moves available after validation"),
           rng)
      | Ok validated_moves => choice validated_moves rng
      end
  end.

End enforced_random_agent.
End EnforcedRandomAgent.

(** ** The text of a board (display_state)

    Strings stand for their UTF-8 encoding: the three stones of the Gomoku
    board are characters of two and three bytes.  The functions below only
    concatenate, which commutes with the encoding. *)

(** The line feed. *)
Definition nl : string := String (ascii_of_nat 10) EmptyString.

(** [display += ...] over the items of a list. *)
Definition str_concat (l : list string) : string :=
  fold_right String.append EmptyString l.

(** The same when producing an item may raise: the first exception ends the
    loops. *)
Fixpoint str_concat_res {A} (f : A → result string) (l : list A)
  : result string :=
  match l with
  | [] => Ok EmptyString
  | x :: l' =>
      s <- f x ;; t <- str_concat_res f l' ;; Ok (s ++ t)%string
  end.

(** [f"{n:2d}"]: the decimal digits of [n], padded on the left with spaces
    to a width of 2. *)
Definition fmt_2d (n : Z) : string :=
  let s := str_of_int n in
  match String.length s with
  | O => "  "%string
  | S O => (" " ++ s)%string
  | _ => s
  end.

Module Connect4Text.
Import Connect4.

(** The three characters of a cell. *)
Definition cell_text (v : Z) : string :=
  if v =? 0 then "   "%string
  else if v =? 1 then " X "%string else " O "%string.

Definition display_state (g : game) (state : ndarray) : result string :=
  let columns := range (Z.of_nat (cols g)) in
  let header :=
    (" " ++ str_concat (map (λ col, " " ++ str_of_int col ++ " ") columns)
       ++ nl)%string in
  board <- str_concat_res
             (λ row,
                cells <- str_concat_res
                           (λ col, v <- np_get state row col ;;
                                   Ok (cell_text v))
                           columns ;;
                Ok ("|" ++ cells ++ "|" ++ nl)%string)
             (range (Z.of_nat (rows g))) ;;
  let bottom :=
    ("+" ++ str_concat (map (λ col, "---") columns) ++ "+" ++ nl)%string in
  Ok (header ++ board ++ bottom)%string.

End Connect4Text.

Module GomokuText.
Import Gomoku.

Definition EMPTY : string := "·".
Definition BLACK : string := "○".
Definition WHITE : string := "●".

Definition cell_text (v : Z) : string :=
  if v =? 0 then (" " ++ EMPTY)%string
  else if v =? 1 then (" " ++ BLACK)%string else (" " ++ WHITE)%string.

Definition display_state (g : game) (state : ndarray) : result string :=
  let indices := range (Z.of_nat (board_size g)) in
  let header := ("  " ++ str_concat (map fmt_2d indices) ++ nl)%string in
  board <- str_concat_res
             (λ row,
                cells <- str_concat_res
                           (λ col, v <- np_get state row col ;;
                                   Ok (cell_text v))
                           indices ;;
                Ok (fmt_2d row ++ cells ++ nl)%string)
             indices ;;
  Ok (header ++ board)%string.

End GomokuText.

(** ** LLMAgent: the prompt, the request loop and [make_move]
    (agents/llm_agent.py) *)
Module LLMRequest.

(** The double quote. *)
Definition dq : string := String (ascii_of_nat 34) EmptyString.

(** ["\n".join(lines)]. *)
Fixpoint join_lines (lines : list string) : string :=
  match lines with
  | [] => EmptyString
  | [line] => line
  | line :: rest => (line ++ nl ++ join_lines rest)%string
  end.

(** What the agent has done to the outside world: the requests sent to the
    API and the calls to [time.sleep]. *)
Record io : Type := IO { requests : nat; sleeps : nat }.

(** What leaves [make_move] when it raises: an exception of Python or of
    the games, an exception of the API client, or the TypeError of
    [re.search] for a response that is no text. *)
Inductive raised (E : Type) : Type :=
| Builtin (e : exn)
| Client (e : E)
| TypeError.
Arguments Builtin {E} e.
Arguments Client {E} e.
Arguments TypeError {E}.

Section llm_agent.
Context {G : generator} {State Move E : Type}.

(** The game and its [display_state], which the interface of the runner
    leaves out. *)
Context (game : Game State Move) (display_state : State → result string).

(** The API.  [api n prompt] is what the [try] block of the request number
    [n] comes to: an exception of the client, or the [content] of the first
    choice, which may be [None]. *)
Context (api : nat → string → E + option string).

Definition _create_prompt (state : State) (legal_moves : list Move)
    (player : Z) : result string :=
  board_display <- display_state state ;;
  let moves_display :=
    join_lines
      (imap (λ i move, "- Move " ++ str_of_int (Z.of_nat i) ++ ": "
                       ++ move_to_string game move)%string
            legal_moves) in
  Ok (nl ++ "Game: " ++ name game ++ nl
      ++ "Player: " ++ str_of_int player
      ++ " (" ++ (if (player =? 0)%Z then "X" else "O") ++ ")" ++ nl
      ++ nl
      ++ "Current Board:" ++ nl
      ++ board_display ++ nl
      ++ nl
      ++ "Legal Moves (pick one by index):" ++ nl
      ++ moves_display ++ nl
      ++ nl
      ++ "Analyze the board position and choose the best move. Provide a brief explanation of your reasoning."
      ++ nl
      ++ "Then, clearly indicate your chosen move by writing " ++ dq
      ++ "MOVE: " ++ dq ++ " followed by the index of the chosen move."
      ++ nl
      ++ "For example: " ++ dq ++ "MOVE: 2" ++ dq ++ nl)%string.

(** The loop [for attempt in range(max_retries)] of [_query_llm]: a
    response is returned at once; after an exception the agent sleeps and
    goes on, unless the attempt was the last one, whose exception is raised
    again.  A loop that runs out returns [None]. *)
Fixpoint query_loop (max_retries : Z) (prompt : string) (attempts : list Z)
    (w : io) : (E + option string) * io :=
  match attempts with
  | [] => (inr None, w)
  | attempt :: rest =>
      let w' := IO (S (requests w)) (sleeps w) in
      match api (requests w) prompt with
      | inr content => (inr content, w')
      | inl e =>
          if attempt <? max_retries - 1
          then query_loop max_retries prompt rest
                          (IO (requests w') (S (sleeps w')))
          else (inl e, w')
      end
  end.

Definition _query_llm (max_retries : Z) (prompt : string) (w : io)
  : (E + option string) * io :=
  query_loop max_retries prompt (range max_retries) w.

Definition make_move (max_retries : Z) (w : io) (rng : gen_state G)
    (state : State) (legal_moves : list Move) (player : Z)
  : (raised E + Move) * io * gen_state G :=
  match legal_moves with
  | [] => (inl (Builtin (ValueError "No legal moves available")), w, rng)
  | _ :: _ =>
      match _create_prompt state legal_moves player with
      | Raise e => (inl (Builtin e), w, rng)
      | Ok prompt =>
          match _query_llm max_retries prompt w with
          | (inl e, w') => (inl (Client e), w', rng)
          | (inr None, w') => (inl TypeError, w', rng)
          | (inr (Some response), w') =>
              match LLMAgent._parse_response response legal_moves rng with
              | (Ok m, rng') => (inr m, w', rng')
              | (Raise e, rng') => (inl (Builtin e), w', rng')
              end
          end
      end
  end.

End llm_agent.
End LLMRequest.

(** ** The match log (engine/match_runner.py, utils/logger.py,
    get_state_representation of the games) *)
Module MatchLog.
Import MatchRunner.

(** The Python values that make up the log of a match: [None], integers,
    floats, strings, lists, dictionaries with string keys (in insertion
    order) and numpy arrays. *)
#[local] Unset Elimination Schemes.
Inductive pyval : Type :=
| PNone
| PInt (n : Z)
| PFloat (x : Q)
| PStr (s : string)
| PList (l : list pyval)
| PDict (items : list (string * pyval))
| PArray (a : list (list Z)).
#[local] Set Elimination Schemes.

(** [a.tolist()]. *)
Definition tolist (a : ndarray) : pyval :=
  PList (map (λ row, PList (map PInt row)) a).

(** [d[key] = value]: the entry is replaced where it is, or added at the
    end. *)
Fixpoint dict_set (key : string) (value : pyval)
    (items : list (string * pyval)) : list (string * pyval) :=
  match items with
  | [] => [(key, value)]
  | (k, v) :: items' =>
      if String.eqb k key then (k, value) :: items'
      else (k, v) :: dict_set key value items'
  end.

(** [d.get(key)]. *)
Fixpoint dict_get (key : string) (items : list (string * pyval))
  : option pyval :=
  match items with
  | [] => None
  | (k, v) :: items' => if String.eqb k key then Some v else dict_get key items'
  end.

(** [prepare_for_json], the helper of [Logger.log_match]: dictionaries and
    lists are rebuilt from prepared parts, whatever has a [tolist] method is
    replaced by its list, the rest is kept. *)
Fixpoint prepare_for_json (obj : pyval) : pyval :=
  match obj with
  | PDict items => PDict (map (λ kv, (kv.1, prepare_for_json kv.2)) items)
  | PList l => PList (map prepare_for_json l)
  | PArray a => tolist a
  | _ => obj
  end.

(** A value that holds no numpy array, which is what [json.dump] needs of
    these values. *)
Fixpoint array_free (v : pyval) : bool :=
  match v with
  | PArray _ => false
  | PList l => forallb array_free l
  | PDict items => forallb (λ kv, array_free kv.2) items
  | _ => true
  end.

Definition gomoku_state_representation (g : Gomoku.game) (state : ndarray)
  : pyval :=
  PDict [("board"%string, tolist state);
         ("board_size"%string, PInt (Z.of_nat (Gomoku.board_size g)));
         ("win_length"%string, PInt (Z.of_nat (Gomoku.win_length g)))].

Definition connect4_state_representation (g : Connect4.game) (state : ndarray)
  : pyval :=
  PDict [("board"%string, tolist state);
         ("dimensions"%string,
          PDict [("rows"%string, PInt (Z.of_nat (Connect4.rows g)));
                 ("cols"%string, PInt (Z.of_nat (Connect4.cols g)))]);
         ("win_length"%string, PInt (Z.of_nat (Connect4.win_length g)))].

(** An entry of [moves_history] as the dictionary it is. *)
Definition move_info_dict (mi : move_info) : pyval :=
  PDict [("player"%string, PInt (mi_player mi));
         ("agent_name"%string, PStr (mi_agent_name mi));
         ("move"%string, PStr (mi_move mi));
         ("time_taken"%string, PFloat (mi_time_taken mi))].

Section log.
Context {G : generator} {State Move AState : Type}.
Context (game : Game State Move) (agents : list (Agent G State Move AState)).

(** The result dictionary of [run_match] with all its entries, as the list
    of its items; [match_id] and [date] come from outside the match.  The
    two statistics are the integer 0 when no move was accepted. *)
Definition result_dict (match_id date : string) (r : @run G State Move AState)
    (winner : option Z) : list (string * pyval) :=
  [("match_id"%string, PStr match_id);
   ("game"%string, PStr (name game));
   ("date"%string, PStr date);
   ("agents"%string, PList (map (λ a, PStr (agent_name a)) agents));
   ("moves"%string, PInt (Z.of_nat (length (moves_history r))));
   ("winner"%string, match winner with Some p => PInt p | None => PNone end);
   ("avg_move_time"%string,
    match move_times r with
    | [] => PInt 0
    | _ :: _ =>
        PFloat (sum_times (move_times r)
                / inject_Z (Z.of_nat (length (move_times r))))%Q
    end);
   ("max_move_time"%string,
    match move_times r with
    | [] => PInt 0
    | _ :: _ => PFloat (max_times (move_times r))
    end)].

(** [MatchRunner.log_match]: the data handed to the logger.  The entries of
    the result come first, then the history of the moves and the
    representation of [states_history[-1]]. *)
Definition log_data (get_state_representation : State → pyval)
    (result_items : list (string * pyval)) (r : @run G State Move AState)
  : result pyval :=
  match list.last (states_history r) with
  | None => Raise IndexError
  | Some final =>
      Ok (PDict (dict_set "final_state" (get_state_representation final)
                   (dict_set "moves_history"
                      (PList (map move_info_dict (moves_history r)))
                      result_items)))
  end.

End log.
End MatchLog.

(** ** A runner used for a second match

    [run_match] never empties [moves_history], [states_history] and
    [move_times]: they are set in [__init__] only.  A second call on the
    same [MatchRunner] starts from the fields, the agents, the generator
    and the clock as the first call left them. *)
Module MatchAgain.
Import MatchRunner.

Section match_again.
Context {G : generator} {State Move AState : Type}.
Context `{EqDecision Move}.
Context (clock : nat → Q).
Context (game : Game State Move).
Context (agents : list (Agent G State Move AState)).

(** The state of the run when the loop is entered for the second time. *)
Definition start_again (prev : run) : @run G State Move AState :=
  Run (reset game) 0 0 (moves_history prev)
      (states_history prev ++ [reset game]) (move_times prev)
      (agent_states prev) (rng prev) (ticks prev)
      (events prev
         ++ map (λ i : nat, GameStart (Z.of_nat i)) (seq 0 (length agents))).

(** [run_match(max_moves)] on a runner that has run a match. *)
Definition run_match_again (fuel : nat) (max_moves : Z) (prev : run)
  : outcome (match_result * run) :=
  match run_loop clock game agents fuel max_moves (start_again prev) with
  | OutOfFuel => OutOfFuel
  | Failed e => Failed e
  | Done r =>
      match get_winner game (state r) with
      | Raise e => Failed e
      | Ok winner =>
          let r' :=
            Run (state r) (current_player r) (move_count r) (moves_history r)
                (states_history r) (move_times r) (agent_states r) (rng r)
                (ticks r)
                (events r ++ map (λ i : nat, GameEnd (Z.of_nat i) winner)
                                 (seq 0 (length agents))) in
          Done (result_of game agents r' winner, r')
      end
  end.

(** The fields of a runner after the run [prev] followed by the run [r] of
    a runner of its own: the histories of both, one after the other. *)
Definition continued (prev r : @run G State Move AState) : run :=
  Run (state r) (current_player r) (move_count r)
      (moves_history prev ++ moves_history r)
      (states_history prev ++ states_history r)
      (move_times prev ++ move_times r)
      (agent_states r) (rng r) (ticks r + ticks prev)
      (events prev ++ events r).

End match_again.
End MatchAgain.

(** ** The hook calls of a match

    [feedback_per_turn]: the call of index [i] is the [move_feedback] to the
    player of turn [i]; an accepted move comes with the empty message, a
    rejected one with a message that is not empty. *)
Definition feedback_per_turn {Move : Type} (players : Z)
    (calls : list (MatchRunner.event Move)) : Prop :=
  ∀ (i : nat) (e : MatchRunner.event Move),
    calls !! i = Some e →
    ∃ mv ok message,
      e = MatchRunner.MoveFeedback (Z.of_nat i mod players) mv ok message
      ∧ (ok = true → message = EmptyString ∧ is_Some mv)
      ∧ (ok = false → message ≠ EmptyString).

(** [game_start] to every agent in the order of the seats, then one
    [move_feedback] per turn, then [game_end] with the winner to every agent
    in the order of the seats. *)
Definition hooks_in_order {Move : Type} (seats : nat) (players turns : Z)
    (winner : option Z) (calls : list (MatchRunner.event Move)) : Prop :=
  ∃ feedback,
    calls = map (λ i : nat, MatchRunner.GameStart (Z.of_nat i)) (seq 0 seats)
            ++ feedback
            ++ map (λ i : nat, MatchRunner.GameEnd (Z.of_nat i) winner)
                   (seq 0 seats)
    ∧ length feedback = Z.to_nat turns
    ∧ feedback_per_turn players feedback.
(** * Properties *)

(** ** Array indexing *)

Lemma np_index_in_range (n : nat) (i : Z) :
  0 ≤ i < Z.of_nat n → np_index n i = Ok (Z.to_nat i).
Proof.
  intros H. unfold np_index.
  destruct (Z.leb_spec 0 i); [|lia].
  destruct (Z.ltb_spec i (Z.of_nat n)); [|lia]. reflexivity.
Qed.

Lemma np_index_lt (n : nat) (i : Z) (k : nat) :
  np_index n i = Ok k → (k < n)%nat.
Proof.
  unfold np_index.
  destruct (Z.leb_spec 0 i), (Z.ltb_spec i (Z.of_nat n)); simpl;
    try (intros [= <-]; lia);
    destruct (Z.leb_spec (- Z.of_nat n) i), (Z.ltb_spec i 0); simpl;
    try discriminate; intros [= <-]; lia.
Qed.

Lemma np_item_lookup {A} (l : list A) (i : Z) (x : A) :
  0 ≤ i → l !! Z.to_nat i = Some x → np_item l i = Ok x.
Proof.
  intros Hi Hx. unfold np_item.
  rewrite np_index_in_range by (apply lookup_lt_Some in Hx; lia).
  simpl. by rewrite Hx.
Qed.

(** A read that succeeds at a non-negative index is a plain lookup. *)
Lemma np_item_Ok_nonneg {A} (l : list A) (i : Z) (x : A) :
  0 ≤ i → np_item l i = Ok x → l !! Z.to_nat i = Some x ∧ i < Z.of_nat (length l).
Proof.
  intros Hi. unfold np_item, np_index.
  destruct (Z.leb_spec 0 i); [|lia].
  destruct (Z.ltb_spec i (Z.of_nat (length l))); simpl.
  - destruct (l !! Z.to_nat i) eqn:E; [|discriminate]. intros [= <-]. done.
  - destruct (Z.ltb_spec i 0); [lia|]. rewrite andb_false_r. discriminate.
Qed.

Lemma cell_nonneg (a : ndarray) (r c : Z) :
  0 ≤ r → 0 ≤ c → cell a r c = (row ← a !! Z.to_nat r; row !! Z.to_nat c).
Proof.
  intros Hr Hc. unfold cell.
  destruct (Z.leb_spec 0 r); [|lia]. by destruct (Z.leb_spec 0 c); [|lia].
Qed.

Lemma cell_Some_nonneg (a : ndarray) (r c v : Z) :
  cell a r c = Some v → 0 ≤ r ∧ 0 ≤ c.
Proof.
  unfold cell.
  destruct (Z.leb_spec 0 r), (Z.leb_spec 0 c); try discriminate. done.
Qed.

Lemma np_get_cell (a : ndarray) (r c v : Z) :
  0 ≤ r → 0 ≤ c → np_get a r c = Ok v ↔ cell a r c = Some v.
Proof.
  intros Hr Hc. rewrite cell_nonneg by done. unfold np_get. split.
  - destruct (np_item a r) as [row|] eqn:E; [|discriminate].
    apply np_item_Ok_nonneg in E as [E _]; [|done]. rewrite E.
    intros H. apply np_item_Ok_nonneg in H as [H _]; [|done]. exact H.
  - destruct (a !! Z.to_nat r) as [row|] eqn:E; [|discriminate].
    intros H. rewrite (np_item_lookup a r row) by done.
    by apply np_item_lookup.
Qed.

Lemma has_shape_row (rows cols : nat) (a : ndarray) (i : nat) :
  has_shape rows cols a → (i < rows)%nat →
  ∃ row, a !! i = Some row ∧ length row = cols.
Proof.
  intros [Hlen Hall] Hi.
  destruct (lookup_lt_is_Some_2 a i) as [row Hrow]; [lia|].
  exists row. split; [done|].
  by apply (Forall_lookup_1 _ _ _ _ Hall Hrow).
Qed.

Lemma has_shape_cell (rows cols : nat) (a : ndarray) (r c : Z) :
  has_shape rows cols a → 0 ≤ r < Z.of_nat rows → 0 ≤ c < Z.of_nat cols →
  ∃ v, cell a r c = Some v.
Proof.
  intros Hs Hr Hc.
  destruct (has_shape_row rows cols a (Z.to_nat r) Hs) as (row & Hrow & Hlen);
    [lia|].
  destruct (lookup_lt_is_Some_2 row (Z.to_nat c)) as [v Hv]; [lia|].
  exists v. rewrite cell_nonneg by lia. by rewrite Hrow.
Qed.

Lemma cell_in_shape (rows cols : nat) (a : ndarray) (r c v : Z) :
  has_shape rows cols a → cell a r c = Some v →
  0 ≤ r < Z.of_nat rows ∧ 0 ≤ c < Z.of_nat cols.
Proof.
  intros [Hlen Hall] H.
  destruct (cell_Some_nonneg _ _ _ _ H) as [Hr Hc].
  rewrite cell_nonneg in H by done.
  destruct (a !! Z.to_nat r) as [row|] eqn:E; [|discriminate].
  apply lookup_lt_Some in H.
  pose proof (Forall_lookup_1 _ _ _ _ Hall E) as Hrow. simpl in Hrow.
  apply lookup_lt_Some in E. lia.
Qed.

Lemma np_zeros_shape (rows cols : nat) : has_shape rows cols (np_zeros rows cols).
Proof.
  split; [apply length_replicate|].
  apply Forall_replicate. apply length_replicate.
Qed.

Lemma np_zeros_cell (rows cols : nat) (r c v : Z) :
  cell (np_zeros rows cols) r c = Some v → v = 0.
Proof.
  intros H. destruct (cell_Some_nonneg _ _ _ _ H) as [Hr Hc].
  rewrite cell_nonneg in H by done. unfold np_zeros in H.
  destruct (replicate rows _ !! _) as [row|] eqn:E; [|discriminate].
  apply lookup_replicate in E as [-> _].
  by apply lookup_replicate in H as [-> _].
Qed.

(** ** The store: a fresh copy is the only array written *)

Lemma np_copy_run (h : heap) (l : loc) (a : ndarray) :
  h !! l = Some a → np_copy l h = (Ok (length h), h ++ [a]).
Proof. intros H. unfold np_copy. by rewrite H. Qed.

Lemma lookup_fresh (h : heap) (a : ndarray) : (h ++ [a]) !! length h = Some a.
Proof. by apply list_lookup_middle. Qed.

Lemma insert_fresh (h : heap) (a b : ndarray) :
  <[length h := b]> (h ++ [a]) = h ++ [b].
Proof.
  rewrite insert_app_r_alt by lia. by rewrite Nat.sub_diag.
Qed.

Lemma load_fresh (h : heap) (a : ndarray) (r c : Z) :
  load (length h) r c (h ++ [a]) = (np_get a r c, h ++ [a]).
Proof. unfold load. by rewrite lookup_fresh. Qed.

Lemma store_fresh (h : heap) (a : ndarray) (r c v : Z) :
  store (length h) r c v (h ++ [a]) =
  match np_set a r c v with
  | Ok a' => (Ok tt, h ++ [a'])
  | Raise e => (Raise e, h ++ [a])
  end.
Proof.
  unfold store. rewrite lookup_fresh.
  destruct (np_set a r c v); [|done]. by rewrite insert_fresh.
Qed.

Lemma copied_keeps (h : heap) (a : ndarray) (r : result ndarray) (l : loc)
    (x : ndarray) :
  h !! l = Some x → (copied h a r).2 !! l = Some x.
Proof.
  intros H. destruct r; simpl; by apply lookup_app_l_Some.
Qed.

Lemma copied_on_value (m : loc → M loc) (a : ndarray) (r : result ndarray) :
  m 0%nat [a] = copied [a] a r → on_value m a = r.
Proof. unfold on_value. intros ->. by destruct r. Qed.


(** ** Writes into an array *)

Lemma np_item_Ok_lookup {A} (l : list A) (i : Z) (x : A) :
  np_item l i = Ok x → ∃ k, np_index (length l) i = Ok k ∧ l !! k = Some x.
Proof.
  unfold np_item. destruct (np_index (length l) i) as [k|]; [|discriminate].
  simpl. destruct (l !! k) eqn:E; [|discriminate]. intros [= <-]. eauto.
Qed.

Lemma np_set_Ok_inv (a b : ndarray) (r c v : Z) :
  np_set a r c v = Ok b →
  ∃ i j row, a !! i = Some row ∧ (j < length row)%nat ∧ -128 ≤ v ≤ 127 ∧
             b = <[i := <[j := v]> row]> a.
Proof.
  unfold np_set. destruct (np_index (length a) r) as [i|] eqn:Ei; [|discriminate].
  simpl. destruct (np_item a r) as [row|] eqn:Er; [|discriminate]. simpl.
  destruct (np_index (length row) c) as [j|] eqn:Ej; [|discriminate]. simpl.
  unfold int8. destruct (Z.leb_spec (-128) v), (Z.leb_spec v 127);
    simpl; try discriminate.
  intros [= <-]. apply np_item_Ok_lookup in Er as (k & Ek & Hrow).
  rewrite Ei in Ek. injection Ek as <-.
  exists i, j, row. split_and!; try done. by apply np_index_lt in Ej.
Qed.

(** A cell that can be read can be written with any int8 value. *)
Lemma np_set_readable (a : ndarray) (r c x v : Z) :
  np_get a r c = Ok x → -128 ≤ v ≤ 127 → ∃ b, np_set a r c v = Ok b.
Proof.
  unfold np_get, np_set. intros Hget Hv.
  destruct (np_item a r) as [row|] eqn:Er; [|discriminate]. simpl in Hget.
  destruct (np_item_Ok_lookup _ _ _ Er) as (i & -> & _). simpl.
  destruct (np_item_Ok_lookup _ _ _ Hget) as (j & -> & _). simpl.
  unfold int8. destruct (Z.leb_spec (-128) v), (Z.leb_spec v 127); try lia.
  simpl. eauto.
Qed.

Lemma np_set_valid (rows cols : nat) (a b : ndarray) (r c v : Z) :
  valid_board rows cols a → cell_ok v → np_set a r c v = Ok b →
  valid_board rows cols b.
Proof.
  intros [[Hlen Hrows] Hcells] Hv Hset.
  apply np_set_Ok_inv in Hset as (i & j & row & Hrow & Hj & _ & ->).
  split; [split|].
  - by rewrite length_insert.
  - apply Forall_insert; [done|]. rewrite length_insert.
    by apply (Forall_lookup_1 _ _ _ _ Hrows Hrow).
  - apply Forall_insert; [done|]. apply Forall_insert; [|done].
    by apply (Forall_lookup_1 _ _ _ _ Hcells Hrow).
Qed.

Lemma np_zeros_valid (rows cols : nat) : valid_board rows cols (np_zeros rows cols).
Proof.
  split; [apply np_zeros_shape|].
  apply Forall_replicate, Forall_replicate. by left.
Qed.

(** ** Comprehensions and loops *)

Lemma filter_res_elem {A} (p : A → result bool) (l xs : list A) (x : A) :
  filter_res p l = Ok xs → x ∈ xs ↔ x ∈ l ∧ p x = Ok true.
Proof.
  revert xs. induction l as [|y l IH]; intros xs; cbn [filter_res].
  - intros [= <-]. split; [inversion 1|intros [H _]; inversion H].
  - destruct (p y) as [b|] eqn:Ey; [|discriminate]. simpl.
    destruct (filter_res p l) as [ys|]; [|discriminate]. simpl.
    intros [= <-]. specialize (IH ys eq_refl).
    destruct b; [rewrite elem_of_cons|]; rewrite IH, elem_of_cons.
    + split; [intros [->|[? ?]]; auto|intros [[->|?] ?]; auto].
    + split; [intros [? ?]; auto|intros [[->|?] ?]; [congruence|auto]].
Qed.

Lemma filter_res_all_ok {A} (p : A → result bool) (l xs : list A) (x : A) :
  filter_res p l = Ok xs → x ∈ l → ∃ b, p x = Ok b.
Proof.
  revert xs. induction l as [|y l IH]; intros xs; cbn [filter_res].
  - intros _ H. inversion H.
  - destruct (p y) as [b|] eqn:Ey; [|discriminate]. simpl.
    destruct (filter_res p l) as [ys|]; [|discriminate]. simpl.
    intros _ [->|H]%elem_of_cons; eauto.
Qed.

Lemma filter_res_total {A} (p : A → result bool) (l : list A) :
  (∀ x, x ∈ l → ∃ b, p x = Ok b) → ∃ xs, filter_res p l = Ok xs.
Proof.
  induction l as [|y l IH]; intros H; cbn [filter_res]; [eauto|].
  destruct (H y) as [b ->]; [by left|]. simpl.
  destruct IH as [xs ->]; [intros x Hx; apply H; by right|]. simpl. eauto.
Qed.

Lemma elem_of_range (n i : Z) : i ∈ range n ↔ 0 ≤ i < n.
Proof. unfold range. rewrite elem_of_seqZ. lia. Qed.

Lemma elem_of_range2 (a b i : Z) : i ∈ range2 a b ↔ a ≤ i < b.
Proof. unfold range2. rewrite elem_of_seqZ. lia. Qed.

Lemma elem_of_grid (n m r c : Z) :
  (r, c) ∈ (r' ← range n; c' ← range m; [(r', c')]) ↔ 0 ≤ r < n ∧ 0 ≤ c < m.
Proof.
  rewrite list_elem_of_bind. split.
  - intros (r' & Hc & Hr). apply list_elem_of_bind in Hc as (c' & Hin & Hc).
    apply list_elem_of_singleton in Hin as [= -> ->].
    by rewrite <- !elem_of_range.
  - intros [Hr Hc]. exists r. split; [|by apply elem_of_range].
    apply list_elem_of_bind. exists c. split; [by left|by apply elem_of_range].
Qed.

(** ** Gomoku: legal moves and move application *)
Module GomokuFacts.
Import Gomoku.

Lemma gomoku_make_move_run (g : game) (h : heap) (l : loc) (a : ndarray)
    (mv : move) (player : Z) :
  h !! l = Some a →
  make_move g l mv player h = copied h a (place g a mv player).
Proof.
  intros Hl. destruct mv as [row col]. unfold make_move, place, sbind.
  rewrite (np_copy_run h l a Hl).
  destruct (negb _); [done|].
  rewrite load_fresh. destruct (np_get a row col) as [v|e]; [|done]. simpl.
  destruct (negb (v =? 0)); [done|].
  rewrite store_fresh. by destruct (np_set a row col (player + 1)).
Qed.

Lemma gomoku_apply_move_place (g : game) (a : ndarray) (mv : move) (player : Z) :
  apply_move g a mv player = place g a mv player.
Proof. apply copied_on_value. by apply gomoku_make_move_run. Qed.

(** No array of the caller's store is changed by [make_move], whether it
    returns or raises. *)
Lemma gomoku_make_move_keeps (g : game) (h : heap) (l l' : loc) (x : ndarray)
    (mv : move) (player : Z) :
  h !! l' = Some x → (make_move g l mv player h).2 !! l' = Some x.
Proof.
  intros Hx. destruct (h !! l) as [a|] eqn:Hl.
  - rewrite (gomoku_make_move_run g h l a) by done. by apply copied_keeps.
  - unfold make_move, sbind, np_copy. by rewrite Hl.
Qed.

Lemma gomoku_in_bounds_test (n row col : Z) :
  negb ((0 <=? row) && (row <? n) && ((0 <=? col) && (col <? n))) = false
  ↔ 0 ≤ row < n ∧ 0 ≤ col < n.
Proof.
  rewrite negb_false_iff, !andb_true_iff, !Z.leb_le, !Z.ltb_lt. lia.
Qed.

(** An out-of-bounds coordinate is refused. *)
Lemma gomoku_place_out_of_bounds (g : game) (a : ndarray) (row col player : Z) :
  ¬ (0 ≤ row < Z.of_nat (board_size g) ∧ 0 ≤ col < Z.of_nat (board_size g)) →
  place g a (row, col) player = Raise (ValueError (out_of_bounds_msg row col)).
Proof.
  intros H. unfold place.
  destruct (negb _) eqn:E; [done|]. by apply gomoku_in_bounds_test in E.
Qed.

(** An occupied cell is refused. *)
Lemma gomoku_place_occupied (g : game) (a : ndarray) (row col v player : Z) :
  cell a row col = Some v → v ≠ 0 →
  ∃ msg, place g a (row, col) player = Raise (ValueError msg).
Proof.
  intros Hc Hv. unfold place. destruct (negb _); [eauto|].
  destruct (cell_Some_nonneg _ _ _ _ Hc) as [Hr Hcol].
  apply np_get_cell in Hc; [|done..]. rewrite Hc. simpl.
  destruct (Z.eqb_spec v 0); [done|]. simpl. eauto.
Qed.

Lemma gomoku_legal_moves_elem (g : game) (a : ndarray) (player : Z)
    (moves : list move) (r c : Z) :
  get_legal_moves g a player = Ok moves →
  (r, c) ∈ moves ↔
  0 ≤ r < Z.of_nat (board_size g) ∧ 0 ≤ c < Z.of_nat (board_size g)
  ∧ cell a r c = Some 0.
Proof.
  unfold get_legal_moves. intros H.
  rewrite (filter_res_elem _ _ _ (r, c) H), elem_of_grid. split.
  - intros ([Hr Hc] & Hp). split_and!; try lia.
    destruct (np_get a r c) as [v|] eqn:Ev; [|discriminate].
    simpl in Hp. injection Hp as Hp. apply Z.eqb_eq in Hp as ->.
    apply np_get_cell in Ev; [done|lia..].
  - intros (Hr & Hc & Hcell). split; [done|].
    apply np_get_cell in Hcell; [|lia..]. by rewrite Hcell.
Qed.

(** The enumeration does not look at the player. *)
Lemma gomoku_legal_moves_player (g : game) (a : ndarray) (p q : Z) :
  get_legal_moves g a p = get_legal_moves g a q.
Proof. reflexivity. Qed.

Lemma gomoku_legal_moves_total (g : game) (a : ndarray) (player : Z) :
  has_shape (board_size g) (board_size g) a →
  ∃ moves, get_legal_moves g a player = Ok moves.
Proof.
  intros Hs. apply filter_res_total. intros [r c] [Hr Hc]%elem_of_grid.
  destruct (has_shape_cell _ _ a r c Hs Hr Hc) as [v Hv].
  apply np_get_cell in Hv; [|lia..]. rewrite Hv. simpl. eauto.
Qed.

(** A move of the enumeration can be applied. *)
Lemma gomoku_place_legal (g : game) (a : ndarray) (p q : Z) (moves : list move)
    (mv : move) :
  get_legal_moves g a p = Ok moves → mv ∈ moves → -128 ≤ q + 1 ≤ 127 →
  ∃ b, place g a mv q = Ok b.
Proof.
  intros Hm Hin Hq. destruct mv as [r c].
  apply (gomoku_legal_moves_elem g a p moves r c Hm) in Hin as (Hr & Hc & Hcell).
  unfold place. destruct (negb _) eqn:E.
  { apply not_false_iff_true in E. destruct E. by apply gomoku_in_bounds_test. }
  apply np_get_cell in Hcell; [|lia..]. rewrite Hcell. simpl.
  by apply (np_set_readable a r c 0).
Qed.

Lemma gomoku_place_valid (g : game) (a b : ndarray) (mv : move) (p : Z) :
  valid_board (board_size g) (board_size g) a → p = 0 ∨ p = 1 →
  place g a mv p = Ok b → valid_board (board_size g) (board_size g) b.
Proof.
  intros Ha Hp. destruct mv as [r c]. unfold place.
  destruct (negb _); [discriminate|].
  destruct (np_get a r c) as [v|]; [|discriminate]. simpl.
  destruct (negb _); [discriminate|].
  apply np_set_valid; [done|]. unfold cell_ok. lia.
Qed.

End GomokuFacts.

(** ** Connect4: legal moves and move application *)
Module Connect4Facts.
Import Connect4.

Lemma connect4_drop_piece_run (h : heap) (a : ndarray) (mv : move) (player : Z)
    (todo : list Z) :
  drop_piece (length h) mv player todo (h ++ [a]) =
  match fall a mv player todo with
  | Ok b => (Ok tt, h ++ [b])
  | Raise e => (Raise e, h ++ [a])
  end.
Proof.
  induction todo as [|row todo IH]; [done|].
  cbn [drop_piece fall]. unfold sbind. rewrite load_fresh.
  destruct (np_get a row mv) as [v|e]; [|done]. simpl.
  destruct (v =? 0); [|exact IH]. apply store_fresh.
Qed.

Lemma connect4_make_move_run (g : game) (h : heap) (l : loc) (a : ndarray)
    (mv : move) (player : Z) :
  h !! l = Some a →
  make_move g l mv player h = copied h a (place g a mv player).
Proof.
  intros Hl. unfold make_move, place, sbind.
  rewrite (np_copy_run h l a Hl), connect4_drop_piece_run.
  by destruct (fall a mv player _).
Qed.

Lemma connect4_apply_move_place (g : game) (a : ndarray) (mv : move) (player : Z) :
  apply_move g a mv player = place g a mv player.
Proof. apply copied_on_value. by apply connect4_make_move_run. Qed.

Lemma connect4_make_move_keeps (g : game) (h : heap) (l l' : loc) (x : ndarray)
    (mv : move) (player : Z) :
  h !! l' = Some x → (make_move g l mv player h).2 !! l' = Some x.
Proof.
  intros Hx. destruct (h !! l) as [a|] eqn:Hl.
  - rewrite (connect4_make_move_run g h l a) by done. by apply copied_keeps.
  - unfold make_move, sbind, np_copy. by rewrite Hl.
Qed.

Lemma connect4_legal_moves_elem (g : game) (a : ndarray) (player : Z)
    (moves : list move) (c : Z) :
  get_legal_moves g a player = Ok moves →
  c ∈ moves ↔ 0 ≤ c < Z.of_nat (cols g) ∧ cell a 0 c = Some 0.
Proof.
  unfold get_legal_moves. intros H.
  rewrite (filter_res_elem _ _ _ c H), elem_of_range. split.
  - intros (Hc & Hp). split; [done|].
    destruct (np_get a 0 c) as [v|] eqn:Ev; [|discriminate].
    simpl in Hp. injection Hp as Hp. apply Z.eqb_eq in Hp as ->.
    apply np_get_cell in Ev; [done|lia..].
  - intros (Hc & Hcell). split; [done|].
    apply np_get_cell in Hcell; [|lia..]. by rewrite Hcell.
Qed.

Lemma connect4_legal_moves_player (g : game) (a : ndarray) (p q : Z) :
  get_legal_moves g a p = get_legal_moves g a q.
Proof. reflexivity. Qed.

Lemma connect4_legal_moves_total (g : game) (a : ndarray) (player : Z) :
  has_shape (rows g) (cols g) a → (0 < rows g)%nat →
  ∃ moves, get_legal_moves g a player = Ok moves.
Proof.
  intros Hs Hrows. apply filter_res_total. intros c Hc%elem_of_range.
  destruct (has_shape_cell _ _ a 0 c Hs) as [v Hv]; [lia..|].
  apply np_get_cell in Hv; [|lia..]. rewrite Hv. simpl. eauto.
Qed.

(** On a board of the game's shape the gravity loop reads only cells of the
    board, so it cannot raise for a column of the board. *)
Lemma connect4_fall_total (a : ndarray) (mv q : Z) (todo : list Z) :
  (∀ row, row ∈ todo → ∃ v, np_get a row mv = Ok v) → -128 ≤ q + 1 ≤ 127 →
  ∃ b, fall a mv q todo = Ok b.
Proof.
  intros Hread Hq. induction todo as [|row todo IH]; cbn [fall]; [eauto|].
  destruct (Hread row) as [v Hv]; [by left|]. rewrite Hv. simpl.
  destruct (v =? 0).
  - by apply (np_set_readable a row mv v).
  - apply IH. intros r Hr. apply Hread. by right.
Qed.

Lemma connect4_place_in_range (g : game) (a : ndarray) (mv q : Z) :
  has_shape (rows g) (cols g) a → 0 ≤ mv < Z.of_nat (cols g) →
  -128 ≤ q + 1 ≤ 127 → ∃ b, place g a mv q = Ok b.
Proof.
  intros Hs Hmv Hq. apply connect4_fall_total; [|done].
  intros row Hrow. apply elem_of_reverse, elem_of_range in Hrow.
  destruct (has_shape_cell _ _ a row mv Hs) as [v Hv]; [lia..|].
  exists v. apply np_get_cell; [lia..|done].
Qed.

Lemma connect4_place_legal (g : game) (a : ndarray) (p q : Z) (moves : list move)
    (mv : move) :
  has_shape (rows g) (cols g) a →
  get_legal_moves g a p = Ok moves → mv ∈ moves → -128 ≤ q + 1 ≤ 127 →
  ∃ b, place g a mv q = Ok b.
Proof.
  intros Hs Hm Hin Hq.
  apply (connect4_legal_moves_elem g a p moves mv Hm) in Hin as [Hmv _].
  by apply connect4_place_in_range.
Qed.

Lemma connect4_fall_valid (rows cols : nat) (a b : ndarray) (mv p : Z) (todo : list Z) :
  valid_board rows cols a → p = 0 ∨ p = 1 →
  fall a mv p todo = Ok b → valid_board rows cols b.
Proof.
  intros Ha Hp. induction todo as [|row todo IH]; cbn [fall].
  - by intros [= <-].
  - destruct (np_get a row mv) as [v|]; [|discriminate]. simpl.
    destruct (v =? 0); [|done].
    apply np_set_valid; [done|]. unfold cell_ok. lia.
Qed.

Lemma connect4_place_valid (g : game) (a b : ndarray) (mv : move) (p : Z) :
  valid_board (rows g) (cols g) a → p = 0 ∨ p = 1 →
  place g a mv p = Ok b → valid_board (rows g) (cols g) b.
Proof. apply connect4_fall_valid. Qed.

End Connect4Facts.

(** ** Window checks of the win scan *)

Lemma any_res_spec {A} (p : A → result bool) (l : list A) (P : A → Prop) :
  (∀ x, x ∈ l → ∃ b, p x = Ok b ∧ (b = true ↔ P x)) →
  ∃ b, any_res p l = Ok b ∧ (b = true ↔ ∃ x, x ∈ l ∧ P x).
Proof.
  induction l as [|y l IH]; intros H; cbn [any_res].
  - exists false. split; [done|]. split; [done|].
    intros (x & Hx & _). inversion Hx.
  - destruct (H y) as (b & -> & Hb); [by left|]. simpl. destruct b.
    + exists true. split; [done|]. split; [|done].
      intros _. exists y. split; [by left|by apply Hb].
    + destruct IH as (b & -> & Hb'); [intros x Hx; apply H; by right|].
      exists b. split; [done|]. rewrite Hb'. split.
      * intros (x & Hx & HP). exists x. split; [by right|done].
      * intros (x & [->|Hx]%elem_of_cons & HP); [|eauto].
        apply Hb in HP. discriminate.
Qed.

Lemma all_eq_spec (mark : Z) (cells : list Z) :
  all_eq mark cells = true ↔ ∀ k v, cells !! k = Some v → v = mark.
Proof.
  unfold all_eq. rewrite forallb_forall. split.
  - intros H k v Hk. apply Z.eqb_eq, H, list_elem_of_In.
    by apply (list_elem_of_lookup_2 _ k).
  - intros H v Hv. apply list_elem_of_In, list_elem_of_lookup in Hv as [k Hk].
    apply Z.eqb_eq. by apply (H k).
Qed.

(** A comprehension of cell reads followed by [np.all(... == mark)]: when
    the [k]-th read returns the value that decides [Q k], the test decides
    [Q] on the whole window. *)
Lemma map_res_all_eq {A} (f : A → result Z) (l : list A) (Q : nat → Prop)
    (mark : Z) :
  (∀ k x, l !! k = Some x → ∃ v, f x = Ok v ∧ (v = mark ↔ Q k)) →
  ∃ cells, map_res f l = Ok cells
           ∧ (all_eq mark cells = true ↔ ∀ k, (k < length l)%nat → Q k).
Proof.
  revert Q. induction l as [|x l IH]; intros Q H; cbn [map_res].
  - exists []. split; [done|]. split; [|done]. simpl. lia.
  - destruct (H 0%nat x eq_refl) as (v & -> & Hv). simpl.
    destruct (IH (λ k, Q (S k))) as (cells & -> & Hcells).
    { intros k y Hk. by apply (H (S k)). }
    simpl. exists (v :: cells). split; [done|].
    unfold all_eq in *. cbn [forallb]. rewrite andb_true_iff, Hcells, Z.eqb_eq.
    split.
    + intros [Hv0 Hrest] [|k] Hk; [by apply Hv|]. apply Hrest. simpl in Hk. lia.
    + intros HQ. split; [apply Hv, HQ; simpl; lia|].
      intros k Hk. apply HQ. simpl. lia.
Qed.

Lemma lookup_range (w : Z) (k : nat) (x : Z) :
  range w !! k = Some x ↔ x = Z.of_nat k ∧ Z.of_nat k < w.
Proof. unfold range. rewrite lookup_seqZ. lia. Qed.

Lemma length_range (w : Z) : length (range w) = Z.to_nat w.
Proof. apply length_seqZ. Qed.

(** The check of the two diagonal scans, [np.all([... for i in range(w)])],
    for a comprehension [f] that reads the cells of the window from [(r, c)]
    along [(dr, dc)]. *)
Lemma check_cells (a : ndarray) (w mark r c dr dc : Z) (f : Z → result Z) :
  (∀ i, 0 ≤ i < w →
        ∃ v, cell a (r + i * dr) (c + i * dc) = Some v ∧ f i = Ok v) →
  ∃ b, (cells <- map_res f (range w) ;; Ok (all_eq mark cells)) = Ok b
       ∧ (b = true ↔ run_at a w mark r c (dr, dc)).
Proof.
  intros Hin.
  destruct (map_res_all_eq f (range w)
              (λ k, cell a (r + Z.of_nat k * dr) (c + Z.of_nat k * dc)
                    = Some mark) mark) as (cells & -> & Hcells).
  { intros k i [-> Hk]%lookup_range.
    destruct (Hin (Z.of_nat k)) as (v & Hv & Hf); [lia|].
    exists v. split; [done|]. rewrite Hv.
    split; [by intros ->|by intros [= ->]]. }
  simpl. eexists. split; [done|]. rewrite Hcells, length_range.
  unfold run_at. simpl. split.
  - intros H i Hi. specialize (H (Z.to_nat i)).
    rewrite Z2Nat.id in H by lia. apply H. lia.
  - intros H k Hk. apply H. lia.
Qed.

Lemma np_clip_in_range (n : nat) (i : Z) :
  0 ≤ i ≤ Z.of_nat n → np_clip n i = Z.to_nat i.
Proof.
  intros H. unfold np_clip. destruct (Z.ltb_spec i 0); [lia|]. f_equal. lia.
Qed.

Lemma np_slice_in_range {A} (l : list A) (lo w : Z) :
  0 ≤ lo → 0 ≤ w → lo + w ≤ Z.of_nat (length l) →
  np_slice l lo (lo + w) = take (Z.to_nat w) (drop (Z.to_nat lo) l).
Proof.
  intros Hlo Hw Hhi. unfold np_slice.
  rewrite !np_clip_in_range by lia. f_equal. lia.
Qed.

Lemma lookup_window {A} (l : list A) (lo w : Z) (k : nat) :
  0 ≤ lo → 0 ≤ w →
  take (Z.to_nat w) (drop (Z.to_nat lo) l) !! k =
  if decide (Z.of_nat k < w) then l !! Z.to_nat (lo + Z.of_nat k) else None.
Proof.
  intros Hlo Hw. case_decide.
  - rewrite lookup_take_lt by lia. rewrite lookup_drop. f_equal. lia.
  - apply lookup_take_ge. lia.
Qed.

(** The check of the row scan: [np.all(state[row, col:col+w] == mark)]. *)
Lemma check_row_slice (rows cols : nat) (a : ndarray) (w mark row col : Z) :
  has_shape rows cols a → 0 ≤ w →
  0 ≤ row < Z.of_nat rows → 0 ≤ col → col + w ≤ Z.of_nat cols →
  ∃ b, (r <- np_item a row ;; Ok (all_eq mark (np_slice r col (col + w))))
       = Ok b
       ∧ (b = true ↔ run_at a w mark row col (0, 1)).
Proof.
  intros Hs Hw Hrow Hcol Hfit.
  destruct (has_shape_row rows cols a (Z.to_nat row) Hs) as (r & Hr & Hlen);
    [lia|].
  rewrite (np_item_lookup a row r) by (done || lia). simpl.
  eexists. split; [done|].
  rewrite np_slice_in_range by lia. rewrite all_eq_spec. unfold run_at. simpl.
  split.
  - intros H i Hi. rewrite cell_nonneg by lia.
    replace (row + i * 0) with row by lia. rewrite Hr. simpl.
    destruct (lookup_lt_is_Some_2 r (Z.to_nat (col + i * 1))) as [v Hv];
      [lia|].
    rewrite Hv. f_equal. apply (H (Z.to_nat i)).
    rewrite lookup_window by lia. rewrite decide_True by lia.
    rewrite <- Hv. f_equal. lia.
  - intros H k v. rewrite lookup_window by lia. case_decide; [|done].
    intros Hk. specialize (H (Z.of_nat k)). rewrite cell_nonneg in H by lia.
    replace (row + Z.of_nat k * 0) with row in H by lia. rewrite Hr in H.
    simpl in H. replace (col + Z.of_nat k * 1) with (col + Z.of_nat k) in H
      by lia.
    rewrite Hk in H. injection H; [done|lia].
Qed.

(** The check of the column scan: [np.all(state[row:row+w, col] == mark)]. *)
Lemma check_col_slice (rows cols : nat) (a : ndarray) (w mark row col : Z) :
  has_shape rows cols a → 0 ≤ w →
  0 ≤ row → row + w ≤ Z.of_nat rows → 0 ≤ col < Z.of_nat cols →
  ∃ b, (cells <- map_res (λ r, np_item r col) (np_slice a row (row + w)) ;;
        Ok (all_eq mark cells)) = Ok b
       ∧ (b = true ↔ run_at a w mark row col (1, 0)).
Proof.
  intros Hs Hw Hrow Hfit Hcol.
  rewrite np_slice_in_range by (destruct Hs; lia).
  destruct (map_res_all_eq (λ r, np_item r col)
              (take (Z.to_nat w) (drop (Z.to_nat row) a))
              (λ k, cell a (row + Z.of_nat k) col = Some mark) mark)
    as (cells & -> & Hcells).
  { intros k r. rewrite lookup_window by lia. case_decide; [|done].
    intros Hr. pose proof Hr as Hlt. apply lookup_lt_Some in Hlt.
    destruct (has_shape_row rows cols a (Z.to_nat (row + Z.of_nat k)) Hs)
      as (r' & Hr' & Hlen); [destruct Hs; lia|].
    rewrite Hr in Hr'. injection Hr' as <-.
    destruct (lookup_lt_is_Some_2 r (Z.to_nat col)) as [v Hv]; [lia|].
    exists v. split; [apply np_item_lookup; [lia|done]|].
    rewrite cell_nonneg by lia. rewrite Hr. simpl. rewrite Hv.
    split; [by intros ->|by intros [= ->]]. }
  simpl. eexists. split; [done|]. rewrite Hcells.
  rewrite length_take, length_drop. unfold run_at. simpl.
  destruct Hs as [Hlen _]. split.
  - intros H i Hi. specialize (H (Z.to_nat i)).
    rewrite Z2Nat.id in H by lia.
    replace (row + i * 1) with (row + i) by lia.
    replace (col + i * 0) with col by lia. apply H. lia.
  - intros H k Hk. specialize (H (Z.of_nat k)).
    replace (row + Z.of_nat k * 1) with (row + Z.of_nat k) in H by lia.
    replace (col + Z.of_nat k * 0) with col in H by lia. apply H. lia.
Qed.

(** ** The win scan finds exactly the runs *)

(** Membership in a list given by its elements. *)
Ltac in_list :=
  repeat first [apply list_elem_of_here | apply list_elem_of_further].

Lemma scan2_spec (check : Z → Z → result bool) (outer inner : list Z)
    (P : Z → Z → Prop) :
  (∀ x y, x ∈ outer → y ∈ inner → ∃ b, check x y = Ok b ∧ (b = true ↔ P x y)) →
  ∃ b, any_res (λ x, any_res (λ y, check x y) inner) outer = Ok b
       ∧ (b = true ↔ ∃ x y, x ∈ outer ∧ y ∈ inner ∧ P x y).
Proof.
  intros H.
  destruct (any_res_spec (λ x, any_res (λ y, check x y) inner) outer
              (λ x, ∃ y, y ∈ inner ∧ P x y)) as (b & Hb & Hiff).
  { intros x Hx. apply any_res_spec. intros y Hy. by apply H. }
  exists b. split; [done|]. rewrite Hiff. split.
  - intros (x & Hx & y & Hy & HP). eauto.
  - intros (x & y & Hx & Hy & HP). eauto.
Qed.

Lemma check_diag_down (rows cols : nat) (a : ndarray) (w mark row col : Z) :
  has_shape rows cols a →
  0 ≤ row < Z.of_nat rows - w + 1 → 0 ≤ col < Z.of_nat cols - w + 1 →
  ∃ b, (cells <- map_res (λ i, np_get a (row + i) (col + i)) (range w) ;;
        Ok (all_eq mark cells)) = Ok b
       ∧ (b = true ↔ run_at a w mark row col (1, 1)).
Proof.
  intros Hs Hrow Hcol. apply check_cells. intros i Hi.
  replace (row + i * 1) with (row + i) by lia.
  replace (col + i * 1) with (col + i) by lia.
  destruct (has_shape_cell rows cols a (row + i) (col + i) Hs) as [v Hv];
    [lia..|].
  exists v. split; [done|]. apply np_get_cell; [lia..|done].
Qed.

Lemma check_diag_up (rows cols : nat) (a : ndarray) (w mark row col : Z) :
  has_shape rows cols a →
  w - 1 ≤ row < Z.of_nat rows → 0 ≤ col < Z.of_nat cols - w + 1 →
  ∃ b, (cells <- map_res (λ i, np_get a (row - i) (col + i)) (range w) ;;
        Ok (all_eq mark cells)) = Ok b
       ∧ (b = true ↔ run_at a w mark row col (-1, 1)).
Proof.
  intros Hs Hrow Hcol. apply check_cells. intros i Hi.
  replace (row + i * -1) with (row - i) by lia.
  replace (col + i * 1) with (col + i) by lia.
  destruct (has_shape_cell rows cols a (row - i) (col + i) Hs) as [v Hv];
    [lia..|].
  exists v. split; [done|]. apply np_get_cell; [lia..|done].
Qed.

Lemma scan2_dir (check : Z → Z → result bool) (outer inner : list Z)
    (P : Z → Z → Prop) (Q : Prop) :
  (∀ x y, x ∈ outer → y ∈ inner → ∃ b, check x y = Ok b ∧ (b = true ↔ P x y)) →
  ((∃ x y, x ∈ outer ∧ y ∈ inner ∧ P x y) ↔ Q) →
  ∃ b, any_res (λ x, any_res (λ y, check x y) inner) outer = Ok b
       ∧ (b = true ↔ Q).
Proof.
  intros H HQ. destruct (scan2_spec check outer inner P H) as (b & Hb & Hiff).
  exists b. split; [done|]. by rewrite Hiff.
Qed.

(** The four scans in sequence, as [scan] runs them. *)
Lemma scans_combine (rows cols : nat) (a : ndarray) (w mark : Z)
    (s1 s2 s3 s4 : result bool) :
  scans_dir rows cols a w mark (0, 1) s1 →
  scans_dir rows cols a w mark (1, 0) s2 →
  scans_dir rows cols a w mark (1, 1) s3 →
  scans_dir rows cols a w mark (-1, 1) s4 →
  ∃ b, any_res (λ s : result bool, s) [s1; s2; s3; s4] = Ok b
       ∧ (b = true ↔
          ∃ d r c, d ∈ directions
                   ∧ starts (Z.of_nat rows) (Z.of_nat cols) w d r c
                   ∧ run_at a w mark r c d).
Proof.
  intros (b1 & -> & H1) (b2 & -> & H2) (b3 & -> & H3) (b4 & -> & H4).
  exists (b1 || b2 || b3 || b4). split; [by destruct b1, b2, b3, b4|].
  rewrite !orb_true_iff, H1, H2, H3, H4. unfold directions. split.
  - intros [[[(r & c & H)|(r & c & H)]|(r & c & H)]|(r & c & H)];
      eexists _, r, c; (split; [|exact H]); in_list.
  - intros (d & r & c & Hd & H).
    apply elem_of_cons in Hd as [->|Hd]; [left; left; left; eauto|].
    apply elem_of_cons in Hd as [->|Hd]; [left; left; right; eauto|].
    apply elem_of_cons in Hd as [->|Hd]; [left; right; eauto|].
    apply list_elem_of_singleton in Hd as ->. right; eauto.
Qed.

Lemma any_res_dirs {G} (g : G) (a : ndarray) (mark : Z)
    (dirs : list (G → ndarray → Z → result bool)) :
  any_res (λ dir, dir g a mark) dirs
  = any_res (λ s : result bool, s) (map (λ dir, dir g a mark) dirs).
Proof.
  induction dirs as [|d dirs IH]; [done|]. cbn [any_res map].
  destruct (d g a mark) as [[]|]; simpl; [done|exact IH|done].
Qed.

(** On a board of the right shape, a run along one of the four directions
    starts at a cell the scan visits; for a window of no cell at all the
    first start of the descending-diagonal scan will do. *)
Lemma has_run_starts (rows cols : nat) (a : ndarray) (w mark : Z) :
  has_shape rows cols a → 0 ≤ w →
  has_run a w mark ↔
  ∃ d r c, d ∈ directions ∧ starts (Z.of_nat rows) (Z.of_nat cols) w d r c
           ∧ run_at a w mark r c d.
Proof.
  intros Hs Hw. split; [|intros (d & r & c & Hd & _ & H); by exists d, r, c].
  intros (d & r & c & Hd & Hrun).
  destruct (decide (w = 0)) as [->|Hw0].
  { exists (1, 1), 0, 0. split; [unfold directions; in_list|].
    split; [unfold starts; simpl; lia|]. intros i Hi. lia. }
  exists d, r, c. split; [done|]. split; [|done].
  pose proof (Hrun 0 ltac:(lia)) as H0.
  pose proof (Hrun (w - 1) ltac:(lia)) as H1.
  apply (cell_in_shape rows cols) in H0; [|done].
  apply (cell_in_shape rows cols) in H1; [|done].
  unfold directions in Hd. unfold starts.
  apply elem_of_cons in Hd as [->|Hd]; [simpl in *; lia|].
  apply elem_of_cons in Hd as [->|Hd]; [simpl in *; lia|].
  apply elem_of_cons in Hd as [->|Hd]; [simpl in *; lia|].
  apply list_elem_of_singleton in Hd as ->. simpl in *. lia.
Qed.

(** The loop over the two marks. *)
Lemma first_winner_marks (hit : Z → result bool) (P : Z → Prop) :
  (∀ mark, ∃ b, hit mark = Ok b ∧ (b = true ↔ P mark)) →
  ∃ b1 b2, (b1 = true ↔ P 1) ∧ (b2 = true ↔ P 2)
           ∧ first_winner hit (range2 1 3)
             = Ok (if b1 then Some 0 else if b2 then Some 1 else None).
Proof.
  intros H. destruct (H 1) as (b1 & Hb1 & H1). destruct (H 2) as (b2 & Hb2 & H2).
  exists b1, b2. split; [done|]. split; [done|].
  change (range2 1 3) with [1; 2]. cbn [first_winner]. rewrite Hb1. simpl.
  destruct b1; [done|]. rewrite Hb2. simpl. by destruct b2.
Qed.

Module GomokuScan.
Import Gomoku.

Section scan.
Context (g : game) (a : ndarray) (mark : Z).
Context (Hs : has_shape (board_size g) (board_size g) a).

Lemma gomoku_scan_rows_spec :
  scans_dir (board_size g) (board_size g) a (Z.of_nat (win_length g)) mark
            (0, 1) (scan_rows g a mark).
Proof.
  apply scan2_dir with (P := λ row col,
    run_at a (Z.of_nat (win_length g)) mark row col (0, 1)).
  - intros row col Hrow%elem_of_range Hcol%elem_of_range.
    apply (check_row_slice (board_size g) (board_size g)); (done || lia).
  - unfold starts. simpl. split.
    + intros (r & c & Hr%elem_of_range & Hc%elem_of_range & H). eauto.
    + intros (r & c & [Hr Hc] & H). exists r, c. by rewrite !elem_of_range.
Qed.

Lemma gomoku_scan_cols_spec :
  scans_dir (board_size g) (board_size g) a (Z.of_nat (win_length g)) mark
            (1, 0) (scan_cols g a mark).
Proof.
  apply scan2_dir with (P := λ col row,
    run_at a (Z.of_nat (win_length g)) mark row col (1, 0)).
  - intros col row Hcol%elem_of_range Hrow%elem_of_range.
    apply (check_col_slice (board_size g) (board_size g)); (done || lia).
  - unfold starts. simpl. split.
    + intros (c & r & Hc%elem_of_range & Hr%elem_of_range & H). eauto.
    + intros (r & c & [Hr Hc] & H). exists c, r. by rewrite !elem_of_range.
Qed.

Lemma gomoku_scan_diag_down_spec :
  scans_dir (board_size g) (board_size g) a (Z.of_nat (win_length g)) mark
            (1, 1) (scan_diag_down g a mark).
Proof.
  apply scan2_dir with (P := λ row col,
    run_at a (Z.of_nat (win_length g)) mark row col (1, 1)).
  - intros row col Hrow%elem_of_range Hcol%elem_of_range.
    by apply (check_diag_down (board_size g) (board_size g)).
  - unfold starts. simpl. split.
    + intros (r & c & Hr%elem_of_range & Hc%elem_of_range & H). eauto.
    + intros (r & c & [Hr Hc] & H). exists r, c. by rewrite !elem_of_range.
Qed.

Lemma gomoku_scan_diag_up_spec :
  scans_dir (board_size g) (board_size g) a (Z.of_nat (win_length g)) mark
            (-1, 1) (scan_diag_up g a mark).
Proof.
  apply scan2_dir with (P := λ row col,
    run_at a (Z.of_nat (win_length g)) mark row col (-1, 1)).
  - intros row col Hrow%elem_of_range2 Hcol%elem_of_range.
    by apply (check_diag_up (board_size g) (board_size g)).
  - unfold starts. simpl. split.
    + intros (r & c & Hr%elem_of_range2 & Hc%elem_of_range & H). eauto.
    + intros (r & c & [Hr Hc] & H). exists r, c.
      by rewrite elem_of_range2, elem_of_range.
Qed.

Lemma gomoku_scan_spec :
  ∃ b, scan g a mark = Ok b
       ∧ (b = true ↔ has_run a (Z.of_nat (win_length g)) mark).
Proof.
  destruct (scans_combine (board_size g) (board_size g) a
              (Z.of_nat (win_length g)) mark _ _ _ _
              gomoku_scan_rows_spec gomoku_scan_cols_spec gomoku_scan_diag_down_spec
              gomoku_scan_diag_up_spec) as (b & Hb & Hiff).
  exists b. split; [unfold scan; by rewrite any_res_dirs|].
  rewrite Hiff. symmetry. apply (has_run_starts _ _ _ _ _ Hs). lia.
Qed.

End scan.

Lemma gomoku_get_winner_spec (g : game) (a : ndarray) :
  has_shape (board_size g) (board_size g) a →
  ∃ b1 b2, (b1 = true ↔ has_run a (Z.of_nat (win_length g)) 1)
           ∧ (b2 = true ↔ has_run a (Z.of_nat (win_length g)) 2)
           ∧ get_winner g a
             = Ok (if b1 then Some 0 else if b2 then Some 1 else None).
Proof.
  intros Hs. apply first_winner_marks. intros mark. by apply gomoku_scan_spec.
Qed.

End GomokuScan.

Module Connect4Scan.
Import Connect4.

Section scan.
Context (g : game) (a : ndarray) (mark : Z).
Context (Hs : has_shape (rows g) (cols g) a).

Lemma connect4_scan_horizontal_spec :
  scans_dir (rows g) (cols g) a (Z.of_nat (win_length g)) mark
            (0, 1) (scan_horizontal g a mark).
Proof.
  apply scan2_dir with (P := λ row col,
    run_at a (Z.of_nat (win_length g)) mark row col (0, 1)).
  - intros row col Hrow%elem_of_range Hcol%elem_of_range.
    apply (check_row_slice (rows g) (cols g)); (done || lia).
  - unfold starts. simpl. split.
    + intros (r & c & Hr%elem_of_range & Hc%elem_of_range & H). eauto.
    + intros (r & c & [Hr Hc] & H). exists r, c. by rewrite !elem_of_range.
Qed.

Lemma connect4_scan_vertical_spec :
  scans_dir (rows g) (cols g) a (Z.of_nat (win_length g)) mark
            (1, 0) (scan_vertical g a mark).
Proof.
  apply scan2_dir with (P := λ row col,
    run_at a (Z.of_nat (win_length g)) mark row col (1, 0)).
  - intros row col Hrow%elem_of_range Hcol%elem_of_range.
    apply (check_col_slice (rows g) (cols g)); (done || lia).
  - unfold starts. simpl. split.
    + intros (r & c & Hr%elem_of_range & Hc%elem_of_range & H). eauto.
    + intros (r & c & [Hr Hc] & H). exists r, c. by rewrite !elem_of_range.
Qed.

Lemma connect4_scan_diag_down_spec :
  scans_dir (rows g) (cols g) a (Z.of_nat (win_length g)) mark
            (1, 1) (scan_diag_down g a mark).
Proof.
  apply scan2_dir with (P := λ row col,
    run_at a (Z.of_nat (win_length g)) mark row col (1, 1)).
  - intros row col Hrow%elem_of_range Hcol%elem_of_range.
    by apply (check_diag_down (rows g) (cols g)).
  - unfold starts. simpl. split.
    + intros (r & c & Hr%elem_of_range & Hc%elem_of_range & H). eauto.
    + intros (r & c & [Hr Hc] & H). exists r, c. by rewrite !elem_of_range.
Qed.

Lemma connect4_scan_diag_up_spec :
  scans_dir (rows g) (cols g) a (Z.of_nat (win_length g)) mark
            (-1, 1) (scan_diag_up g a mark).
Proof.
  apply scan2_dir with (P := λ row col,
    run_at a (Z.of_nat (win_length g)) mark row col (-1, 1)).
  - intros row col Hrow%elem_of_range2 Hcol%elem_of_range.
    by apply (check_diag_up (rows g) (cols g)).
  - unfold starts. simpl. split.
    + intros (r & c & Hr%elem_of_range2 & Hc%elem_of_range & H). eauto.
    + intros (r & c & [Hr Hc] & H). exists r, c.
      by rewrite elem_of_range2, elem_of_range.
Qed.

Lemma connect4_scan_spec :
  ∃ b, scan g a mark = Ok b
       ∧ (b = true ↔ has_run a (Z.of_nat (win_length g)) mark).
Proof.
  destruct (scans_combine (rows g) (cols g) a
              (Z.of_nat (win_length g)) mark _ _ _ _
              connect4_scan_horizontal_spec connect4_scan_vertical_spec connect4_scan_diag_down_spec
              connect4_scan_diag_up_spec) as (b & Hb & Hiff).
  exists b. split; [unfold scan; by rewrite any_res_dirs|].
  rewrite Hiff. symmetry. apply (has_run_starts _ _ _ _ _ Hs). lia.
Qed.

End scan.

Lemma connect4_get_winner_spec (g : game) (a : ndarray) :
  has_shape (rows g) (cols g) a →
  ∃ b1 b2, (b1 = true ↔ has_run a (Z.of_nat (win_length g)) 1)
           ∧ (b2 = true ↔ has_run a (Z.of_nat (win_length g)) 2)
           ∧ get_winner g a
             = Ok (if b1 then Some 0 else if b2 then Some 1 else None).
Proof.
  intros Hs. apply first_winner_marks. intros mark. by apply connect4_scan_spec.
Qed.

End Connect4Scan.

(** ** Move application: rejection, closure and the board invariant *)

(** Gomoku refuses an out-of-bounds coordinate and an occupied cell with a
    ValueError, and the array it was given is still in the store,
    unchanged. *)
Lemma gomoku_make_move_rejects (g : Gomoku.game) (h : heap) (l : loc)
    (a : ndarray) (row col player : Z) :
  h !! l = Some a →
  ¬ (0 ≤ row < Z.of_nat (Gomoku.board_size g)
     ∧ 0 ≤ col < Z.of_nat (Gomoku.board_size g))
  ∨ (∃ v, cell a row col = Some v ∧ v ≠ 0) →
  ∃ msg, Gomoku.make_move g l (row, col) player h
         = (Raise (ValueError msg), h ++ [a]).
Proof.
  intros Hl Hbad. rewrite (GomokuFacts.gomoku_make_move_run g h l a) by done.
  destruct Hbad as [Hout|(v & Hv & Hne)].
  - rewrite GomokuFacts.gomoku_place_out_of_bounds by done. simpl. eauto.
  - destruct (GomokuFacts.gomoku_place_occupied g a row col v player Hv Hne)
      as [msg ->]. simpl. eauto.
Qed.

(** Neither game writes into an array of the caller, on success as on
    failure. *)
Lemma make_move_never_mutates :
  (∀ (g : Gomoku.game) (h : heap) (l l' : loc) (x : ndarray)
     (mv : Gomoku.move) (player : Z),
      h !! l' = Some x → (Gomoku.make_move g l mv player h).2 !! l' = Some x)
  ∧ (∀ (g : Connect4.game) (h : heap) (l l' : loc) (x : ndarray)
       (mv : Connect4.move) (player : Z),
      h !! l' = Some x →
      (Connect4.make_move g l mv player h).2 !! l' = Some x).
Proof.
  split; intros.
  - by apply GomokuFacts.gomoku_make_move_keeps.
  - by apply Connect4Facts.connect4_make_move_keeps.
Qed.

(** C1 (the code departs from the claim).  The claim asks [make_move] to fail
    on a full Connect4 column and on an out-of-bounds column.  On the
    standard 6x7 game, with column 0 full, column 0 is not among the legal
    moves, and yet [make_move] for column 0 returns normally, with a copy
    equal to the input; column -1 is accepted too and drops the piece into
    the last column; only an index of 7 or more raises, and then an
    IndexError of the array access rather than the ValueError Gomoku uses
    for invalid moves. *)
Theorem C1_connect4_make_move_accepts_illegal :
  let g := Connect4.Game 6 7 4 in
  Connect4.get_legal_moves g column0_full 0 = Ok [1; 2; 3; 4; 5; 6]
  ∧ Connect4.make_move g 0%nat 0 0 [column0_full]
    = (Ok 1%nat, [column0_full; column0_full])
  ∧ Connect4.make_move g 0%nat (-1) 0 [Connect4.reset g]
    = (Ok 1%nat,
       [Connect4.reset g; <[5%nat := [0; 0; 0; 0; 0; 0; 1]]> (Connect4.reset g)])
  ∧ Connect4.make_move g 0%nat 7 0 [Connect4.reset g]
    = (Raise IndexError, [Connect4.reset g; Connect4.reset g]).
Proof. repeat split; vm_compute; reflexivity. Qed.

(** C5.  Legality closure: in both games a move taken from
    [get_legal_moves] is applied by [make_move] without raising, and the
    result is a new array, allocated next to the arrays already in the
    store.  The player is any integer whose mark [p + 1] fits the int8 cells,
    the players 0 and 1 among them; for Connect4 the state has the shape of
    the game's board. *)
Theorem C5_legality_closure :
  (∀ (g : Gomoku.game) (h : heap) (l : loc) (a : ndarray) (p : Z)
     (moves : list Gomoku.move) (mv : Gomoku.move),
      h !! l = Some a → -128 ≤ p + 1 ≤ 127 →
      Gomoku.get_legal_moves g a p = Ok moves → mv ∈ moves →
      ∃ b, Gomoku.make_move g l mv p h = (Ok (length h), h ++ [b]))
  ∧ (∀ (g : Connect4.game) (h : heap) (l : loc) (a : ndarray) (p : Z)
       (moves : list Connect4.move) (mv : Connect4.move),
      h !! l = Some a → -128 ≤ p + 1 ≤ 127 →
      has_shape (Connect4.rows g) (Connect4.cols g) a →
      Connect4.get_legal_moves g a p = Ok moves → mv ∈ moves →
      ∃ b, Connect4.make_move g l mv p h = (Ok (length h), h ++ [b])).
Proof.
  split.
  - intros g h l a p moves mv Hl Hp Hm Hin.
    destruct (GomokuFacts.gomoku_place_legal g a p p moves mv Hm Hin Hp) as [b Hb].
    exists b. rewrite (GomokuFacts.gomoku_make_move_run g h l a) by done.
    by rewrite Hb.
  - intros g h l a p moves mv Hl Hp Hs Hm Hin.
    destruct (Connect4Facts.connect4_place_legal g a p p moves mv Hs Hm Hin Hp)
      as [b Hb].
    exists b. rewrite (Connect4Facts.connect4_make_move_run g h l a) by done.
    by rewrite Hb.
Qed.

Lemma C5_legality_closure_witness :
  (∃ b, Gomoku.make_move (Gomoku.Game 5 3) 0%nat (2, 3) 0 [np_zeros 5 5]
        = (Ok 1%nat, [np_zeros 5 5] ++ [b]))
  ∧ (∃ b, Connect4.make_move (Connect4.Game 6 7 4) 0%nat 1 1 [column0_full]
          = (Ok 1%nat, [column0_full] ++ [b])).
Proof.
  split.
  - eapply (proj1 C5_legality_closure (Gomoku.Game 5 3) [np_zeros 5 5] 0%nat
              (np_zeros 5 5) 0 _ (2, 3)).
    + reflexivity.
    + lia.
    + vm_compute. reflexivity.
    + apply list_elem_of_In. vm_compute. tauto.
  - eapply (proj2 C5_legality_closure (Connect4.Game 6 7 4) [column0_full]
              0%nat column0_full 1 _ 1).
    + reflexivity.
    + lia.
    + split; [reflexivity|]. repeat constructor.
    + vm_compute. reflexivity.
    + apply list_elem_of_In. vm_compute. tauto.
Defined.

(** C9.  Board-domain invariant: every state reachable from [reset] by
    successful [make_move] calls for the players 0 and 1 has the dimensions
    fixed at construction and only cells 0, 1 and 2, in both games. *)
Theorem C9_board_domain_invariant :
  (∀ (g : Gomoku.game) (a : ndarray),
      Gomoku.reachable g a →
      valid_board (Gomoku.board_size g) (Gomoku.board_size g) a)
  ∧ (∀ (g : Connect4.game) (a : ndarray),
      Connect4.reachable g a →
      valid_board (Connect4.rows g) (Connect4.cols g) a).
Proof.
  split; intros g a Hreach.
  - induction Hreach as [|a b mv p _ IH Hp Hmv]; [apply np_zeros_valid|].
    rewrite GomokuFacts.gomoku_apply_move_place in Hmv.
    by apply (GomokuFacts.gomoku_place_valid g a b mv p).
  - induction Hreach as [|a b mv p _ IH Hp Hmv]; [apply np_zeros_valid|].
    rewrite Connect4Facts.connect4_apply_move_place in Hmv.
    by apply (Connect4Facts.connect4_place_valid g a b mv p).
Qed.

Lemma C9_board_domain_invariant_witness :
  valid_board 5 5 [[0; 0; 0; 0; 0]; [0; 2; 0; 0; 0]; [0; 0; 0; 1; 0];
                    [0; 0; 0; 0; 0]; [0; 0; 0; 0; 0]]
  ∧ valid_board 6 7 (<[5%nat := [0; 0; 0; 1; 0; 0; 0]]> (np_zeros 6 7)).
Proof.
  split.
  - apply (proj1 C9_board_domain_invariant (Gomoku.Game 5 3)).
    apply (Gomoku.reach_move _
             [[0; 0; 0; 0; 0]; [0; 0; 0; 0; 0]; [0; 0; 0; 1; 0];
              [0; 0; 0; 0; 0]; [0; 0; 0; 0; 0]] _ (1, 1) 1);
      [|by right|vm_compute; reflexivity].
    apply (Gomoku.reach_move _ (Gomoku.reset (Gomoku.Game 5 3)) _ (2, 3) 0);
      [|by left|vm_compute; reflexivity].
    apply Gomoku.reach_reset.
  - apply (proj2 C9_board_domain_invariant (Connect4.Game 6 7 4)).
    apply (Connect4.reach_move _ (Connect4.reset (Connect4.Game 6 7 4)) _ 3 0);
      [|by left|vm_compute; reflexivity].
    apply Connect4.reach_reset.
Defined.

(** ** Winner and terminal detection *)



Lemma shape_5x5 (a b c d e : list Z) :
  length a = 5%nat → length b = 5%nat → length c = 5%nat → length d = 5%nat →
  length e = 5%nat → has_shape 5 5 [a; b; c; d; e].
Proof. intros. split; [done|]. by repeat constructor. Qed.


(** The win-scan checks of the specification. *)
Example win_scan_examples :
  Gomoku.get_winner (Gomoku.Game 5 3) horizontal_win_board_5x5 = Ok (Some 0)
  ∧ Gomoku.get_winner (Gomoku.Game 5 3) vertical_win_board_5x5 = Ok (Some 1)
  ∧ Gomoku.get_winner (Gomoku.Game 5 3) diagonal_win_board_5x5 = Ok (Some 0)
  ∧ Gomoku.get_winner (Gomoku.Game 4 3) drawn_board_4x4 = Ok None
  ∧ Gomoku.is_terminal (Gomoku.Game 4 3) drawn_board_4x4 = Ok true.
Proof. repeat split; vm_compute; reflexivity. Qed.

Lemma no_run_on_zeros (rows cols : nat) (w mark : Z) :
  0 < w → mark ≠ 0 → ¬ has_run (np_zeros rows cols) w mark.
Proof.
  intros Hw Hmark (d & r & c & _ & Hrun).
  specialize (Hrun 0 ltac:(lia)). by apply np_zeros_cell in Hrun.
Qed.

Lemma nil_no_elem {A} (l : list A) : (∀ x, x ∉ l) → l = [].
Proof. destruct l as [|x l]; [done|]. intros H. destruct (H x). by left. Qed.

(** [is_terminal] from its two ingredients. *)
Lemma is_terminal_from {Move} (win : result (option Z))
    (legal : result (list Move)) (w : option Z) (moves : list Move) :
  win = Ok w → legal = Ok moves →
  terminal_spec
    (w' <- win ;;
     match w' with
     | Some _ => Ok true
     | None => ms <- legal ;; Ok (Nat.eqb (length ms) 0)
     end) win legal.
Proof.
  intros -> ->. simpl. destruct w as [p|].
  - exists true, (Some p), moves. split_and!; try done.
    split; [by left; eexists|done].
  - exists (Nat.eqb (length moves) 0), None, moves. split_and!; try done.
    rewrite Nat.eqb_eq. split.
    + intros H. right. by apply nil_length_inv.
    + intros [[? [=]]| ->]. done.
Qed.

(** C4.  On a board of the game's dimensions (with at least one row for
    Connect4, whose legality test reads row 0), [is_terminal] returns true
    exactly when [get_winner] names a player or [get_legal_moves] for player
    0 is empty.  Hence, for a board with at least one cell and a positive
    [win_length], the empty board is not terminal and has no winner, and a
    board without empty cell and without run is terminal and has no
    winner. *)
Theorem C4_is_terminal_iff :
  (∀ (g : Gomoku.game),
      let n := Gomoku.board_size g in
      let w := Z.of_nat (Gomoku.win_length g) in
      (∀ a, has_shape n n a →
            terminal_spec (Gomoku.is_terminal g a) (Gomoku.get_winner g a)
                          (Gomoku.get_legal_moves g a 0))
      ∧ ((0 < n)%nat → 0 < w →
         Gomoku.is_terminal g (Gomoku.reset g) = Ok false
         ∧ Gomoku.get_winner g (Gomoku.reset g) = Ok None)
      ∧ (∀ a, has_shape n n a → full_board a →
              ¬ has_run a w 1 → ¬ has_run a w 2 →
              Gomoku.is_terminal g a = Ok true
              ∧ Gomoku.get_winner g a = Ok None))
  ∧ (∀ (g : Connect4.game),
       let w := Z.of_nat (Connect4.win_length g) in
       (0 < Connect4.rows g)%nat →
       (∀ a, has_shape (Connect4.rows g) (Connect4.cols g) a →
             terminal_spec (Connect4.is_terminal g a)
                           (Connect4.get_winner g a)
                           (Connect4.get_legal_moves g a 0))
       ∧ ((0 < Connect4.cols g)%nat → 0 < w →
          Connect4.is_terminal g (Connect4.reset g) = Ok false
          ∧ Connect4.get_winner g (Connect4.reset g) = Ok None)
       ∧ (∀ a, has_shape (Connect4.rows g) (Connect4.cols g) a →
               full_board a → ¬ has_run a w 1 → ¬ has_run a w 2 →
               Connect4.is_terminal g a = Ok true
               ∧ Connect4.get_winner g a = Ok None)).
Proof.
  split.
  - intros g n w. split_and!.
    + intros a Hs.
      destruct (GomokuScan.gomoku_get_winner_spec g a Hs) as (b1 & b2 & _ & _ & Hw).
      destruct (GomokuFacts.gomoku_legal_moves_total g a 0 Hs) as [moves Hm].
      by apply (is_terminal_from _ _ _ moves Hw).
    + intros Hn Hw.
      pose proof (np_zeros_shape n n) as Hs.
      destruct (GomokuScan.gomoku_get_winner_spec g _ Hs) as (b1 & b2 & H1 & H2 & Hwin).
      destruct b1; [by destruct (no_run_on_zeros n n w 1 Hw); [|apply H1]|].
      destruct b2; [by destruct (no_run_on_zeros n n w 2 Hw); [|apply H2]|].
      split; [|done]. unfold Gomoku.is_terminal.
      fold n in Hwin. unfold Gomoku.reset. fold n. rewrite Hwin. simpl.
      destruct (GomokuFacts.gomoku_legal_moves_total g _ 0 Hs) as [moves Hm].
      fold n in Hm. rewrite Hm. simpl.
      assert ((0, 0) ∈ moves) as Hin.
      { apply (GomokuFacts.gomoku_legal_moves_elem g _ 0 moves 0 0 Hm).
        fold n. split_and!; try lia.
        destruct (has_shape_cell n n _ 0 0 Hs) as [v Hv]; [lia..|].
        rewrite Hv. f_equal. by apply np_zeros_cell in Hv. }
      destruct moves; [inversion Hin|done].
    + intros a Hs Hfull Hn1 Hn2.
      destruct (GomokuScan.gomoku_get_winner_spec g a Hs) as (b1 & b2 & H1 & H2 & Hwin).
      destruct b1; [destruct Hn1; by apply H1|].
      destruct b2; [destruct Hn2; by apply H2|].
      split; [|done]. unfold Gomoku.is_terminal. rewrite Hwin. simpl.
      destruct (GomokuFacts.gomoku_legal_moves_total g a 0 Hs) as [moves Hm].
      rewrite Hm. simpl. rewrite (nil_no_elem moves); [done|].
      intros [r c] Hin.
      apply (GomokuFacts.gomoku_legal_moves_elem g a 0 moves r c Hm) in Hin
        as (_ & _ & Hcell).
      by apply Hfull in Hcell.
  - intros g w Hrows. split_and!.
    + intros a Hs.
      destruct (Connect4Scan.connect4_get_winner_spec g a Hs) as (b1 & b2 & _ & _ & Hw).
      destruct (Connect4Facts.connect4_legal_moves_total g a 0 Hs Hrows) as [moves Hm].
      by apply (is_terminal_from _ _ _ moves Hw).
    + intros Hcols Hw.
      pose proof (np_zeros_shape (Connect4.rows g) (Connect4.cols g)) as Hs.
      destruct (Connect4Scan.connect4_get_winner_spec g _ Hs)
        as (b1 & b2 & H1 & H2 & Hwin).
      destruct b1; [by destruct (no_run_on_zeros (Connect4.rows g)
                                   (Connect4.cols g) w 1 Hw); [|apply H1]|].
      destruct b2; [by destruct (no_run_on_zeros (Connect4.rows g)
                                   (Connect4.cols g) w 2 Hw); [|apply H2]|].
      split; [|done]. unfold Connect4.is_terminal, Connect4.reset.
      rewrite Hwin. simpl.
      destruct (Connect4Facts.connect4_legal_moves_total g _ 0 Hs Hrows) as [moves Hm].
      rewrite Hm. simpl.
      assert (0 ∈ moves) as Hin.
      { apply (Connect4Facts.connect4_legal_moves_elem g _ 0 moves 0 Hm).
        split; [lia|].
        destruct (has_shape_cell _ _ _ 0 0 Hs) as [v Hv]; [lia..|].
        rewrite Hv. f_equal. by apply np_zeros_cell in Hv. }
      destruct moves; [inversion Hin|done].
    + intros a Hs Hfull Hn1 Hn2.
      destruct (Connect4Scan.connect4_get_winner_spec g a Hs)
        as (b1 & b2 & H1 & H2 & Hwin).
      destruct b1; [destruct Hn1; by apply H1|].
      destruct b2; [destruct Hn2; by apply H2|].
      split; [|done]. unfold Connect4.is_terminal. rewrite Hwin. simpl.
      destruct (Connect4Facts.connect4_legal_moves_total g a 0 Hs Hrows) as [moves Hm].
      rewrite Hm. simpl. rewrite (nil_no_elem moves); [done|].
      intros c Hin.
      apply (Connect4Facts.connect4_legal_moves_elem g a 0 moves c Hm) in Hin
        as (_ & Hcell).
      by apply Hfull in Hcell.
Qed.

Lemma full_board_check (a : ndarray) :
  forallb (forallb (λ v, negb (v =? 0))) a = true → full_board a.
Proof.
  intros H r c v Hcell.
  destruct (cell_Some_nonneg _ _ _ _ Hcell) as [Hr Hc].
  rewrite cell_nonneg in Hcell by done.
  destruct (a !! Z.to_nat r) as [row|] eqn:Hrow; [|discriminate].
  simpl in Hcell. rewrite forallb_forall in H.
  apply list_elem_of_lookup_2, list_elem_of_In, H in Hrow.
  rewrite forallb_forall in Hrow.
  apply list_elem_of_lookup_2, list_elem_of_In, Hrow in Hcell.
  apply negb_true_iff, Z.eqb_neq in Hcell. done.
Qed.

Lemma drawn_board_4x4_shape : has_shape 4 4 drawn_board_4x4.
Proof. split; [done|]. by repeat constructor. Qed.

Lemma drawn_board_4x4_no_run (mark : Z) :
  mark = 1 ∨ mark = 2 → ¬ has_run drawn_board_4x4 3 mark.
Proof.
  destruct (GomokuScan.gomoku_get_winner_spec (Gomoku.Game 4 3) drawn_board_4x4
              drawn_board_4x4_shape) as (b1 & b2 & H1 & H2 & Hwin).
  change (Gomoku.get_winner _ _) with (@Ok (option Z) None) in Hwin.
  destruct b1; [discriminate|]. destruct b2; [discriminate|].
  intros [-> | ->] H; [apply H1 in H|apply H2 in H]; discriminate.
Qed.

Lemma C4_is_terminal_iff_witness :
  (terminal_spec (Gomoku.is_terminal (Gomoku.Game 4 3) drawn_board_4x4)
                 (Gomoku.get_winner (Gomoku.Game 4 3) drawn_board_4x4)
                 (Gomoku.get_legal_moves (Gomoku.Game 4 3) drawn_board_4x4 0)
   ∧ (Gomoku.is_terminal (Gomoku.Game 4 3) (Gomoku.reset (Gomoku.Game 4 3))
      = Ok false
      ∧ Gomoku.get_winner (Gomoku.Game 4 3) (Gomoku.reset (Gomoku.Game 4 3))
        = Ok None)
   ∧ (Gomoku.is_terminal (Gomoku.Game 4 3) drawn_board_4x4 = Ok true
      ∧ Gomoku.get_winner (Gomoku.Game 4 3) drawn_board_4x4 = Ok None))
  ∧ (terminal_spec
       (Connect4.is_terminal (Connect4.Game 4 4 3) drawn_board_4x4)
       (Connect4.get_winner (Connect4.Game 4 4 3) drawn_board_4x4)
       (Connect4.get_legal_moves (Connect4.Game 4 4 3) drawn_board_4x4 0)
     ∧ (Connect4.is_terminal (Connect4.Game 4 4 3)
          (Connect4.reset (Connect4.Game 4 4 3)) = Ok false
        ∧ Connect4.get_winner (Connect4.Game 4 4 3)
            (Connect4.reset (Connect4.Game 4 4 3)) = Ok None)
     ∧ (Connect4.is_terminal (Connect4.Game 4 4 3) drawn_board_4x4 = Ok true
        ∧ Connect4.get_winner (Connect4.Game 4 4 3) drawn_board_4x4
          = Ok None)).
Proof.
  split.
  - destruct (proj1 C4_is_terminal_iff (Gomoku.Game 4 3)) as (H1 & H2 & H3).
    split; [|split].
    + apply H1, drawn_board_4x4_shape.
    + apply H2; simpl; lia.
    + apply H3; [apply drawn_board_4x4_shape|by apply full_board_check
                 |apply drawn_board_4x4_no_run; by left
                 |apply drawn_board_4x4_no_run; by right].
  - destruct (proj2 C4_is_terminal_iff (Connect4.Game 4 4 3)) as (H1 & H2 & H3);
      [simpl; lia|].
    split; [|split].
    + apply H1, drawn_board_4x4_shape.
    + apply H2; simpl; lia.
    + apply H3; [apply drawn_board_4x4_shape|by apply full_board_check
                 |apply drawn_board_4x4_no_run; by left
                 |apply drawn_board_4x4_no_run; by right].
Defined.

(** ** Move text *)

Lemma str_all_impl (p q : ascii → bool) (s : string) :
  (∀ c, p c = true → q c = true) → str_all p s = true → str_all q s = true.
Proof.
  intros Hpq. induction s as [|c s IH]; [done|]. cbn [str_all].
  rewrite !andb_true_iff. intros [Hc Hs]. auto.
Qed.

Lemma digits_of_uint (d : Decimal.uint) :
  str_all is_digit (NilEmpty.string_of_uint d) = true.
Proof. induction d; [done|..]; exact IHd. Qed.

Lemma parse_digits_of_uint (d : Decimal.uint) (acc : Z) (prev : bool) :
  d ≠ Decimal.Nil ∨ prev = true →
  parse_digits acc prev (NilEmpty.string_of_uint d) = Some (uint_value d acc).
Proof.
  revert acc prev.
  induction d as [|d IH|d IH|d IH|d IH|d IH|d IH|d IH|d IH|d IH|d IH];
    intros acc prev H;
    [destruct H as [H| ->]; [done|reflexivity]|..];
    cbn [NilEmpty.string_of_uint uint_value];
    change (parse_digits acc prev (String ?c ?s))
      with (parse_digits (10 * acc + digit_val c) true s);
    (rewrite IH by (by right)); do 2 f_equal;
    match goal with
    | |- context [digit_val ?c] =>
        let v := eval vm_compute in (digit_val c) in
        change (digit_val c) with v
    end; lia.
Qed.

Lemma uint_value_of_uint_acc (d : Decimal.uint) (acc : positive) :
  Z.pos (Pos.of_uint_acc d acc) = uint_value d (Z.pos acc).
Proof.
  revert acc. induction d; intros acc; cbn [Pos.of_uint_acc uint_value];
    [done|..]; rewrite IHd; f_equal; lia.
Qed.

Lemma uint_value_of_uint (d : Decimal.uint) :
  Z.of_N (Pos.of_uint d) = uint_value d 0.
Proof.
  induction d; cbn [Pos.of_uint uint_value]; [done|exact IHd|..];
    simpl Z.of_N; by rewrite uint_value_of_uint_acc.
Qed.

Lemma uint_value_to_uint (p : positive) :
  uint_value (Pos.to_uint p) 0 = Z.pos p.
Proof.
  by rewrite <- uint_value_of_uint, DecimalPos.Unsigned.of_to.
Qed.

Lemma lstrip_not_space (c : ascii) (s : string) :
  is_space c = false → lstrip (String c s) = String c s.
Proof. intros H. cbn [lstrip]. by rewrite H. Qed.

Lemma rstrip_no_space (s : string) :
  str_all (λ c, negb (is_space c)) s = true → rstrip s = s.
Proof.
  induction s as [|c s IH]; [done|]. cbn [str_all rstrip].
  rewrite andb_true_iff, negb_true_iff. intros [Hc Hs].
  rewrite (IH Hs), Hc. by destruct s.
Qed.

Lemma digit_not_space (c : ascii) : is_digit c = true → is_space c = false.
Proof.
  unfold is_digit, is_space. destruct (nat_of_ascii c) as [|n]; [done|].
  rewrite !andb_true_iff, !Nat.leb_le. intros [H1 H2].
  repeat (apply orb_false_intro); rewrite ?andb_false_iff, ?Nat.leb_gt,
    ?Nat.eqb_neq; lia.
Qed.

Lemma strip_digits (s : string) :
  str_all is_digit s = true → strip s = s.
Proof.
  intros H. unfold strip.
  assert (lstrip s = s) as ->.
  { destruct s as [|c s]; [done|]. apply lstrip_not_space, digit_not_space.
    cbn [str_all] in H. by apply andb_true_iff in H as [? _]. }
  apply rstrip_no_space. revert H. apply str_all_impl.
  intros c Hc. by rewrite (digit_not_space c Hc).
Qed.

(** [int] reads back the digits of a positive number. *)
Lemma int_of_str_digits (d : Decimal.uint) :
  d ≠ Decimal.Nil →
  int_of_str (NilEmpty.string_of_uint d) = Some (uint_value d 0).
Proof.
  intros Hd. unfold int_of_str. rewrite strip_digits by apply digits_of_uint.
  rewrite <- (parse_digits_of_uint d 0 false) by (by left).
  by destruct d.
Qed.

Lemma int_of_str_minus_digits (d : Decimal.uint) :
  d ≠ Decimal.Nil →
  int_of_str (String "-" (NilEmpty.string_of_uint d))
  = Some (- uint_value d 0).
Proof.
  intros Hd. unfold int_of_str, strip. rewrite lstrip_not_space by done.
  rewrite rstrip_no_space.
  - by rewrite parse_digits_of_uint by (by left).
  - cbn [str_all]. apply andb_true_iff. split; [done|].
    generalize (digits_of_uint d). apply str_all_impl.
    intros c Hc. by rewrite (digit_not_space c Hc).
Qed.

Lemma str_of_int_pos (p : positive) :
  str_of_int (Z.pos p) = NilEmpty.string_of_uint (Pos.to_uint p).
Proof.
  unfold str_of_int. simpl. unfold NilZero.string_of_uint.
  pose proof (DecimalPos.Unsigned.to_uint_nonnil p).
  by destruct (Pos.to_uint p).
Qed.

Lemma str_of_int_neg (p : positive) :
  str_of_int (Z.neg p) = String "-" (NilEmpty.string_of_uint (Pos.to_uint p)).
Proof.
  unfold str_of_int. simpl. unfold NilZero.string_of_uint.
  pose proof (DecimalPos.Unsigned.to_uint_nonnil p).
  by destruct (Pos.to_uint p).
Qed.

(** [int(str(n)) == n]. *)
Lemma int_of_str_of_int (z : Z) : int_of_str (str_of_int z) = Some z.
Proof.
  destruct z as [|p|p].
  - reflexivity.
  - rewrite str_of_int_pos, int_of_str_digits
      by apply DecimalPos.Unsigned.to_uint_nonnil.
    by rewrite uint_value_to_uint.
  - rewrite str_of_int_neg, int_of_str_minus_digits
      by apply DecimalPos.Unsigned.to_uint_nonnil.
    by rewrite uint_value_to_uint.
Qed.

(** The text of an integer is made of digits after an optional minus sign;
    it is not empty. *)

Lemma str_of_int_chars (z : Z) :
  str_all sign_or_digit (str_of_int z) = true
  ∧ ∃ c s, str_of_int z = String c s.
Proof.
  assert (∀ d, str_all sign_or_digit (NilEmpty.string_of_uint d) = true) as Hd.
  { intros d. generalize (digits_of_uint d). apply str_all_impl.
    intros c Hc. unfold sign_or_digit. by rewrite Hc. }
  destruct z as [|p|p].
  - split; [done|]. by eexists _, _.
  - rewrite str_of_int_pos. split; [done|].
    pose proof (DecimalPos.Unsigned.to_uint_nonnil p).
    destruct (Pos.to_uint p); try done; by eexists _, _.
  - rewrite str_of_int_neg. split; [|by eexists _, _].
    cbn [str_all]. by rewrite Hd.
Qed.

Lemma split_no_sep (sep : ascii) (s : string) :
  str_all (λ c, negb (Ascii.eqb c sep)) s = true → split sep s = [s].
Proof.
  induction s as [|c s IH]; [done|]. cbn [str_all split].
  rewrite andb_true_iff, negb_true_iff. intros [-> Hs]. by rewrite (IH Hs).
Qed.

Lemma split_append (sep : ascii) (s t : string) :
  str_all (λ c, negb (Ascii.eqb c sep)) s = true →
  split sep (s ++ String sep t) = s :: split sep t.
Proof.
  induction s as [|c s IH]; cbn [str_all split String.append].
  - intros _. by rewrite Ascii.eqb_refl.
  - rewrite andb_true_iff, negb_true_iff. intros [-> Hs]. by rewrite (IH Hs).
Qed.

Lemma sign_or_digit_not_comma (c : ascii) :
  sign_or_digit c = true → negb (Ascii.eqb c ",") = true.
Proof.
  unfold sign_or_digit, is_digit. intros H.
  destruct (Ascii.eqb_spec c ",") as [->|]; [|done]. discriminate.
Qed.

Lemma str_of_int_no_comma (z : Z) :
  str_all (λ c, negb (Ascii.eqb c ",")) (str_of_int z) = true.
Proof.
  destruct (str_of_int_chars z) as [H _]. revert H.
  apply str_all_impl, sign_or_digit_not_comma.
Qed.

Lemma not_column_prefix (c : ascii) (t : string) :
  sign_or_digit c = true →
  startswith "column " (String (lower_char c) t) = false.
Proof.
  intros H. destruct c as [[] [] [] [] [] [] [] []];
    try discriminate H; reflexivity.
Qed.

(** C6.  Move-text round trip.  Connect4 writes the text "Column n" and reads
    it back, and reads back the bare integer as well; Gomoku writes "r,c" and
    reads it back; and Gomoku's parser returns a move exactly for a text that
    splits at its commas into two parts that [int] accepts, and raises the
    ValueError of the format otherwise.  The round trip holds for every
    integer move, the legal ones among them. *)
Theorem C6_move_text_round_trip :
  (∀ m : Connect4.move,
      Connect4.move_to_string m = ("Column " ++ str_of_int m)%string
      ∧ Connect4.string_to_move (Connect4.move_to_string m) = Ok m
      ∧ Connect4.string_to_move (str_of_int m) = Ok m)
  ∧ (∀ r c : Z,
       Gomoku.move_to_string (r, c)
       = (str_of_int r ++ "," ++ str_of_int c)%string
       ∧ Gomoku.string_to_move (Gomoku.move_to_string (r, c)) = Ok (r, c))
  ∧ (∀ s : string,
       match Gomoku.string_to_move s with
       | Ok (r, c) =>
           ∃ p0 p1, split "," s = [p0; p1]
                    ∧ int_of_str p0 = Some r ∧ int_of_str p1 = Some c
       | Raise e =>
           e = ValueError (Gomoku.bad_format_msg s)
           ∧ ¬ ∃ p0 p1 r c, split "," s = [p0; p1]
                            ∧ int_of_str p0 = Some r ∧ int_of_str p1 = Some c
       end).
Proof.
  split_and!.
  - intros m. split; [done|]. split.
    + unfold Connect4.string_to_move, Connect4.move_to_string.
      change (startswith "column " (lower ("Column " ++ str_of_int m)))
        with true.
      change (str_from 7 ("Column " ++ str_of_int m)) with (str_of_int m).
      by rewrite int_of_str_of_int.
    + unfold Connect4.string_to_move.
      destruct (str_of_int_chars m) as [Hall (c & t & Heq)].
      rewrite Heq in Hall. cbn [str_all] in Hall.
      apply andb_true_iff in Hall as [Hc _].
      assert (startswith "column " (lower (str_of_int m)) = false) as ->.
      { rewrite Heq. cbn [lower]. by apply not_column_prefix. }
      by rewrite int_of_str_of_int.
  - intros r c. split; [done|].
    unfold Gomoku.string_to_move, Gomoku.move_to_string.
    change ("," ++ str_of_int c)%string with (String "," (str_of_int c)).
    rewrite split_append by apply str_of_int_no_comma.
    rewrite split_no_sep by apply str_of_int_no_comma.
    by rewrite !int_of_str_of_int.
  - intros s. unfold Gomoku.string_to_move.
    destruct (split "," s) as [|p0 [|p1 [|p2 ps]]] eqn:Hsplit;
      try (split; [done|]; intros (? & ? & ? & ? & [=] & _)).
    destruct (int_of_str p0) as [r|] eqn:H0, (int_of_str p1) as [c|] eqn:H1;
      try (split; [done|]; intros (? & ? & ? & ? & [= <- <-] & ? & ?);
           congruence).
    by exists p0, p1.
Qed.

(** ** The match runner *)
Module RunnerFacts.
Import MatchRunner.

Section runner_facts.
Context {G : generator} {State Move AState : Type} `{EqDecision Move}.
Context (clock : nat → Q) (game : Game State Move).
Context (agents : list (Agent G State Move AState)).

Local Abbreviation turn := (turn clock game agents).
Local Abbreviation turn_to := (turn_to clock game agents).
Local Abbreviation run_loop := (run_loop clock game agents).
Local Abbreviation run_match := (run_match clock game agents).

Lemma judge_accepts (legal_moves : list Move) (rep : reply Move)
    (mv : option Move) (message : string) :
  judge game legal_moves rep = (mv, true, message) →
  ∃ m, rep = Returned m ∧ m ∈ legal_moves ∧ mv = Some m
       ∧ message = EmptyString.
Proof.
  unfold judge. destruct rep as [m|msg]; [|discriminate].
  case_decide; [|discriminate]. intros [= <- <-]. eauto.
Qed.

Lemma choice_elem {A} (seq : list A) (s s' : gen_state G) (x : A) :
  choice seq s = (Ok x, s') → x ∈ seq.
Proof.
  unfold choice. destruct seq as [|y seq]; [discriminate|].
  destruct (gen_below G s (length (y :: seq))) as [i s''].
  destruct ((y :: seq) !! i) as [z|] eqn:Hz; [|discriminate].
  intros [= <- _]. by apply (list_elem_of_lookup_2 _ i).
Qed.

Lemma choice_total {A} (seq : list A) (s : gen_state G) :
  well_behaved G → seq ≠ [] → ∃ x s', choice seq s = (Ok x, s').
Proof.
  intros HG Hne. unfold choice. destruct seq as [|y seq]; [done|].
  specialize (HG s (length (y :: seq)) ltac:(simpl; lia)).
  destruct (gen_below G s (length (y :: seq))) as [i s''].
  destruct (lookup_lt_is_Some_2 (y :: seq) i HG) as [z ->]. eauto.
Qed.

(** Every run of the loop body is one of the three transitions. *)
Lemma turn_continue (max_moves : Z) (r r' : run) :
  turn max_moves r = Continue r' → turn_to max_moves r r'.
Proof.
  unfold MatchRunner.turn.
  destruct (is_terminal game (state r)) as [[]|] eqn:Hterm; try discriminate.
  destruct (Z.ltb_spec (move_count r) max_moves) as [Hlt|]; [|discriminate].
  cbn [negb].
  destruct (np_item agents (current_player r)) as [agent|] eqn:Hagent;
    [|discriminate].
  destruct (np_item (agent_states r) (current_player r)) as [ast|] eqn:Hast;
    [|discriminate].
  destruct (get_legal_moves game (state r) (current_player r))
    as [[|m0 legal]|] eqn:Hlegal; [| |discriminate].
  { destruct (next_player game r) as [next|] eqn:Hnext; [|discriminate].
    intros [= <-]. by eapply turn_pass. }
  destruct (agent_make_move agent ast (rng r) (state r) (m0 :: legal)
              (current_player r)) as [[rep ast'] rng'] eqn:Hrep.
  destruct (judge game (m0 :: legal) rep) as [[mv ok] message] eqn:Hjudge.
  destruct ok, mv as [m|].
  - apply judge_accepts in Hjudge as (m' & -> & Hin & [= <-] & ->).
    unfold accept. cbn [state current_player].
    destruct (make_move game (state r) m (current_player r))
      as [new_state|] eqn:Hmove; [|discriminate].
    unfold next_player. cbn [current_player].
    destruct (num_players game =? 0) eqn:Hn; [discriminate|].
    intros [= <-]. cbn [move_count moves_history states_history move_times
                          agent_states rng ticks events].
    eapply turn_accepted; try done. unfold next_player. by rewrite Hn.
  - by apply judge_accepts in Hjudge as (m' & _ & _ & [=] & _).
  - unfold recover. cbn [rng state current_player].
    destruct (choice (m0 :: legal) rng') as [[m'|] rng''] eqn:Hchoice;
      [|discriminate].
    destruct (make_move game (state r) m' (current_player r))
      as [new_state|] eqn:Hmove; [|discriminate].
    unfold next_player. cbn [current_player].
    destruct (num_players game =? 0) eqn:Hn; [discriminate|].
    intros [= <-]. cbn [move_count moves_history states_history move_times
                          agent_states rng ticks events].
    eapply turn_rejected; try done. unfold next_player. by rewrite Hn.
  - unfold recover. cbn [rng state current_player].
    destruct (choice (m0 :: legal) rng') as [[m'|] rng''] eqn:Hchoice;
      [|discriminate].
    destruct (make_move game (state r) m' (current_player r))
      as [new_state|] eqn:Hmove; [|discriminate].
    unfold next_player. cbn [current_player].
    destruct (num_players game =? 0) eqn:Hn; [discriminate|].
    intros [= <-]. cbn [move_count moves_history states_history move_times
                          agent_states rng ticks events].
    eapply turn_rejected; try done. unfold next_player. by rewrite Hn.
Qed.

(** The loop stops with the run it was given, on a terminal state or at the
    cap. *)
Lemma turn_stop (max_moves : Z) (r r' : run) :
  turn max_moves r = Stop r' →
  r' = r ∧ (is_terminal game (state r) = Ok true
            ∨ is_terminal game (state r) = Ok false
              ∧ max_moves ≤ move_count r).
Proof.
  unfold MatchRunner.turn.
  destruct (is_terminal game (state r)) as [[]|] eqn:Hterm; try discriminate.
  { intros [= <-]. auto. }
  destruct (Z.ltb_spec (move_count r) max_moves) as [Hlt|Hge]; cbn [negb].
  - destruct (np_item agents _) as [agent|]; [|discriminate].
    destruct (np_item (agent_states r) _) as [ast|]; [|discriminate].
    destruct (get_legal_moves game _ _) as [[|m0 legal]|]; [| |discriminate].
    { by destruct (next_player game r). }
    destruct (agent_make_move _ _ _ _ _ _) as [[rep ast'] rng'].
    destruct (judge game _ rep) as [[mv ok] message].
    destruct ok, mv as [m|]; unfold accept, recover;
      repeat (match goal with
              | |- context [match ?x with _ => _ end] => destruct x
              end; try discriminate).
  - intros [= <-]. auto.
Qed.

Lemma feedbacks_snoc (ok : bool) (evs : list (event Move)) (e : event Move) :
  feedbacks ok (evs ++ [e])
  = (feedbacks ok evs + (if is_feedback ok e then 1 else 0))%nat.
Proof.
  unfold feedbacks. rewrite List.filter_app, length_app. simpl.
  by destruct (is_feedback ok e).
Qed.

Lemma feedbacks_starts (ok : bool) (n : nat) :
  feedbacks ok (map (λ i : nat, @GameStart Move (Z.of_nat i)) (seq 0 n)) = 0%nat.
Proof.
  unfold feedbacks.
  assert (∀ k, length (List.filter (is_feedback ok)
                 (map (λ i : nat, @GameStart Move (Z.of_nat i)) (seq k n)))
               = 0%nat) as ->; [|done].
  induction n as [|n IH]; intros k; [done|]. simpl. apply IH.
Qed.

Lemma feedbacks_ends (ok : bool) (evs : list (event Move)) (w : option Z)
    (n : nat) :
  feedbacks ok (evs ++ map (λ i : nat, GameEnd (Z.of_nat i) w) (seq 0 n))
  = feedbacks ok evs.
Proof.
  unfold feedbacks. rewrite List.filter_app, length_app.
  assert (∀ k, length (List.filter (is_feedback ok)
                 (map (λ i : nat, @GameEnd Move (Z.of_nat i) w) (seq k n)))
               = 0%nat) as ->; [|lia].
  induction n as [|n IH]; intros k; [done|]. simpl. apply IH.
Qed.

(** *** The bookkeeping, for any game and any agents *)

Lemma booked_turn (max_moves : Z) (r r' : run) :
  booked_run r → turn_to max_moves r r' → booked_run r'.
Proof.
  unfold MatchRunner.booked_run. intros [Hm Ht Hs Hc] Hturn.
  destruct Hturn; cbn [events]; rewrite ?feedbacks_snoc;
    cbn [is_feedback Bool.eqb].
  - by split.
  - split; cbn [moves_history move_times states_history move_count].
    + rewrite length_app. simpl. lia.
    + rewrite map_app. simpl. by rewrite Ht.
    + rewrite length_app. simpl. lia.
    + lia.
  - split; cbn [moves_history move_times states_history move_count].
    + lia.
    + done.
    + rewrite length_app. simpl. lia.
    + lia.
Qed.

Lemma booked_loop (fuel : nat) (max_moves : Z) (r r' : run) :
  booked_run r → run_loop fuel max_moves r = Done r' → booked_run r'.
Proof.
  revert r. induction fuel as [|fuel IH]; intros r Hb; [discriminate|].
  cbn [MatchRunner.run_loop].
  destruct (turn max_moves r) as [r1|r1|e] eqn:Hturn; [| |discriminate].
  - apply IH. eapply booked_turn; [done|]. by apply turn_continue.
  - intros [= <-]. by apply turn_stop in Hturn as [-> _].
Qed.

Lemma booked_start (agent_states0 : list AState) (rng0 : gen_state G) :
  booked_run (start game agents agent_states0 rng0).
Proof.
  unfold MatchRunner.booked_run. cbn [events start]. rewrite !feedbacks_starts.
  by split.
Qed.

Lemma rejected_turn_spec (max_moves : Z) (r r' : run) (p : Z)
    (mv : option Move) (msg : string) :
  turn_to max_moves r r' →
  events r' = events r ++ [MoveFeedback p mv false msg] →
  rejected_turn game r r'.
Proof.
  intros Hturn. destruct Hturn; cbn [events].
  - intros Heq. apply (f_equal length) in Heq. rewrite length_app in Heq.
    simpl in Heq. lia.
  - intros Heq. apply app_inj_tail in Heq as [_ [=]].
  - intros _. unfold rejected_turn.
    cbn [moves_history move_times move_count state states_history].
    split_and!; try done. exists legal_moves, m, rng'.
    split_and!; try done. by eapply choice_elem.
Qed.

Lemma counts_accepted_only_spec (fuel : nat) (max_moves : Z)
    (agent_states0 : list AState) (rng0 : gen_state G) (res : match_result)
    (r : run) :
  run_match fuel max_moves agent_states0 rng0 = Done (res, r) →
  counts_accepted_only res r.
Proof.
  unfold MatchRunner.run_match.
  destruct (run_loop fuel max_moves (start game agents agent_states0 rng0))
    as [r0| |] eqn:Hloop; try discriminate.
  destruct (get_winner game (state r0)) as [w|]; [|discriminate].
  intros [= <- <-].
  pose proof (booked_loop fuel max_moves _ r0
                (booked_start agent_states0 rng0) Hloop) as [Hm Ht Hs Hc].
  unfold counts_accepted_only.
  cbn [result_of res_moves res_avg_move_time res_max_move_time moves_history
       move_times states_history move_count events].
  rewrite !feedbacks_ends, Ht. by split_and!.
Qed.

(** *** A lawful game runs through *)

Section lawful_game.
Context (I : State → Prop) (bad : nat).
Context (Hlaw : lawful game I) (HG : well_behaved G).
Context (Hseats : Z.of_nat (length agents) = num_players game).
Context (Hbad : always_illegal game agents I bad).

Lemma seat_in_range (r : run) :
  sound game agents I bad r → 0 ≤ current_player r < num_players game.
Proof.
  intros Hs. rewrite (snd_player _ _ _ _ _ Hs).
  apply Z.mod_pos_bound, (law_players _ _ Hlaw).
Qed.

Lemma next_player_ok (r : run) :
  sound game agents I bad r →
  next_player game r = Ok ((move_count r + 1) mod num_players game).
Proof.
  intros Hs. unfold next_player. pose proof (law_players _ _ Hlaw) as Hn.
  destruct (Z.eqb_spec (num_players game) 0); [lia|].
  rewrite (snd_player _ _ _ _ _ Hs). by rewrite Zplus_mod_idemp_l.
Qed.

Lemma sound_start (agent_states0 : list AState) (rng0 : gen_state G) :
  length agent_states0 = length agents →
  sound game agents I bad (start game agents agent_states0 rng0).
Proof.
  intros Hlen. split; cbn [start state move_count current_player agent_states
                              states_history events].
  - apply (law_reset _ _ Hlaw).
  - done.
  - by rewrite Zmod_0_l.
  - done.
  - exists []. by split_and!.
  - intros j s s' _ Hj. by destruct j.
  - intros p [Hp0 _] Hp. simpl in Hp. lia.
  - intros mv ok msg Hin. apply list_elem_of_fmap in Hin as (i & [=] & _).
Qed.

Lemma legal_chain_snoc (r : @run G State Move AState) (past : list State)
    (new_state : State)
    (legal_moves : list Move) (m : Move) :
  legal_chain game (states_history r) →
  states_history r = past ++ [state r] →
  Z.of_nat (length past) = move_count r →
  current_player r = move_count r mod num_players game →
  get_legal_moves game (state r) (current_player r) = Ok legal_moves →
  m ∈ legal_moves →
  make_move game (state r) m (current_player r) = Ok new_state →
  legal_chain game (states_history r ++ [new_state]).
Proof.
  intros Hchain Hhist Hlen Hplayer Hlegal Hin Hmove j s s' Hj HSj.
  assert (length (states_history r) = S (length past)) as Hlength
    by (rewrite Hhist, length_app; simpl; lia).
  destruct (decide (S j < length (states_history r))%nat) as [Hold|Hnew].
  - rewrite lookup_app_l in Hj by lia. rewrite lookup_app_l in HSj by lia.
    by apply (Hchain j).
  - pose proof (lookup_lt_Some _ _ _ HSj) as Hbound.
    rewrite length_app in Hbound. simpl in Hbound.
    assert (j = length past) as -> by lia.
    rewrite lookup_app_l in Hj by lia.
    rewrite Hhist, list_lookup_middle in Hj by done. injection Hj as <-.
    rewrite lookup_app_r in HSj by lia.
    replace (S (length past) - length (states_history r))%nat with 0%nat
      in HSj by lia.
    injection HSj as <-. rewrite Hlen, <- Hplayer. eauto.
Qed.

Lemma sound_turn (max_moves : Z) (r r' : run) :
  sound game agents I bad r → turn_to max_moves r r' →
  sound game agents I bad r' ∧ move_count r' = move_count r + 1.
Proof.
  intros Hs Hturn. pose proof (seat_in_range r Hs) as Hseat.
  pose proof (next_player_ok r Hs) as Hnext.
  destruct Hs as [HI Hcount Hplayer Hagents (past & Hhist & Hpast & Hnonterm)
                    Hchain Hturns Hfalse].
  destruct Hturn as
    [agent ast next Hterm Hlt Hagent Hast Hlegal Hnx
    |agent ast ast' legal m rng' new_state next Hterm Hlt Hagent Hast Hlegal
       Hrep Hin Hmove Hnx elapsed
    |agent ast ast' legal rep mv message m rng' rng'' new_state next Hterm Hlt
       Hagent Hast Hlegal Hne Hrep Hjudge Hchoice Hmove Hnx].
  - destruct (law_legal _ _ Hlaw (state r) (current_player r) HI)
      as (l & Hl & Hnonempty).
    rewrite Hlegal in Hl. injection Hl as <-. by destruct Hnonempty.
  - destruct (law_move _ _ Hlaw _ _ _ _ HI Hseat Hlegal Hin) as (s' & Hs' & HI').
    rewrite Hmove in Hs'. injection Hs' as <-.
    rewrite Hnext in Hnx. injection Hnx as <-.
    split; [|done]. split; cbn [state move_count current_player agent_states
                                 states_history events].
    + done.
    + lia.
    + done.
    + by rewrite length_insert.
    + exists (past ++ [state r]). split_and!.
      * by rewrite Hhist.
      * rewrite length_app. simpl. lia.
      * apply Forall_app. split; [done|]. by constructor.
    + by apply (legal_chain_snoc r past new_state legal m).
    + intros p Hp Hpc. destruct (decide (p < move_count r)) as [Hold|Hnew].
      * destruct (Hturns p Hp Hold) as (mv & ok & msg & Hev).
        exists mv, ok, msg. apply elem_of_app. by left.
      * assert (p = current_player r) as ->.
        { rewrite Hplayer, Z.mod_small; lia. }
        eexists _, _, _. apply elem_of_app. right. by left.
    + intros mv ok msg [Hold|Hnew%list_elem_of_singleton]%elem_of_app;
        [by eapply Hfalse|].
      injection Hnew as Hp -> -> ->. exfalso.
      apply np_item_Ok_nonneg in Hagent as [Hagent _]; [|lia].
      rewrite <- Hp, Nat2Z.id in Hagent.
      destruct (Hbad agent ast (rng r) (state r) (current_player r) legal
                  Hagent HI Hlegal) as (m' & Hm' & Hnotin).
      rewrite Hrep in Hm'. simpl in Hm'. injection Hm' as <-. done.
  - pose proof (choice_elem _ _ _ _ Hchoice) as Hin.
    destruct (law_move _ _ Hlaw _ _ _ _ HI Hseat Hlegal Hin) as (s' & Hs' & HI').
    rewrite Hmove in Hs'. injection Hs' as <-.
    rewrite Hnext in Hnx. injection Hnx as <-.
    split; [|done]. split; cbn [state move_count current_player agent_states
                                 states_history events].
    + done.
    + lia.
    + done.
    + by rewrite length_insert.
    + exists (past ++ [state r]). split_and!.
      * by rewrite Hhist.
      * rewrite length_app. simpl. lia.
      * apply Forall_app. split; [done|]. by constructor.
    + by apply (legal_chain_snoc r past new_state legal m).
    + intros p Hp Hpc. destruct (decide (p < move_count r)) as [Hold|Hnew].
      * destruct (Hturns p Hp Hold) as (mv' & ok & msg & Hev).
        exists mv', ok, msg. apply elem_of_app. by left.
      * assert (p = current_player r) as ->.
        { rewrite Hplayer, Z.mod_small; lia. }
        eexists _, _, _. apply elem_of_app. right. by left.
    + intros mv' ok msg [Hold|Hnew%list_elem_of_singleton]%elem_of_app;
        [by eapply Hfalse|].
      by injection Hnew as _ _ -> _.
Qed.

Lemma sound_progress (max_moves : Z) (r : run) :
  sound game agents I bad r →
  is_terminal game (state r) = Ok false → move_count r < max_moves →
  ∃ r', turn max_moves r = Continue r'.
Proof.
  intros Hs Hterm Hlt. pose proof (seat_in_range r Hs) as Hseat.
  pose proof (next_player_ok r Hs) as Hnext.
  destruct Hs as [HI Hcount Hplayer Hagents _ _ _ _].
  unfold MatchRunner.turn. rewrite Hterm.
  destruct (Z.ltb_spec (move_count r) max_moves); [|lia]. cbn [negb].
  destruct (lookup_lt_is_Some_2 agents (Z.to_nat (current_player r)))
    as [agent Hagent]; [lia|].
  destruct (lookup_lt_is_Some_2 (agent_states r) (Z.to_nat (current_player r)))
    as [ast Hast]; [lia|].
  rewrite (np_item_lookup _ _ _ (proj1 Hseat) Hagent).
  rewrite (np_item_lookup _ _ _ (proj1 Hseat) Hast).
  destruct (law_legal _ _ Hlaw (state r) (current_player r) HI)
    as (legal & Hlegal & Hne).
  specialize (Hne Hterm). rewrite Hlegal.
  destruct legal as [|m0 legal]; [done|].
  destruct (agent_make_move agent ast (rng r) (state r) (m0 :: legal)
              (current_player r)) as [[rep ast'] rng'].
  destruct (judge game (m0 :: legal) rep) as [[mv ok] message] eqn:Hjudge.
  assert (∃ r', recover game
            (Run (state r) (current_player r) (move_count r) (moves_history r)
               (states_history r) (move_times r)
               (<[Z.to_nat (current_player r) := ast']> (agent_states r)) rng'
               (S (S (ticks r)))
               (events r ++ [MoveFeedback (current_player r) mv ok message]))
            (m0 :: legal) = Continue r') as Hrecover.
  { unfold recover. cbn [rng state current_player].
    destruct (choice_total (m0 :: legal) rng' HG) as (m & rng'' & Hchoice);
      [done|].
    rewrite Hchoice. pose proof (choice_elem _ _ _ _ Hchoice) as Hin.
    destruct (law_move _ _ Hlaw _ _ _ _ HI Hseat Hlegal Hin) as (s' & -> & _).
    unfold next_player in *. cbn [current_player].
    destruct (num_players game =? 0); [discriminate|]. eauto. }
  destruct ok, mv as [m|]; try exact Hrecover.
  apply judge_accepts in Hjudge as (m' & -> & Hin & [= <-] & ->).
  unfold accept. cbn [state current_player].
  destruct (law_move _ _ Hlaw _ _ _ _ HI Hseat Hlegal Hin) as (s' & -> & _).
  unfold next_player in *. cbn [current_player].
  destruct (num_players game =? 0); [discriminate|]. eauto.
Qed.

(** With more fuel than turns left under the cap, the loop ends, on a
    terminal state or at the cap. *)
Lemma sound_loop (fuel : nat) (max_moves : Z) (r : run) :
  sound game agents I bad r →
  (Z.to_nat (max_moves - move_count r) < fuel)%nat →
  ∃ r', run_loop fuel max_moves r = Done r'
        ∧ sound game agents I bad r'
        ∧ (is_terminal game (state r') = Ok true
           ∨ is_terminal game (state r') = Ok false
             ∧ max_moves ≤ move_count r')
        ∧ move_count r' ≤ Z.max max_moves (move_count r).
Proof.
  revert r. induction fuel as [|fuel IH]; intros r Hs Hfuel; [lia|].
  cbn [MatchRunner.run_loop].
  destruct (law_terminal _ _ Hlaw (state r) (snd_state _ _ _ _ _ Hs))
    as [t Hterm].
  destruct (decide (t = false ∧ move_count r < max_moves)) as [[-> Hlt]|Hstop].
  - destruct (sound_progress max_moves r Hs Hterm Hlt) as [r1 Hturn].
    rewrite Hturn. apply turn_continue in Hturn.
    destruct (sound_turn max_moves r r1 Hs Hturn) as [Hs1 Hcount].
    destruct (IH r1 Hs1) as (r' & Hloop & Hs' & Hend & Hle); [lia|].
    exists r'. split_and!; try done. lia.
  - destruct (turn max_moves r) as [r1|r1|e] eqn:Hturn.
    + apply turn_continue in Hturn. destruct Hstop.
      destruct Hturn; split; congruence || done.
    + apply turn_stop in Hturn as [-> Hend].
      exists r. split_and!; try done. lia.
    + exfalso. revert Hturn. unfold MatchRunner.turn. rewrite Hterm.
      destruct t; [discriminate|].
      destruct (Z.ltb_spec (move_count r) max_moves); [|discriminate].
      destruct Hstop. done.
Qed.

Lemma recovery_completes (max_moves : Z) (agent_states0 : list AState)
    (rng0 : gen_state G) :
  0 ≤ max_moves → (bad < length agents)%nat →
  length agent_states0 = length agents →
  completes_by_recovery clock game agents bad max_moves agent_states0 rng0.
Proof.
  intros Hcap Hseat Hlen fuel Hfuel.
  destruct (sound_loop fuel max_moves (start game agents agent_states0 rng0))
    as (r & Hloop & Hs & Hend & Hle);
    [by apply sound_start|simpl; by rewrite Z.sub_0_r|].
  pose proof (booked_loop fuel max_moves _ r
                (booked_start agent_states0 rng0) Hloop) as [Hbm _ _ Hbc].
  destruct (law_winner _ _ Hlaw (state r) (snd_state _ _ _ _ _ Hs))
    as [w Hw].
  unfold MatchRunner.run_match. rewrite Hloop, Hw.
  eexists _, _. split; [done|].
  cbn [move_count state states_history events result_of res_moves
       moves_history].
  simpl in Hle. rewrite !feedbacks_ends.
  destruct Hs as [_ Hcount _ _ Hhist Hchain Hturns Hfalse].
  split_and!; try done.
  - lia.
  - destruct Hend as [?|[_ ?]]; [by left|right; lia].
  - intros mv ok msg [Hin|Hin]%elem_of_app; [by eapply Hfalse|].
    apply list_elem_of_fmap in Hin as (i & [=] & _).
  - intros Hturn. destruct (Hturns (Z.of_nat bad)) as (mv & ok & msg & Hin);
      [lia|done|].
    rewrite (Hfalse _ _ _ Hin) in Hin.
    exists mv, msg. apply elem_of_app. by left.
Qed.

End lawful_game.

End runner_facts.
End RunnerFacts.

(** *** The two games are lawful *)

Lemma is_terminal_false_moves {Move} (win : result (option Z))
    (legal : result (list Move)) :
  (w' <- win ;;
   match w' with
   | Some _ => Ok true
   | None => ms <- legal ;; Ok (Nat.eqb (length ms) 0)
   end) = Ok false →
  ∃ ms, legal = Ok ms ∧ ms ≠ [].
Proof.
  destruct win as [[p|]|]; try discriminate. simpl.
  destruct legal as [ms|]; [|discriminate]. simpl.
  intros [= Hlen]. exists ms. split; [done|]. by intros ->.
Qed.

Lemma gomoku_lawful (g : Gomoku.game) :
  MatchRunner.lawful (gomoku g)
    (valid_board (Gomoku.board_size g) (Gomoku.board_size g)).
Proof.
  split; cbn [gomoku num_players reset is_terminal get_legal_moves make_move
              get_winner].
  - done.
  - apply np_zeros_valid.
  - intros s [Hs _].
    destruct (GomokuScan.gomoku_get_winner_spec g s Hs) as (b1 & b2 & _ & _ & Hw).
    destruct (GomokuFacts.gomoku_legal_moves_total g s 0 Hs) as [moves Hm].
    destruct (is_terminal_from _ _ _ moves Hw Hm) as (t & _ & _ & Ht & _).
    by exists t.
  - intros s p [Hs _].
    destruct (GomokuFacts.gomoku_legal_moves_total g s p Hs) as [moves Hm].
    exists moves. split; [done|]. intros Hterm.
    apply is_terminal_false_moves in Hterm as (ms & Hms & Hne).
    rewrite (GomokuFacts.gomoku_legal_moves_player g s p 0), Hms in Hm.
    by injection Hm as <-.
  - intros s p l m Hvalid Hp Hl Hin. change (0 ≤ p < 2) in Hp.
    rewrite GomokuFacts.gomoku_apply_move_place.
    destruct (GomokuFacts.gomoku_place_legal g s p p l m Hl Hin) as [b Hb];
      [lia|].
    exists b. split; [done|].
    apply (GomokuFacts.gomoku_place_valid g s b m p); [done| |done].
    lia.
  - intros s [Hs _].
    destruct (GomokuScan.gomoku_get_winner_spec g s Hs) as (b1 & b2 & _ & _ & Hw).
    eauto.
Qed.

Lemma connect4_lawful (g : Connect4.game) :
  (0 < Connect4.rows g)%nat →
  MatchRunner.lawful (connect4 g)
    (valid_board (Connect4.rows g) (Connect4.cols g)).
Proof.
  intros Hrows.
  split; cbn [connect4 num_players reset is_terminal get_legal_moves make_move
              get_winner].
  - done.
  - apply np_zeros_valid.
  - intros s [Hs _].
    destruct (Connect4Scan.connect4_get_winner_spec g s Hs)
      as (b1 & b2 & _ & _ & Hw).
    destruct (Connect4Facts.connect4_legal_moves_total g s 0 Hs Hrows)
      as [moves Hm].
    destruct (is_terminal_from _ _ _ moves Hw Hm) as (t & _ & _ & Ht & _).
    by exists t.
  - intros s p [Hs _].
    destruct (Connect4Facts.connect4_legal_moves_total g s p Hs Hrows)
      as [moves Hm].
    exists moves. split; [done|]. intros Hterm.
    apply is_terminal_false_moves in Hterm as (ms & Hms & Hne).
    rewrite (Connect4Facts.connect4_legal_moves_player g s p 0), Hms in Hm.
    by injection Hm as <-.
  - intros s p l m Hvalid Hp Hl Hin. change (0 ≤ p < 2) in Hp.
    rewrite Connect4Facts.connect4_apply_move_place.
    destruct (Connect4Facts.connect4_place_legal g s p p l m (proj1 Hvalid)
                Hl Hin) as [b Hb]; [lia|].
    exists b. split; [done|].
    apply (Connect4Facts.connect4_place_valid g s b m p); [done| |done].
    lia.
  - intros s [Hs _].
    destruct (Connect4Scan.connect4_get_winner_spec g s Hs)
      as (b1 & b2 & _ & _ & Hw).
    eauto.
Qed.

(** ** The claims on the match runner *)

Lemma below_loop_lt (fuel : nat) (n k : Z) (s : Mersenne.mt) :
  0 < n → (Z.of_nat (Mersenne.below_loop fuel n k s).1 < n).
Proof.
  intros Hn. revert s. induction fuel as [|fuel IH]; intros s; simpl; [lia|].
  destruct (Mersenne.getrandbits k s) as [r s'].
  destruct (Z.leb_spec 0 r), (Z.ltb_spec r n); simpl; try apply IH. lia.
Qed.

Lemma mersenne_well_behaved : well_behaved mersenne.
Proof.
  intros s n Hn. simpl. unfold Mersenne.randbelow.
  pose proof (below_loop_lt 4096 (Z.of_nat n)
                (Z.log2 (Z.of_nat n) + 1) s ltac:(lia)). lia.
Qed.

Lemma off_board_illegal (g : Gomoku.game) (other : Agent mersenne _ _ nat)
    (seat : nat) :
  (Gomoku.board_size g ≤ 9)%nat →
  MatchRunner.always_illegal (gomoku g)
    (if decide (seat = 0%nat) then [off_board; other] else [other; off_board])
    (valid_board (Gomoku.board_size g) (Gomoku.board_size g)) seat.
Proof.
  intros Hsize a ast rng0 s p legal Ha _ Hlegal.
  assert (a = off_board ∨ (2 ≤ seat)%nat) as [->|Hseat].
  { destruct seat as [|[|seat]]; simpl in Ha; [left|left|right; lia];
      congruence. }
  - exists (9, 9). split; [done|]. intros Hin.
    apply (GomokuFacts.gomoku_legal_moves_elem g s p legal 9 9 Hlegal) in Hin.
    lia.
  - destruct seat as [|[|seat]]; [lia|lia|]. discriminate.
Qed.

Lemma off_columns_illegal (g : Connect4.game) (other : Agent mersenne _ _ nat)
    (seat : nat) :
  (Connect4.cols g ≤ 9)%nat →
  MatchRunner.always_illegal (connect4 g)
    (if decide (seat = 0%nat) then [off_columns; other]
     else [other; off_columns])
    (valid_board (Connect4.rows g) (Connect4.cols g)) seat.
Proof.
  intros Hsize a ast rng0 s p legal Ha _ Hlegal.
  assert (a = off_columns ∨ (2 ≤ seat)%nat) as [->|Hseat].
  { destruct seat as [|[|seat]]; simpl in Ha; [left|left|right; lia];
      congruence. }
  - exists 9. split; [done|]. intros Hin.
    apply (Connect4Facts.connect4_legal_moves_elem g s p legal 9 Hlegal) in Hin.
    lia.
  - destruct seat as [|[|seat]]; [lia|lia|]. discriminate.
Qed.

(** C2, as the code has it.  In Gomoku and in Connect4 (with at least one
    row), with a generator whose draws are in range, a match in which the
    agent of one seat answers every request with a move outside the legal
    moves runs to completion for every cap: each turn consumed applies one
    move and adds one snapshot, the turns consumed are the cap or the number
    after which the state is terminal, whichever comes first, every
    feedback to that seat says "rejected" and the seat gets one as soon as
    it had a turn, while the result's count of moves is the number of
    accepted moves and leaves out the moves played for the agent. *)
Theorem C2_recovery_completes :
  (∀ (G : generator) (AState : Type) (clock : nat → Q) (g : Gomoku.game)
     (agents : list (Agent G ndarray Gomoku.move AState)) (bad : nat)
     (max_moves : Z) (agent_states0 : list AState) (rng0 : gen_state G),
      well_behaved G → length agents = 2%nat →
      length agent_states0 = 2%nat → (bad < 2)%nat → 0 ≤ max_moves →
      MatchRunner.always_illegal (gomoku g) agents
        (valid_board (Gomoku.board_size g) (Gomoku.board_size g)) bad →
      MatchRunner.completes_by_recovery clock (gomoku g) agents bad max_moves
        agent_states0 rng0)
  ∧ (∀ (G : generator) (AState : Type) (clock : nat → Q) (g : Connect4.game)
       (agents : list (Agent G ndarray Connect4.move AState)) (bad : nat)
       (max_moves : Z) (agent_states0 : list AState) (rng0 : gen_state G),
      well_behaved G → (0 < Connect4.rows g)%nat → length agents = 2%nat →
      length agent_states0 = 2%nat → (bad < 2)%nat → 0 ≤ max_moves →
      MatchRunner.always_illegal (connect4 g) agents
        (valid_board (Connect4.rows g) (Connect4.cols g)) bad →
      MatchRunner.completes_by_recovery clock (connect4 g) agents bad
        max_moves agent_states0 rng0).
Proof.
  split.
  - intros G AState clock g agents bad max_moves as0 rng0 HG Hlen Hlen0 Hbad
      Hcap Hillegal.
    apply (RunnerFacts.recovery_completes clock (gomoku g) agents _ bad
             (gomoku_lawful g) HG); try done; [by rewrite Hlen|lia|lia].
  - intros G AState clock g agents bad max_moves as0 rng0 HG Hrows Hlen Hlen0
      Hbad Hcap Hillegal.
    apply (RunnerFacts.recovery_completes clock (connect4 g) agents _ bad
             (connect4_lawful g Hrows) HG); try done; [by rewrite Hlen|lia|lia].
Qed.

Lemma C2_recovery_completes_witness :
  MatchRunner.completes_by_recovery sample_clock (gomoku (Gomoku.Game 5 3))
    [off_board; off_board] 0 3 [0; 0]%nat (Mersenne.seed 42)
  ∧ MatchRunner.completes_by_recovery sample_clock
      (connect4 (Connect4.Game 6 7 4)) [off_columns; off_columns] 1 10
      [0; 0]%nat (Mersenne.seed 42).
Proof.
  split.
  - apply (proj1 C2_recovery_completes mersenne nat sample_clock
             (Gomoku.Game 5 3) [off_board; off_board] 0%nat 3).
    + apply mersenne_well_behaved.
    + reflexivity.
    + reflexivity.
    + lia.
    + lia.
    + apply (off_board_illegal (Gomoku.Game 5 3) off_board 0). simpl. lia.
  - apply (proj2 C2_recovery_completes mersenne nat sample_clock
             (Connect4.Game 6 7 4) [off_columns; off_columns] 1%nat 10).
    + apply mersenne_well_behaved.
    + simpl. lia.
    + reflexivity.
    + reflexivity.
    + lia.
    + lia.
    + apply (off_columns_illegal (Connect4.Game 6 7 4) off_columns 1).
      simpl. lia.
Defined.

(** C2 as stated fails.  Gomoku 5x5, both agents always ask for (9, 9),
    cap 1, generator seeded with 42: the agent in seat 1 answers every
    request with an illegal move (it gets none), the match completes after
    one consumed turn with two snapshots, and yet that agent has received no
    feedback at all, and the result reports 0 moves where
    min(cap, movesUntilTerminal) is 1. *)
Lemma C2_counterexample :
  MatchRunner.always_illegal (gomoku (Gomoku.Game 5 3)) [off_board; off_board]
    (valid_board 5 5) 1
  ∧ ∃ evs,
      observed (MatchRunner.run_match sample_clock (gomoku (Gomoku.Game 5 3))
                  [off_board; off_board] 2 1 [0; 0]%nat (Mersenne.seed 42))
      = Some (0%nat, 1, 2%nat, [], evs)
      ∧ ¬ ∃ mv msg, MatchRunner.MoveFeedback 1 mv false msg ∈ evs.
Proof.
  split.
  - apply (off_board_illegal (Gomoku.Game 5 3) off_board 1). simpl. lia.
  - exists [MatchRunner.GameStart 0; MatchRunner.GameStart 1;
            MatchRunner.MoveFeedback 0 (Some (9, 9)) false
              "Move 9,9 is not in the list of legal moves";
            MatchRunner.GameEnd 0 None; MatchRunner.GameEnd 1 None].
    split; [vm_compute; reflexivity|].
    intros (mv & msg & Hin).
    repeat (apply elem_of_cons in Hin as [Hin|Hin]; [discriminate|]).
    inversion Hin.
Qed.

(** C10.  For every game and all agents: a turn of [run_match] whose
    feedback to the agent is "rejected" applies one of the legal moves and
    appends its state to [states_history], and leaves [moves_history] and
    [move_times] as they were while [move_count] grows by one; and in the
    result of a finished match the count of moves is the number of accepted
    moves, and the average and maximum times are those of the accepted
    moves, whereas the snapshots and the consumed turns count the fallback
    moves too. *)
Theorem C10_fallback_moves_not_recorded :
  ∀ (G : generator) (State Move AState : Type) (Heq : EqDecision Move)
    (clock : nat → Q) (game : Game State Move)
    (agents : list (Agent G State Move AState)),
    (∀ (max_moves : Z) (r r' : MatchRunner.run) (p : Z) (mv : option Move)
       (msg : string),
        MatchRunner.turn clock game agents max_moves r
        = MatchRunner.Continue r' →
        MatchRunner.events r'
        = MatchRunner.events r ++ [MatchRunner.MoveFeedback p mv false msg] →
        MatchRunner.rejected_turn game r r')
    ∧ (∀ (fuel : nat) (max_moves : Z) (agent_states0 : list AState)
         (rng0 : gen_state G) (res : MatchRunner.match_result)
         (r : MatchRunner.run),
          MatchRunner.run_match clock game agents fuel max_moves
            agent_states0 rng0 = MatchRunner.Done (res, r) →
          MatchRunner.counts_accepted_only res r).
Proof.
  intros G State Move AState Heq clock game agents. split.
  - intros max_moves r r' p mv msg Hturn Hev.
    apply (RunnerFacts.rejected_turn_spec clock game agents max_moves r r' p
             mv msg); [|done].
    by apply RunnerFacts.turn_continue.
  - intros fuel max_moves as0 rng0 res r Hrun.
    by apply (RunnerFacts.counts_accepted_only_spec clock game agents fuel
                max_moves as0 rng0).
Qed.

Lemma C10_fallback_moves_not_recorded_witness :
  let game := gomoku (Gomoku.Game 5 3) in
  let agents := [off_board; off_board] in
  let r0 := MatchRunner.start game agents [0; 0]%nat (Mersenne.seed 42) in
  match MatchRunner.turn sample_clock game agents 3 r0 with
  | MatchRunner.Continue r1 => MatchRunner.rejected_turn game r0 r1
  | _ => False
  end
  ∧ match MatchRunner.run_match sample_clock game agents 4 3 [0; 0]%nat
            (Mersenne.seed 42) with
    | MatchRunner.Done (res, r) => MatchRunner.counts_accepted_only res r
    | _ => False
    end.
Proof.
  intros game agents r0. split.
  - assert (events_after (MatchRunner.turn sample_clock game agents 3 r0)
            = Some (MatchRunner.events r0
                      ++ [MatchRunner.MoveFeedback 0 (Some (9, 9)) false
                            "Move 9,9 is not in the list of legal moves"]))
      as Hev by (vm_compute; reflexivity).
    destruct (MatchRunner.turn sample_clock game agents 3 r0) as [r1|r1|e]
      eqn:Hturn; [|discriminate Hev..].
    injection Hev as Hev.
    exact (proj1 (C10_fallback_moves_not_recorded mersenne _ _ nat _
                    sample_clock game agents) 3 r0 r1 0 (Some (9, 9))
             "Move 9,9 is not in the list of legal moves"%string Hturn Hev).
  - assert (observed (MatchRunner.run_match sample_clock game agents 4 3
                        [0; 0]%nat (Mersenne.seed 42)) ≠ None)
      as Hobs by (vm_compute; discriminate).
    destruct (MatchRunner.run_match sample_clock game agents 4 3 [0; 0]%nat
                (Mersenne.seed 42)) as [[res r]| |] eqn:Hrun;
      [|by destruct Hobs..].
    exact (proj2 (C10_fallback_moves_not_recorded mersenne _ _ nat _
                    sample_clock game agents) 4%nat 3 [0; 0]%nat
             (Mersenne.seed 42) res r Hrun).
Defined.

(** ** The agents *)

Lemma random_agent_moves {G : generator} {State Move : Type} (rng : gen_state G)
    (state : State) (legal_moves : list Move) (player : Z) :
  well_behaved G → legal_moves ≠ [] →
  ∃ m,
    RandomAgent.make_move tt rng state legal_moves player
    = (Returned m, tt, (gen_below G rng (length legal_moves)).2)
    ∧ legal_moves !! (gen_below G rng (length legal_moves)).1 = Some m.
Proof.
  intros HG Hne. unfold RandomAgent.make_move, choice.
  destruct legal_moves as [|m0 l]; [done|].
  specialize (HG rng (length (m0 :: l)) ltac:(simpl; lia)).
  destruct (gen_below G rng (length (m0 :: l))) as [i rng'].
  destruct (lookup_lt_is_Some_2 (m0 :: l) i HG) as [m Hm].
  rewrite Hm. by exists m.
Qed.

(** C7, as the code has it.  The seed of a RandomAgent reseeds the one
    generator of the process.  Hence the moves an agent returns when it is
    asked right after its construction depend on the seed and on the lists
    of legal moves only, not on what was drawn before nor on the agent's
    name, the state or the seat; two matches between agents constructed with
    the same seeds just before the match are equal; [make_move] raises "No
    legal moves available" on the empty list, and on any other list returns
    the element at the index the generator draws below the length of the
    list (uniform as far as the generator is). *)
Theorem C7_seeded_agents_deterministic :
  ∀ (G : generator) (State Move : Type) (Heq : EqDecision Move),
    (∀ (name1 name2 : string) (seed : Z) (state1 state2 : State)
       (player1 player2 : Z) (lists : list (list Move))
       (rng1 rng2 : gen_state G),
        RandomAgent.fresh_agent_moves name1 seed state1 player1 lists rng1
        = RandomAgent.fresh_agent_moves name2 seed state2 player2 lists rng2)
    ∧ (∀ (clock : nat → Q) (game : Game State Move) (name1 name2 : string)
         (seed1 seed2 : Z) (fuel : nat) (max_moves : Z)
         (rng1 rng2 : gen_state G),
          seeded_match clock game name1 name2 seed1 seed2 fuel max_moves rng1
          = seeded_match clock game name1 name2 seed1 seed2 fuel max_moves
              rng2)
    ∧ (∀ (rng : gen_state G) (state : State) (legal_moves : list Move)
         (player : Z) (msg : string),
          well_behaved G →
          (RandomAgent.make_move tt rng state legal_moves player).1.1
          = Raised msg →
          legal_moves = [] ∧ msg = "No legal moves available"%string)
    ∧ (∀ (rng : gen_state G) (state : State) (player : Z),
          RandomAgent.make_move (Move := Move) tt rng state [] player
          = (Raised "No legal moves available", tt, rng))
    ∧ (∀ (rng : gen_state G) (state : State) (legal_moves : list Move)
         (player : Z),
          well_behaved G → legal_moves ≠ [] →
          ∃ m,
            RandomAgent.make_move tt rng state legal_moves player
            = (Returned m, tt, (gen_below G rng (length legal_moves)).2)
            ∧ legal_moves !! (gen_below G rng (length legal_moves)).1
              = Some m
            ∧ m ∈ legal_moves).
Proof.
  intros G State Move Heq. split_and!.
  - intros name1 name2 seed state1 state2 player1 player2 lists rng1 rng2.
    unfold RandomAgent.fresh_agent_moves, RandomAgent.new.
    generalize (gen_seed G seed). clear rng1 rng2.
    induction lists as [|l lists IH]; intros rng; [done|].
    cbn [RandomAgent.ask agent_make_move fst snd].
    destruct l as [|m0 l].
    + cbn [RandomAgent.make_move]. specialize (IH rng).
      cbn [fst] in IH.
      destruct (RandomAgent.ask _ state1 player1 lists rng) as [rs1 s1].
      destruct (RandomAgent.ask _ state2 player2 lists rng) as [rs2 s2].
      simpl in *. by rewrite IH.
    + cbn [RandomAgent.make_move].
      destruct (choice (m0 :: l) rng) as [[m|e] rng'].
      * specialize (IH rng').
        destruct (RandomAgent.ask _ state1 player1 lists rng') as [rs1 s1].
        destruct (RandomAgent.ask _ state2 player2 lists rng') as [rs2 s2].
        simpl in *. by rewrite IH.
      * specialize (IH rng').
        destruct (RandomAgent.ask _ state1 player1 lists rng') as [rs1 s1].
        destruct (RandomAgent.ask _ state2 player2 lists rng') as [rs2 s2].
        simpl in *. by rewrite IH.
  - reflexivity.
  - intros rng state legal_moves player msg HG.
    destruct legal_moves as [|m0 l].
    + by intros [= <-].
    + intros Hraised.
      destruct (random_agent_moves rng state (m0 :: l) player HG)
        as (m & Hm & _); [done|].
      rewrite Hm in Hraised. discriminate.
  - reflexivity.
  - intros rng state legal_moves player HG Hne.
    destruct (random_agent_moves rng state legal_moves player HG Hne)
      as (m & Hm & Hlookup).
    exists m. split_and!; try done. by eapply list_elem_of_lookup_2.
Qed.

Lemma C7_seeded_agents_deterministic_witness :
  (∃ m,
      RandomAgent.make_move (G := mersenne) tt (Mersenne.seed 42)
        (np_zeros 5 5) diagonal_moves 0
      = (Returned m, tt,
         (gen_below mersenne (Mersenne.seed 42) (length diagonal_moves)).2)
      ∧ diagonal_moves
        !! (gen_below mersenne (Mersenne.seed 42) (length diagonal_moves)).1
        = Some m
      ∧ m ∈ diagonal_moves)
  ∧ RandomAgent.fresh_agent_moves (G := mersenne) "Agent1" 42 (np_zeros 5 5) 0
      [diagonal_moves; diagonal_moves] (Mersenne.seed 0)
    = RandomAgent.fresh_agent_moves (G := mersenne) "Agent2" 42
        (np_zeros 5 5) 1 [diagonal_moves; diagonal_moves] (Mersenne.seed 1).
Proof.
  split.
  - apply (proj2 (proj2 (proj2 (proj2
             (C7_seeded_agents_deterministic mersenne ndarray Gomoku.move _))))).
    + apply mersenne_well_behaved.
    + discriminate.
  - apply (proj1 (C7_seeded_agents_deterministic mersenne ndarray Gomoku.move
                    _)).
Defined.

(** C7 as stated fails.  Two agents are constructed with seed 42, then each
    is asked twice for a move among the same five: the first agent returns
    (0, 0) and (0, 0), the second (2, 2) and (1, 1), the third and fourth
    draws of the generator that the second construction has reseeded and
    the first agent has advanced. *)
Lemma C7_counterexample :
  RandomAgent.same_seed_experiment (G := mersenne) 42 (np_zeros 5 5)
    [diagonal_moves; diagonal_moves] (Mersenne.seed 0)
  = ([Returned (0, 0); Returned (0, 0)], [Returned (2, 2); Returned (1, 1)])
  ∧ (RandomAgent.same_seed_experiment (G := mersenne) 42 (np_zeros 5 5)
       [diagonal_moves; diagonal_moves] (Mersenne.seed 0)).1
    ≠ (RandomAgent.same_seed_experiment (G := mersenne) 42 (np_zeros 5 5)
         [diagonal_moves; diagonal_moves] (Mersenne.seed 0)).2.
Proof.
  assert (RandomAgent.same_seed_experiment (G := mersenne) 42 (np_zeros 5 5)
            [diagonal_moves; diagonal_moves] (Mersenne.seed 0)
          = ([Returned (0, 0); Returned (0, 0)],
             [Returned (2, 2); Returned (1, 1)])) as H
    by (vm_compute; reflexivity).
  split; [exact H|]. rewrite H. discriminate.
Qed.

(** *** The marker of the LLM agent *)





Lemma startswith_split (p s : string) :
  startswith p s = true → s = (p ++ str_from (String.length p) s)%string.
Proof.
  revert s. induction p as [|c p IH]; intros s; [by destruct s|].
  destruct s as [|d s]; [discriminate|]. simpl.
  intros [->%Ascii.eqb_eq Hs]%andb_true_iff. f_equal. by apply IH.
Qed.













(** The responses of the unit tests of the parser. *)
Example parse_response_examples :
  LLMAgent.re_search "I will play move:1" = Some "1"%string
  ∧ LLMAgent.re_search "MOVE: x then Move:   007 MOVE: 2" = Some "007"%string
  ∧ LLMAgent.re_search "I'm not sure what to do." = None
  ∧ (LLMAgent._parse_response (G := mersenne) "I will play move:1"
       diagonal_moves (Mersenne.seed 42)).1 = Ok (1, 1)
  ∧ (LLMAgent._parse_response (G := mersenne) "MOVE: 5"
       diagonal_moves (Mersenne.seed 42)).1 = Ok (0, 0).
Proof. repeat split; vm_compute; reflexivity. Qed.

(** * Further properties of the rules engines *)

(** ** Cells after a write *)

Lemma cell_insert (a : ndarray) (i j : nat) (row : list Z) (v r c : Z) :
  a !! i = Some row → (j < length row)%nat →
  cell (<[i := <[j := v]> row]> a) r c
  = if decide (r = Z.of_nat i ∧ c = Z.of_nat j) then Some v else cell a r c.
Proof.
  intros Hrow Hj. pose proof (lookup_lt_Some _ _ _ Hrow) as Hi. unfold cell.
  destruct (Z.leb_spec 0 r), (Z.leb_spec 0 c); cbn [andb];
    try (case_decide; [lia|done]).
  destruct (decide (Z.to_nat r = i)) as [<-|Hne].
  - rewrite list_lookup_insert_eq by done. rewrite Hrow. cbn [mbind option_bind].
    destruct (decide (Z.to_nat c = j)) as [<-|Hnc].
    + rewrite list_lookup_insert_eq by done. case_decide; [done|lia].
    + rewrite list_lookup_insert_ne by done. case_decide; [lia|done].
  - rewrite list_lookup_insert_ne by done. case_decide; [lia|done].
Qed.

(** A write that succeeds changes one cell of the array; [i] and [j] are
    the row and the column the indices stand for once negative ones are
    wrapped. *)
Lemma np_set_cells (a b : ndarray) (r c v : Z) :
  np_set a r c v = Ok b →
  ∃ i j, np_index (length a) r = Ok i
         ∧ (∃ row, a !! i = Some row ∧ np_index (length row) c = Ok j)
         ∧ -128 ≤ v ≤ 127
         ∧ ∀ r' c', cell b r' c'
                    = if decide (r' = Z.of_nat i ∧ c' = Z.of_nat j)
                      then Some v else cell a r' c'.
Proof.
  unfold np_set.
  destruct (np_index (length a) r) as [i|] eqn:Ei; [|discriminate]. simpl.
  destruct (np_item a r) as [row|] eqn:Er; [|discriminate]. simpl.
  destruct (np_index (length row) c) as [j|] eqn:Ej; [|discriminate]. simpl.
  unfold int8. destruct (Z.leb_spec (-128) v), (Z.leb_spec v 127);
    simpl; try discriminate.
  intros [= <-]. apply np_item_Ok_lookup in Er as (k & Ek & Hrow).
  rewrite Ei in Ek. injection Ek as <-.
  exists i, j. split_and!; try done; [by exists row|].
  intros r' c'. apply cell_insert; [done|]. by apply np_index_lt in Ej.
Qed.

Lemma np_index_nonneg (n : nat) (i : Z) (k : nat) :
  0 ≤ i → np_index n i = Ok k → k = Z.to_nat i.
Proof.
  intros Hi. unfold np_index. destruct (Z.leb_spec 0 i); [|lia].
  destruct (Z.ltb_spec i (Z.of_nat n)); simpl; [by intros [= <-]|].
  destruct (Z.ltb_spec i 0); [lia|]. rewrite andb_false_r. discriminate.
Qed.

(** The shape of an array does not change when a cell is written. *)
Lemma np_set_shape (rows cols : nat) (a b : ndarray) (r c v : Z) :
  has_shape rows cols a → np_set a r c v = Ok b → has_shape rows cols b.
Proof.
  intros [Hlen Hrows] Hset.
  apply np_set_Ok_inv in Hset as (i & j & row & Hrow & Hj & _ & ->).
  split; [by rewrite length_insert|].
  apply Forall_insert; [done|]. rewrite length_insert.
  by apply (Forall_lookup_1 _ _ _ _ Hrows Hrow).
Qed.

(** ** Counting the empty cells *)

Lemma empties_flat_insert (l : list Z) (k : nat) (v : Z) :
  l !! k = Some 0 → v ≠ 0 →
  S (length (List.filter (Z.eqb 0) (<[k := v]> l)))
  = length (List.filter (Z.eqb 0) l).
Proof.
  intros Hk Hv. pose proof (lookup_lt_Some _ _ _ Hk) as Hlt.
  rewrite insert_take_drop by done.
  rewrite <- (take_drop_middle l k 0 Hk) at 3.
  rewrite !filter_app, !length_app. cbn [List.filter].
  destruct (Z.eqb_spec 0 v); [congruence|]. simpl. lia.
Qed.

Lemma empties_insert (a : ndarray) (i j : nat) (row : list Z) (v : Z) :
  a !! i = Some row → row !! j = Some 0 → v ≠ 0 →
  S (empties (<[i := <[j := v]> row]> a)) = empties a.
Proof.
  intros Hrow Hj Hv. pose proof (lookup_lt_Some _ _ _ Hrow) as Hlt.
  unfold empties. rewrite insert_take_drop by done.
  rewrite <- (take_drop_middle a i row Hrow) at 3.
  rewrite !concat_app. cbn [concat]. rewrite !filter_app, !length_app.
  pose proof (empties_flat_insert row j v Hj Hv). lia.
Qed.

Lemma empties_le_cells (rows cols : nat) (a : ndarray) :
  has_shape rows cols a → (empties a ≤ rows * cols)%nat.
Proof.
  intros [<- Hrows]. unfold empties.
  etransitivity; [apply filter_length_le|].
  induction Hrows as [|row a Hrow _ IH]; [done|].
  cbn [concat]. rewrite length_app. simpl. lia.
Qed.

Lemma empties_zeros (rows cols : nat) :
  empties (np_zeros rows cols) = (rows * cols)%nat.
Proof.
  unfold empties, np_zeros.
  assert (length (List.filter (Z.eqb 0) (replicate cols 0)) = cols) as Hrow.
  { induction cols as [|cols IH]; [done|]. simpl. by rewrite IH. }
  induction rows as [|rows IH]; [done|].
  cbn [replicate concat]. rewrite filter_app, length_app, IH, Hrow. lia.
Qed.

Lemma empties_none (a : ndarray) :
  empties a = 0%nat → ∀ r c, cell a r c ≠ Some 0.
Proof.
  unfold empties. intros Hnone r c Hcell.
  destruct (cell_Some_nonneg _ _ _ _ Hcell) as [Hr Hc].
  rewrite cell_nonneg in Hcell by done.
  destruct (a !! Z.to_nat r) as [row|] eqn:Hrow; [|discriminate].
  simpl in Hcell.
  assert (0 ∈ List.filter (Z.eqb 0) (concat a)) as Hin.
  { apply list_elem_of_In, filter_In. split; [|done].
    apply in_concat. exists row. split; apply list_elem_of_In.
    - by eapply list_elem_of_lookup_2.
    - by eapply list_elem_of_lookup_2. }
  destruct (List.filter _ _); [inversion Hin|discriminate].
Qed.

(** ** Gomoku: the line check *)
Module GomokuLineFacts.
Import Gomoku GomokuLine MatchRunner.

Lemma gomoku_check_line_loop_spec (g : game) (a : ndarray) (dr dc id : Z) :
  has_shape (board_size g) (board_size g) a →
  ∀ (fuel : nat) (r c count : Z),
    0 ≤ count → (Z.to_nat (Z.of_nat (win_length g) - count) < fuel)%nat →
    ∃ b, check_line_loop fuel g a r c dr dc id count = Done b
         ∧ (b = true ↔
            ∀ i, 0 ≤ i < Z.max 1 (Z.of_nat (win_length g) - count) →
                 cell a (r + i * dr) (c + i * dc) = Some id).
Proof.
  intros Hs fuel. induction fuel as [|fuel IH]; intros r c count Hc Hfuel;
    [lia|].
  cbn [check_line_loop].
  destruct ((0 <=? r) && (r <? Z.of_nat (board_size g))
            && ((0 <=? c) && (c <? Z.of_nat (board_size g)))) eqn:Hin.
  - apply andb_prop in Hin as [Hr Hcol].
    apply andb_prop in Hr as [Hr0 Hr1]. apply andb_prop in Hcol as [Hc0 Hc1].
    apply Z.leb_le in Hr0, Hc0. apply Z.ltb_lt in Hr1, Hc1.
    destruct (has_shape_cell _ _ a r c Hs) as [v Hv]; [lia..|].
    pose proof Hv as Hget. apply np_get_cell in Hget; [|done..].
    rewrite Hget. destruct (Z.eqb_spec v id) as [->|Hne].
    + destruct (Z.leb_spec (Z.of_nat (win_length g)) (count + 1)) as [Hw|Hw].
      * exists true. split; [done|]. split; [|done]. intros _ i Hi.
        assert (i = 0) as -> by lia. by rewrite !Z.add_0_r.
      * destruct (IH (r + dr) (c + dc) (count + 1)) as (b & -> & Hiff);
          [lia..|].
        exists b. split; [done|]. rewrite Hiff. split.
        -- intros H i Hi. destruct (decide (i = 0)) as [->|Hi0].
           ++ by rewrite !Z.add_0_r.
           ++ specialize (H (i - 1) ltac:(lia)).
              by replace (r + dr + (i - 1) * dr) with (r + i * dr) in H by lia;
                replace (c + dc + (i - 1) * dc) with (c + i * dc) in H by lia.
        -- intros H i Hi. specialize (H (i + 1) ltac:(lia)).
           by replace (r + (i + 1) * dr) with (r + dr + i * dr) in H by lia;
             replace (c + (i + 1) * dc) with (c + dc + i * dc) in H by lia.
    + exists false. split; [done|]. split; [done|]. intros H.
      specialize (H 0 ltac:(lia)). rewrite !Z.add_0_r in H. congruence.
  - exists false. split; [done|]. split; [done|]. intros H.
    specialize (H 0 ltac:(lia)). rewrite !Z.add_0_r in H.
    apply (cell_in_shape _ _ _ _ _ _ Hs) in H.
    apply not_true_iff_false in Hin. destruct Hin.
    rewrite !andb_true_iff, !Z.leb_le, !Z.ltb_lt. lia.
Qed.

Lemma gomoku_check_line_run (g : game) (a : ndarray) (r c dr dc id : Z) :
  has_shape (board_size g) (board_size g) a →
  ∃ b, _check_line g a r c dr dc id = Done b
       ∧ (b = true ↔
          run_at a (Z.max 1 (Z.of_nat (win_length g))) id r c (dr, dc)).
Proof.
  intros Hs.
  destruct (gomoku_check_line_loop_spec g a dr dc id Hs (S (win_length g))
              r c 0) as (b & Hb & Hiff); [lia..|].
  exists b. split; [done|]. rewrite Hiff, Z.sub_0_r. done.
Qed.

End GomokuLineFacts.

(** X1.  [Gomoku._check_line] on a board of the game's size never raises and
    always returns: it answers true exactly when the [win_length] cells from
    the start cell along the direction (whatever its two steps are) are all
    on the board and hold the mark asked for; when [win_length] is 0 it
    still asks for the start cell itself. *)
Theorem gomoku_check_line_finds_run (g : Gomoku.game) (a : ndarray)
    (start_row start_col row_dir col_dir player_id : Z) :
  has_shape (Gomoku.board_size g) (Gomoku.board_size g) a →
  ∃ b, GomokuLine._check_line g a start_row start_col row_dir col_dir
                              player_id = MatchRunner.Done b
       ∧ (b = true ↔
          run_at a (Z.max 1 (Z.of_nat (Gomoku.win_length g))) player_id
                 start_row start_col (row_dir, col_dir)).
Proof. apply GomokuLineFacts.gomoku_check_line_run. Qed.

Lemma gomoku_check_line_finds_run_witness :
  has_shape 5 5 diagonal_win_board_5x5
  ∧ ∃ b, GomokuLine._check_line (Gomoku.Game 5 3) diagonal_win_board_5x5
                                0 0 1 1 1 = MatchRunner.Done b
         ∧ (b = true ↔ run_at diagonal_win_board_5x5 (Z.max 1 3) 1 0 0 (1, 1)).
Proof.
  split; [by apply shape_5x5|].
  apply (gomoku_check_line_finds_run (Gomoku.Game 5 3)). by apply shape_5x5.
Defined.

(** X2.  The win scan and the line check agree.  On a Gomoku board of the
    game's size, with a positive [win_length], [get_winner] names player
    [p] only if [_check_line] answers true for mark [p + 1] from some cell
    along one of the four directions, and whenever [_check_line] answers
    true for mark 1 or 2 along one of them, [get_winner] names a player. *)
Theorem gomoku_winner_agrees_with_check_line (g : Gomoku.game) (a : ndarray) :
  has_shape (Gomoku.board_size g) (Gomoku.board_size g) a →
  (0 < Gomoku.win_length g)%nat →
  (∀ p, Gomoku.get_winner g a = Ok (Some p) →
        ∃ r c d, d ∈ directions
                 ∧ GomokuLine._check_line g a r c d.1 d.2 (p + 1)
                   = MatchRunner.Done true)
  ∧ (∀ r c d id,
        id = 1 ∨ id = 2 → d ∈ directions →
        GomokuLine._check_line g a r c d.1 d.2 id = MatchRunner.Done true →
        ∃ p, Gomoku.get_winner g a = Ok (Some p)).
Proof.
  intros Hs Hw.
  destruct (GomokuScan.gomoku_get_winner_spec g a Hs) as (b1 & b2 & H1 & H2 & ->).
  assert (∀ r c d id,
             GomokuLine._check_line g a r c d.1 d.2 id = MatchRunner.Done true
             ↔ run_at a (Z.of_nat (Gomoku.win_length g)) id r c d) as Hline.
  { intros r c [dr dc] id.
    destruct (GomokuLineFacts.gomoku_check_line_run g a r c dr dc id Hs)
      as (b & Hb & Hiff).
    rewrite Z.max_r in Hiff by lia. cbn [fst snd]. rewrite Hb, <- Hiff.
    split; [by intros [= ->]|by intros ->]. }
  split.
  - intros p Hp.
    assert (has_run a (Z.of_nat (Gomoku.win_length g)) (p + 1))
      as (d & r & c & Hd & Hrun).
    { destruct b1; [injection Hp as <-; by apply H1|].
      destruct b2; [injection Hp as <-; by apply H2|discriminate]. }
    exists r, c, d. split; [done|]. by apply Hline.
  - intros r c d id Hid Hd Hcheck. apply Hline in Hcheck.
    assert (has_run a (Z.of_nat (Gomoku.win_length g)) id) as Hrun
      by (by exists d, r, c).
    destruct Hid as [-> | ->].
    + apply H1 in Hrun as ->. eauto.
    + apply H2 in Hrun as ->. destruct b1; eauto.
Qed.

Lemma gomoku_winner_agrees_with_check_line_witness :
  let g := Gomoku.Game 5 3 in
  (∀ p, Gomoku.get_winner g diagonal_win_board_5x5 = Ok (Some p) →
        ∃ r c d, d ∈ directions
                 ∧ GomokuLine._check_line g diagonal_win_board_5x5 r c d.1 d.2
                                          (p + 1)
                   = MatchRunner.Done true)
  ∧ (∀ r c d id,
        id = 1 ∨ id = 2 → d ∈ directions →
        GomokuLine._check_line g diagonal_win_board_5x5 r c d.1 d.2 id
        = MatchRunner.Done true →
        ∃ p, Gomoku.get_winner g diagonal_win_board_5x5 = Ok (Some p)).
Proof.
  apply (gomoku_winner_agrees_with_check_line (Gomoku.Game 5 3)).
  - by apply shape_5x5.
  - simpl. lia.
Defined.

(** ** Gomoku: what a move does to the board *)
Module GomokuMoves.
Import Gomoku GomokuFacts.

(** A stone that is placed goes to the cell asked for, which was empty. *)
Lemma gomoku_place_effect (g : game) (a b : ndarray) (row col p : Z) :
  place g a (row, col) p = Ok b →
  0 ≤ row < Z.of_nat (board_size g) ∧ 0 ≤ col < Z.of_nat (board_size g)
  ∧ -128 ≤ p + 1 ≤ 127
  ∧ ∃ cells, a !! Z.to_nat row = Some cells
             ∧ cells !! Z.to_nat col = Some 0
             ∧ b = <[Z.to_nat row := <[Z.to_nat col := p + 1]> cells]> a.
Proof.
  unfold place. destruct (negb _) eqn:Hin; [discriminate|].
  apply gomoku_in_bounds_test in Hin as [Hr Hc].
  destruct (np_get a row col) as [v|] eqn:Hget; [|discriminate]. simpl.
  destruct (Z.eqb_spec v 0) as [->|]; [|discriminate]. simpl. intros Hset.
  apply np_get_cell in Hget; [|lia..]. rewrite cell_nonneg in Hget by lia.
  destruct (a !! Z.to_nat row) as [cells|] eqn:Hrow; [|discriminate].
  simpl in Hget.
  unfold np_set in Hset.
  rewrite np_index_in_range in Hset
    by (apply lookup_lt_Some in Hrow; lia).
  rewrite (np_item_lookup a row cells) in Hset by (done || lia).
  simpl in Hset.
  rewrite np_index_in_range in Hset
    by (apply lookup_lt_Some in Hget; lia).
  simpl in Hset. unfold int8 in Hset.
  destruct (Z.leb_spec (-128) (p + 1)), (Z.leb_spec (p + 1) 127);
    simpl in Hset; try discriminate.
  injection Hset as <-. split_and!; try lia. by exists cells.
Qed.

Lemma gomoku_place_cells (g : game) (a b : ndarray) (row col p : Z) :
  place g a (row, col) p = Ok b →
  cell a row col = Some 0
  ∧ ∀ r c, cell b r c
           = if decide (r = row ∧ c = col) then Some (p + 1) else cell a r c.
Proof.
  intros (Hr & Hc & _ & cells & Hrow & Hcol & ->)%gomoku_place_effect.
  split; [rewrite cell_nonneg by lia; by rewrite Hrow|].
  intros r c. rewrite (cell_insert a _ _ cells)
    by (done || by apply lookup_lt_Some in Hcol).
  rewrite !Z2Nat.id by lia. done.
Qed.

Lemma gomoku_place_shape (g : game) (a b : ndarray) (mv : move) (p : Z)
    (rows cols : nat) :
  has_shape rows cols a → place g a mv p = Ok b → has_shape rows cols b.
Proof.
  intros Hs. destruct mv as [row col]. unfold place.
  destruct (negb _); [discriminate|].
  destruct (np_get a row col) as [v|]; [|discriminate]. simpl.
  destruct (negb _); [discriminate|]. by apply np_set_shape.
Qed.

Lemma gomoku_place_empties (g : game) (a b : ndarray) (mv : move) (p : Z) :
  place g a mv p = Ok b → p + 1 ≠ 0 → S (empties b) = empties a.
Proof.
  destruct mv as [row col].
  intros (_ & _ & _ & cells & Hrow & Hcol & ->)%gomoku_place_effect Hp.
  by apply empties_insert.
Qed.

End GomokuMoves.

(** X3.  A Gomoku move that is applied writes one cell: the cell asked for
    is on the board and was empty, it holds the mover's mark [player + 1]
    afterwards, every other cell keeps its value, and the board keeps its
    shape. *)
Theorem gomoku_make_move_writes_one_cell (g : Gomoku.game) (a b : ndarray)
    (row col player : Z) :
  Gomoku.apply_move g a (row, col) player = Ok b →
  0 ≤ row < Z.of_nat (Gomoku.board_size g)
  ∧ 0 ≤ col < Z.of_nat (Gomoku.board_size g)
  ∧ cell a row col = Some 0
  ∧ cell b row col = Some (player + 1)
  ∧ (∀ r c, (r, c) ≠ (row, col) → cell b r c = cell a r c)
  ∧ (∀ rows cols, has_shape rows cols a → has_shape rows cols b).
Proof.
  rewrite GomokuFacts.gomoku_apply_move_place. intros Hplace.
  destruct (GomokuMoves.gomoku_place_effect g a b row col player Hplace)
    as (Hr & Hc & _).
  destruct (GomokuMoves.gomoku_place_cells g a b row col player Hplace)
    as [Hempty Hcells].
  split_and!; try done; try lia.
  - rewrite Hcells. by case_decide; [|lia].
  - intros r c Hne. rewrite Hcells. case_decide as H; [|done].
    destruct H as [-> ->]. done.
  - intros rows cols Hs. by eapply GomokuMoves.gomoku_place_shape.
Qed.

Lemma gomoku_make_move_writes_one_cell_witness :
  Gomoku.apply_move (Gomoku.Game 5 3) horizontal_win_board_5x5 (1, 2) 1
  = Ok (<[1%nat := [0; 0; 2; 0; 0]]> horizontal_win_board_5x5)
  ∧ cell horizontal_win_board_5x5 1 2 = Some 0
  ∧ cell (<[1%nat := [0; 0; 2; 0; 0]]> horizontal_win_board_5x5) 1 2
    = Some (1 + 1).
Proof.
  assert (Gomoku.apply_move (Gomoku.Game 5 3) horizontal_win_board_5x5 (1, 2) 1
          = Ok (<[1%nat := [0; 0; 2; 0; 0]]> horizontal_win_board_5x5)) as H
    by (vm_compute; reflexivity).
  split; [exact H|].
  destruct (gomoku_make_move_writes_one_cell _ _ _ _ _ _ H)
    as (_ & _ & H1 & H2 & _).
  by split.
Defined.

(** X4.  Gomoku refuses the moves that are not legal, and only those.  An
    out-of-bounds coordinate is refused with the ValueError "Position (r, c)
    is out of bounds" before the array is read, a stone on an occupied cell
    with "Position (r, c) is already occupied"; in both cases the store
    holds the caller's array as it was, next to the copy that was made.  On
    a board of the game's size, and for a mark that fits an int8 cell,
    [make_move] returns exactly for the moves [get_legal_moves] lists. *)
Theorem gomoku_make_move_refuses_illegal (g : Gomoku.game) (h : heap)
    (l : loc) (a : ndarray) (row col player : Z) :
  h !! l = Some a →
  let n := Z.of_nat (Gomoku.board_size g) in
  (¬ (0 ≤ row < n ∧ 0 ≤ col < n) →
   Gomoku.make_move g l (row, col) player h
   = (Raise (ValueError (Gomoku.out_of_bounds_msg row col)), h ++ [a]))
  ∧ (∀ v, 0 ≤ row < n → 0 ≤ col < n → cell a row col = Some v → v ≠ 0 →
          Gomoku.make_move g l (row, col) player h
          = (Raise (ValueError (Gomoku.occupied_msg row col)), h ++ [a]))
  ∧ (∀ moves,
        has_shape (Gomoku.board_size g) (Gomoku.board_size g) a →
        -128 ≤ player + 1 ≤ 127 →
        Gomoku.get_legal_moves g a player = Ok moves →
        (row, col) ∈ moves
        ↔ ∃ b, Gomoku.make_move g l (row, col) player h
               = (Ok (length h), h ++ [b])).
Proof.
  intros Hl n. rewrite (GomokuFacts.gomoku_make_move_run g h l a) by done.
  split_and!.
  - intros Hout. by rewrite GomokuFacts.gomoku_place_out_of_bounds.
  - intros v Hr Hc Hcell Hv. unfold Gomoku.place.
    destruct (negb _) eqn:Hin.
    { apply not_false_iff_true in Hin. destruct Hin.
      by apply GomokuFacts.gomoku_in_bounds_test. }
    apply np_get_cell in Hcell; [|lia..]. rewrite Hcell. simpl.
    by destruct (Z.eqb_spec v 0).
  - intros moves Hs Hp Hmoves. split.
    + intros Hin.
      destruct (GomokuFacts.gomoku_place_legal g a player player moves
                  (row, col) Hmoves Hin Hp) as [b ->].
      by exists b.
    + intros [b Hb].
      destruct (Gomoku.place g a (row, col) player) as [b'|e] eqn:Hplace;
        [|discriminate].
      destruct (GomokuMoves.gomoku_place_effect g a b' row col player Hplace)
        as (Hr & Hc & _).
      destruct (GomokuMoves.gomoku_place_cells g a b' row col player Hplace)
        as [Hempty _].
      by apply (GomokuFacts.gomoku_legal_moves_elem g a player moves row col).
Qed.

Lemma gomoku_make_move_refuses_illegal_witness :
  Gomoku.make_move (Gomoku.Game 5 3) 0%nat (5, 0) 0 [horizontal_win_board_5x5]
  = (Raise (ValueError "Position (5, 0) is out of bounds"),
     [horizontal_win_board_5x5; horizontal_win_board_5x5])
  ∧ Gomoku.make_move (Gomoku.Game 5 3) 0%nat (2, 1) 1
                     [horizontal_win_board_5x5]
    = (Raise (ValueError "Position (2, 1) is already occupied"),
       [horizontal_win_board_5x5; horizontal_win_board_5x5]).
Proof.
  split.
  - apply (gomoku_make_move_refuses_illegal (Gomoku.Game 5 3)
             [horizontal_win_board_5x5] 0%nat horizontal_win_board_5x5
             5 0 0 eq_refl).
    simpl. lia.
  - apply (gomoku_make_move_refuses_illegal (Gomoku.Game 5 3)
             [horizontal_win_board_5x5] 0%nat horizontal_win_board_5x5
             2 1 1 eq_refl) with (v := 1);
      [simpl; lia|simpl; lia|reflexivity|lia].
Defined.

(** ** Gomoku: the list of legal moves *)

Lemma filter_res_filter {A} (p : A → result bool) (f : A → bool) (l : list A) :
  (∀ x, x ∈ l → p x = Ok (f x)) → filter_res p l = Ok (List.filter f l).
Proof.
  induction l as [|y l IH]; intros H; [done|]. cbn [filter_res List.filter].
  rewrite (H y) by left. simpl. rewrite IH by (intros x Hx; apply H; by right).
  simpl. by destruct (f y).
Qed.

Lemma filter_res_drops {A} `{EqDecision A} (p p' : A → result bool)
    (l xs : list A) (m : A) :
  filter_res p l = Ok xs →
  (∀ x, x ∈ l → p' x = if decide (x = m) then Ok false else p x) →
  filter_res p' l = Ok (filter (λ x, x ≠ m) xs).
Proof.
  revert xs. induction l as [|y l IH]; intros xs; cbn [filter_res].
  - by intros [= <-] _.
  - destruct (p y) as [b|] eqn:Hy; [|discriminate]. simpl.
    destruct (filter_res p l) as [ys|]; [|discriminate]. simpl.
    intros [= <-] H. rewrite (H y) by left.
    rewrite (IH ys eq_refl) by (intros x Hx; apply H; by right).
    destruct (decide (y = m)) as [->|Hne]; simpl.
    + destruct b; [|done]. rewrite filter_cons_False; [done|]. by intros ?.
    + rewrite Hy. simpl. destruct b; [|done]. by rewrite filter_cons_True.
Qed.

Lemma filter_res_sorted {A} (R : A → A → Prop) (p : A → result bool)
    (l xs : list A) :
  StronglySorted R l → filter_res p l = Ok xs → StronglySorted R xs.
Proof.
  intros Hsorted. revert xs.
  induction Hsorted as [|y l _ IH Hy]; intros xs; cbn [filter_res].
  - intros [= <-]. constructor.
  - destruct (p y) as [b|]; [|discriminate]. simpl.
    destruct (filter_res p l) as [ys|] eqn:Hys; [|discriminate]. simpl.
    intros [= <-]. destruct b; [|by apply IH].
    constructor; [by apply IH|].
    apply list.Forall_forall. intros x Hx.
    apply (filter_res_elem p l ys x Hys) in Hx as [Hx _].
    by apply (proj1 (list.Forall_forall _ _) Hy).
Qed.

Lemma range_sorted (m n : Z) : StronglySorted Z.lt (seqZ m n).
Proof.
  destruct (Z.le_gt_cases n 0) as [Hn|Hn].
  { rewrite seqZ_nil by done. constructor. }
  rewrite <- (Z2Nat.id n) by lia. generalize (Z.to_nat n) as k. clear.
  intros k. revert m. induction k as [|k IH]; intros m.
  { rewrite seqZ_nil by done. constructor. }
  rewrite seqZ_cons by lia. constructor.
  - replace (Z.pred (Z.of_nat (S k))) with (Z.of_nat k) by lia. apply IH.
  - apply list.Forall_forall. intros x Hx%elem_of_seqZ. lia.
Qed.

Lemma sorted_app {A} (R : A → A → Prop) (l1 l2 : list A) :
  (∀ x1 x2, x1 ∈ l1 → x2 ∈ l2 → R x1 x2) →
  StronglySorted R l1 → StronglySorted R l2 → StronglySorted R (l1 ++ l2).
Proof.
  intros Hcross H1 H2. induction H1 as [|x l1 _ IH Hx]; [done|].
  simpl. constructor.
  - apply IH. intros x1 x2 Hx1 Hx2. apply Hcross; [by right|done].
  - apply Forall_app. split; [done|].
    apply list.Forall_forall. intros y Hy. apply Hcross; [by left|done].
Qed.

Lemma grid_sorted (n m : Z) :
  StronglySorted row_major (r ← range n; c ← range m; [(r, c)]).
Proof.
  unfold range. pose proof (range_sorted 0 n) as Hrows.
  induction Hrows as [|r rows _ IH Hr]; [constructor|].
  rewrite bind_cons.
  assert (∀ cs, StronglySorted Z.lt cs →
                StronglySorted row_major (c ← cs; [(r, c)])) as Hrow.
  { intros cs Hcs. induction Hcs as [|c cs _ IHc Hc]; [constructor|].
    rewrite bind_cons. simpl. constructor; [exact IHc|].
    apply list.Forall_forall. intros [r' c'] Hin.
    apply list_elem_of_bind in Hin as (c'' & [= -> ->]%list_elem_of_singleton
                                       & Hc'').
    right. simpl. split; [done|].
    by apply (proj1 (list.Forall_forall _ _) Hc). }
  apply sorted_app; [|by apply Hrow, range_sorted|exact IH].
  intros [r1 c1] [r2 c2] H1 H2.
  apply list_elem_of_bind in H1 as (c' & [= -> ->]%list_elem_of_singleton & _).
  apply list_elem_of_bind in H2 as (r' & Hin & Hr').
  apply list_elem_of_bind in Hin as (c'' & [= -> ->]%list_elem_of_singleton
                                     & _).
  left. simpl. by apply (proj1 (list.Forall_forall _ _) Hr).
Qed.

Lemma bind_by_index {A B} (l : list A) (F : Z → list B) (G : A → list B) :
  (∀ j x, l !! j = Some x → F (Z.of_nat j) = G x) →
  (seqZ 0 (Z.of_nat (length l)) ≫= F) = l ≫= G.
Proof.
  induction l as [|x l IH] using rev_ind; intros H; [done|].
  rewrite length_app. cbn [length].
  replace (length l + 1)%nat with (S (length l)) by lia.
  rewrite seqZ_S, !bind_app, !bind_singleton. f_equal.
  - apply IH. intros j y Hj. apply H. by apply lookup_app_l_Some.
  - simpl. apply H. by apply list_lookup_middle.
Qed.

Lemma bind_singletons {A} (l : list A) : (l ≫= λ x, [x]) = l.
Proof. induction l as [|x l IH]; [done|]. rewrite bind_cons. simpl. by f_equal. Qed.

Lemma bind_rows {A} (a : list (list A)) : (a ≫= λ row, row) = concat a.
Proof. induction a as [|x a IH]; [done|]. rewrite bind_cons. simpl. by f_equal. Qed.

(** The cells of a board, read in the order of the enumeration of the
    coordinates. *)
Lemma grid_cells (rows cols : nat) (a : ndarray) :
  has_shape rows cols a →
  (r ← range (Z.of_nat rows); c ← range (Z.of_nat cols);
   [default 0 (cell a r c)]) = concat a.
Proof.
  intros [<- Hrows]. unfold range. rewrite <- bind_rows.
  apply bind_by_index. intros j cs Hcs.
  pose proof (Forall_lookup_1 _ _ _ _ Hrows Hcs) as Hlen. simpl in Hlen.
  rewrite <- Hlen. etransitivity; [|apply (bind_singletons cs)].
  apply bind_by_index. intros k v Hv. rewrite cell_nonneg by lia.
  rewrite !Nat2Z.id, Hcs. simpl. by rewrite Hv.
Qed.

Lemma filter_bind_length {A} (f : A → bool) (g : Z → bool) (h : A → Z)
    (l : list A) :
  (∀ x, f x = g (h x)) →
  length (List.filter f l) = length (List.filter g (l ≫= λ x, [h x])).
Proof.
  intros H. induction l as [|x l IH]; [done|].
  rewrite bind_cons. cbn [List.filter app]. rewrite H.
  destruct (g (h x)); simpl; by rewrite IH.
Qed.

Lemma bind_bind_pairs {B} (rs cs : list Z) (h : Z * Z → B) :
  ((r ← rs; c ← cs; [(r, c)]) ≫= λ x, [h x])
  = (r ← rs; c ← cs; [h (r, c)]).
Proof.
  induction rs as [|r rs IH]; [done|].
  rewrite !bind_cons, bind_app, IH. f_equal.
  clear. induction cs as [|c cs IH]; [done|].
  rewrite !bind_cons, bind_app, IH. done.
Qed.

Module GomokuLegal.
Import Gomoku GomokuFacts.

Lemma gomoku_legal_moves_filter (g : game) (a : ndarray) (player : Z) :
  has_shape (board_size g) (board_size g) a →
  get_legal_moves g a player
  = Ok (List.filter (λ m, default 0 (cell a m.1 m.2) =? 0)
          (r ← range (Z.of_nat (board_size g));
           c ← range (Z.of_nat (board_size g)); [(r, c)])).
Proof.
  intros Hs. unfold get_legal_moves. apply filter_res_filter.
  intros [r c] [Hr Hc]%elem_of_grid.
  destruct (has_shape_cell _ _ a r c Hs Hr Hc) as [v Hv].
  simpl. rewrite Hv. apply np_get_cell in Hv; [|lia..]. by rewrite Hv.
Qed.

Lemma gomoku_legal_moves_count (g : game) (a : ndarray) (player : Z)
    (moves : list move) :
  has_shape (board_size g) (board_size g) a →
  get_legal_moves g a player = Ok moves → length moves = empties a.
Proof.
  intros Hs. rewrite gomoku_legal_moves_filter by done. intros [= <-].
  unfold empties. rewrite <- (grid_cells _ _ a Hs).
  rewrite <- (bind_bind_pairs _ _ (λ m, default 0 (cell a m.1 m.2))).
  apply filter_bind_length. intros m. apply Z.eqb_sym.
Qed.

End GomokuLegal.

(** X5.  [Gomoku.get_legal_moves] on a board of the game's size lists the
    empty cells of the board and nothing else, each once, in row-major
    order (by row, then by column), whoever the player is; there are as
    many legal moves as empty cells. *)
Theorem gomoku_legal_moves_enumerate_empty_cells (g : Gomoku.game)
    (a : ndarray) (player : Z) :
  has_shape (Gomoku.board_size g) (Gomoku.board_size g) a →
  ∃ moves,
    Gomoku.get_legal_moves g a player = Ok moves
    ∧ (∀ r c, (r, c) ∈ moves ↔
              0 ≤ r < Z.of_nat (Gomoku.board_size g)
              ∧ 0 ≤ c < Z.of_nat (Gomoku.board_size g)
              ∧ cell a r c = Some 0)
    ∧ StronglySorted row_major moves
    ∧ length moves = empties a.
Proof.
  intros Hs.
  destruct (GomokuFacts.gomoku_legal_moves_total g a player Hs)
    as [moves Hmoves].
  exists moves. split_and!; [done| | |].
  - intros r c. by apply (GomokuFacts.gomoku_legal_moves_elem g a player).
  - eapply filter_res_sorted; [|exact Hmoves]. apply grid_sorted.
  - by apply (GomokuLegal.gomoku_legal_moves_count g a player).
Qed.

Lemma gomoku_legal_moves_enumerate_empty_cells_witness :
  has_shape 4 4 drawn_board_4x4
  ∧ ∃ moves,
      Gomoku.get_legal_moves (Gomoku.Game 4 3) drawn_board_4x4 0 = Ok moves
      ∧ (∀ r c, (r, c) ∈ moves ↔
                0 ≤ r < 4 ∧ 0 ≤ c < 4 ∧ cell drawn_board_4x4 r c = Some 0)
      ∧ StronglySorted row_major moves
      ∧ length moves = empties drawn_board_4x4.
Proof.
  split; [apply drawn_board_4x4_shape|].
  apply (gomoku_legal_moves_enumerate_empty_cells (Gomoku.Game 4 3)).
  apply drawn_board_4x4_shape.
Defined.

(** X6.  After a Gomoku move by a player whose mark is not 0, the legal
    moves of the new board are the legal moves of the old one without the
    move just played, in the same order. *)
Theorem gomoku_legal_moves_after_move (g : Gomoku.game) (a b : ndarray)
    (mv : Gomoku.move) (player q q' : Z) (moves : list Gomoku.move) :
  Gomoku.apply_move g a mv player = Ok b → player + 1 ≠ 0 →
  Gomoku.get_legal_moves g a q = Ok moves →
  Gomoku.get_legal_moves g b q' = Ok (filter (λ m, m ≠ mv) moves).
Proof.
  rewrite GomokuFacts.gomoku_apply_move_place. destruct mv as [row col].
  intros Hplace Hp Hmoves.
  destruct (GomokuMoves.gomoku_place_cells g a b row col player Hplace)
    as [_ Hcells].
  unfold Gomoku.get_legal_moves in *.
  apply (filter_res_drops _ _ _ _ (row, col) Hmoves).
  intros [r c] Hin. pose proof Hin as [Hr Hc]%elem_of_grid.
  destruct (filter_res_all_ok _ _ _ (r, c) Hmoves Hin) as [ok Hok].
  simpl in Hok.
  destruct (np_get a r c) as [v|] eqn:Hv; [|discriminate].
  apply np_get_cell in Hv; [|lia..].
  specialize (Hcells r c). rewrite Hv in Hcells.
  destruct (decide ((r, c) = (row, col))) as [Heq|Hne].
  - injection Heq as -> ->. rewrite decide_True in Hcells by done.
    apply np_get_cell in Hcells; [|lia..]. rewrite Hcells. simpl.
    by destruct (Z.eqb_spec (player + 1) 0).
  - rewrite decide_False in Hcells by (intros [-> ->]; done).
    apply np_get_cell in Hcells; [|lia..]. by rewrite Hcells, Hok.
Qed.

Lemma gomoku_legal_moves_after_move_witness :
  let g := Gomoku.Game 2 2 in
  Gomoku.apply_move g [[0; 1]; [0; 0]] (1, 0) 1 = Ok [[0; 1]; [2; 0]]
  ∧ Gomoku.get_legal_moves g [[0; 1]; [0; 0]] 1 = Ok [(0, 0); (1, 0); (1, 1)]
  ∧ Gomoku.get_legal_moves g [[0; 1]; [2; 0]] 0
    = Ok (filter (λ m, m ≠ (1, 0)) [(0, 0); (1, 0); (1, 1)]).
Proof.
  split; [vm_compute; reflexivity|]. split; [vm_compute; reflexivity|].
  apply (gomoku_legal_moves_after_move (Gomoku.Game 2 2) [[0; 1]; [0; 0]]
           [[0; 1]; [2; 0]] (1, 0) 1 1 0);
    [vm_compute; reflexivity|lia|vm_compute; reflexivity].
Defined.

(** ** Connect4: what a move does to the board *)
Module Connect4Moves.
Import Connect4 Connect4Facts.

Lemma connect4_rows_down (k : nat) :
  reverse (range (Z.of_nat (S k))) = Z.of_nat k :: reverse (range (Z.of_nat k)).
Proof. unfold range. by rewrite seqZ_S, reverse_snoc. Qed.

(** The gravity loop writes the lowest cell of the column that is empty, or
    leaves the board as it is when the column has none. *)
Lemma connect4_fall_rows (a b : ndarray) (mv p : Z) (k : nat) :
  fall a mv p (reverse (range (Z.of_nat k))) = Ok b →
  (b = a ∧ ∀ r, 0 ≤ r < Z.of_nat k → ∃ v, np_get a r mv = Ok v ∧ v ≠ 0)
  ∨ ∃ r, 0 ≤ r < Z.of_nat k ∧ np_get a r mv = Ok 0
         ∧ (∀ r', r < r' < Z.of_nat k → ∃ v, np_get a r' mv = Ok v ∧ v ≠ 0)
         ∧ np_set a r mv (p + 1) = Ok b.
Proof.
  induction k as [|k IH].
  - intros [= <-]. left. split; [done|]. intros r Hr. lia.
  - rewrite connect4_rows_down. cbn [fall].
    destruct (np_get a (Z.of_nat k) mv) as [v|] eqn:Hv; [|discriminate].
    simpl. destruct (Z.eqb_spec v 0) as [->|Hne].
    + intros Hset. right. exists (Z.of_nat k). split_and!; try done; lia.
    + intros [[-> Hfull]|(r & Hr & Hget & Hbelow & Hset)]%IH.
      * left. split; [done|]. intros r Hr.
        destruct (decide (r = Z.of_nat k)) as [->|]; [eauto|].
        apply Hfull. lia.
      * right. exists r. split_and!; try done; try lia.
        intros r' Hr'. destruct (decide (r' = Z.of_nat k)) as [->|]; [eauto|].
        apply Hbelow. lia.
Qed.

(** A read in a row of the board, at a column index that may be negative. *)
Lemma np_get_wrapped (rows cols : nat) (a : ndarray) (r mv v : Z) :
  has_shape rows cols a → 0 ≤ r →
  np_get a r mv = Ok v ↔
  ∃ j, np_index cols mv = Ok j ∧ cell a r (Z.of_nat j) = Some v.
Proof.
  intros [Hlen Hrows] Hr. unfold np_get. split.
  - destruct (np_item a r) as [cells|] eqn:Hcells; [|discriminate]. simpl.
    apply np_item_Ok_nonneg in Hcells as [Hcells _]; [|done].
    pose proof (Forall_lookup_1 _ _ _ _ Hrows Hcells) as Hc. simpl in Hc.
    intros (j & Hj & Hv)%np_item_Ok_lookup. rewrite Hc in Hj.
    exists j. split; [done|]. rewrite cell_nonneg, Nat2Z.id by lia.
    by rewrite Hcells.
  - intros (j & Hj & Hv). rewrite cell_nonneg, Nat2Z.id in Hv by lia.
    destruct (a !! Z.to_nat r) as [cells|] eqn:Hcells; [|discriminate].
    pose proof (Forall_lookup_1 _ _ _ _ Hrows Hcells) as Hc. simpl in Hc, Hv.
    rewrite (np_item_lookup a r cells) by done. simpl.
    unfold np_item. rewrite Hc, Hj. simpl. by rewrite Hv.
Qed.

Lemma np_index_wraps (n : nat) (i : Z) (j : nat) :
  np_index n i = Ok j →
  (0 ≤ i < Z.of_nat n ∧ Z.of_nat j = i)
  ∨ (- Z.of_nat n ≤ i < 0 ∧ Z.of_nat j = i + Z.of_nat n).
Proof.
  unfold np_index.
  destruct (Z.leb_spec 0 i), (Z.ltb_spec i (Z.of_nat n)); simpl;
    try (intros [= <-]; left; lia);
    destruct (Z.leb_spec (- Z.of_nat n) i), (Z.ltb_spec i 0); simpl;
    try discriminate; intros [= <-]; right; lia.
Qed.

(** The two outcomes of a move that returns, on a board of the game's
    shape: nothing is written, or the mark goes to the lowest empty cell of
    the column; [j] is the column the index stands for. *)
Lemma connect4_place_cases (g : game) (a b : ndarray) (mv p : Z) :
  has_shape (rows g) (cols g) a → place g a mv p = Ok b →
  (b = a
   ∧ (rows g = 0%nat
      ∨ ∃ j, np_index (cols g) mv = Ok j
             ∧ ∀ r, 0 ≤ r < Z.of_nat (rows g) →
                    cell a r (Z.of_nat j) ≠ Some 0))
  ∨ ∃ j r cells,
      np_index (cols g) mv = Ok j ∧ 0 ≤ r < Z.of_nat (rows g)
      ∧ (∀ r', r < r' < Z.of_nat (rows g) → cell a r' (Z.of_nat j) ≠ Some 0)
      ∧ -128 ≤ p + 1 ≤ 127
      ∧ a !! Z.to_nat r = Some cells ∧ cells !! j = Some 0
      ∧ b = <[Z.to_nat r := <[j := p + 1]> cells]> a.
Proof.
  intros Hs Hplace. unfold place in Hplace.
  apply connect4_fall_rows in Hplace
    as [[-> Hfull]|(r & Hr & Hget & Hbelow & Hset)].
  - left. split; [done|].
    destruct (rows g) as [|k] eqn:Hk; [by left|]. right.
    destruct (Hfull 0) as (v0 & Hv0 & _); [lia|].
    apply (np_get_wrapped _ _ _ _ _ _ Hs) in Hv0 as (j & Hj & _); [|lia].
    exists j. split; [done|]. intros r Hr Hcell.
    destruct (Hfull r Hr) as (v & Hv & Hne).
    apply (np_get_wrapped _ _ _ _ _ _ Hs) in Hv as (j' & Hj' & Hv); [|lia].
    rewrite Hj in Hj'. injection Hj' as <-. congruence.
  - right.
    apply (np_get_wrapped _ _ _ _ _ _ Hs) in Hget as (j & Hj & Hcell); [|lia].
    rewrite cell_nonneg, Nat2Z.id in Hcell by lia.
    destruct (a !! Z.to_nat r) as [cells|] eqn:Hcells; [|discriminate].
    simpl in Hcell.
    pose proof (np_set_Ok_inv _ _ _ _ _ Hset) as (_ & _ & _ & _ & _ & Hp & _).
    exists j, r, cells. split_and!; try done; try lia.
    + intros r' Hr' Hc. destruct (Hbelow r' Hr') as (v & Hv & Hne).
      apply (np_get_wrapped _ _ _ _ _ _ Hs) in Hv as (j' & Hj' & Hv); [|lia].
      rewrite Hj in Hj'. injection Hj' as <-. congruence.
    + destruct Hs as [_ Hrows].
      pose proof (Forall_lookup_1 _ _ _ _ Hrows Hcells) as Hlen.
      simpl in Hlen. unfold np_set in Hset.
      rewrite np_index_in_range in Hset
        by (apply lookup_lt_Some in Hcells; lia).
      rewrite (np_item_lookup a r cells) in Hset by (done || lia).
      simpl in Hset. rewrite Hlen, Hj in Hset. simpl in Hset.
      destruct (int8 (p + 1)) as [w|] eqn:Hw; [|discriminate].
      simpl in Hset. injection Hset as <-. unfold int8 in Hw.
      destruct (_ && _); [|discriminate]. by injection Hw as <-.
Qed.

(** A move that returns changes at most one cell, which was empty. *)
Lemma connect4_place_cells (g : game) (a b : ndarray) (mv p : Z) :
  has_shape (rows g) (cols g) a → place g a mv p = Ok b →
  ∀ r c, cell b r c = cell a r c
         ∨ (cell a r c = Some 0 ∧ cell b r c = Some (p + 1)).
Proof.
  intros Hs Hplace r c.
  destruct (connect4_place_cases g a b mv p Hs Hplace)
    as [[-> _]|(j & r0 & cells & Hj & Hr0 & _ & _ & Hcells & Hcol & ->)];
    [by left|].
  rewrite (cell_insert a _ _ cells)
    by (done || by apply lookup_lt_Some in Hcol).
  case_decide as Heq; [|by left]. destruct Heq as [-> ->]. right.
  split; [|done]. rewrite cell_nonneg, !Nat2Z.id by lia.
  by rewrite Hcells.
Qed.

Lemma connect4_place_shape (g : game) (a b : ndarray) (mv p : Z)
    (rows cols : nat) :
  has_shape rows cols a → place g a mv p = Ok b → has_shape rows cols b.
Proof.
  intros Hs. unfold place. generalize (reverse (range (Z.of_nat (Connect4.rows g)))).
  intros todo. induction todo as [|row todo IH]; cbn [fall].
  - by intros [= <-].
  - destruct (np_get a row mv) as [v|]; [|discriminate]. simpl.
    destruct (v =? 0); [|done]. by apply np_set_shape.
Qed.

(** A legal column has room: the move writes one empty cell. *)
Lemma connect4_place_legal_cell (g : game) (a b : ndarray) (mv p q : Z)
    (moves : list move) :
  has_shape (rows g) (cols g) a → (0 < rows g)%nat →
  get_legal_moves g a q = Ok moves → mv ∈ moves → place g a mv p = Ok b →
  ∃ r cells,
    0 ≤ r < Z.of_nat (rows g)
    ∧ (∀ r', r < r' < Z.of_nat (rows g) → cell a r' mv ≠ Some 0)
    ∧ a !! Z.to_nat r = Some cells ∧ cells !! Z.to_nat mv = Some 0
    ∧ b = <[Z.to_nat r := <[Z.to_nat mv := p + 1]> cells]> a.
Proof.
  intros Hs Hrows Hmoves Hin Hplace.
  apply (connect4_legal_moves_elem g a q moves mv Hmoves) in Hin as [Hmv Htop].
  destruct (connect4_place_cases g a b mv p Hs Hplace)
    as [[_ [?|(j & Hj & Hfull)]]
       |(j & r & cells & Hj & Hr & Hbelow & _ & Hcells & Hcol & ->)];
    [lia| |].
  - apply np_index_nonneg in Hj as ->; [|lia]. destruct (Hfull 0); [lia|].
    by rewrite Z2Nat.id by lia.
  - apply np_index_nonneg in Hj as ->; [|lia].
    rewrite Z2Nat.id in Hbelow by lia. by exists r, cells.
Qed.

Lemma connect4_place_empties (g : game) (a b : ndarray) (mv p q : Z)
    (moves : list move) :
  has_shape (rows g) (cols g) a → (0 < rows g)%nat →
  get_legal_moves g a q = Ok moves → mv ∈ moves → place g a mv p = Ok b →
  p + 1 ≠ 0 → S (empties b) = empties a.
Proof.
  intros Hs Hrows Hmoves Hin Hplace Hp.
  destruct (connect4_place_legal_cell g a b mv p q moves)
    as (r & cells & _ & _ & Hcells & Hcol & ->); try done.
  by apply empties_insert.
Qed.

End Connect4Moves.

(** X7.  A Connect4 piece lands on the lowest empty cell of its column.  On
    a board of the game's shape, for a column of the board in which the
    cell of row [r] is empty and no cell below it is, [make_move] returns a
    board that holds the mover's mark [player + 1] in that cell and equals
    the old board everywhere else. *)
Theorem connect4_make_move_lands_on_lowest_empty (g : Connect4.game)
    (a : ndarray) (mv player r : Z) :
  has_shape (Connect4.rows g) (Connect4.cols g) a →
  0 ≤ mv < Z.of_nat (Connect4.cols g) → -128 ≤ player + 1 ≤ 127 →
  cell a r mv = Some 0 →
  (∀ r', r < r' < Z.of_nat (Connect4.rows g) → cell a r' mv ≠ Some 0) →
  ∃ b, Connect4.apply_move g a mv player = Ok b
       ∧ cell b r mv = Some (player + 1)
       ∧ ∀ r' c', (r', c') ≠ (r, mv) → cell b r' c' = cell a r' c'.
Proof.
  intros Hs Hmv Hp Hempty Hbelow.
  rewrite Connect4Facts.connect4_apply_move_place.
  destruct (Connect4Facts.connect4_place_in_range g a mv player Hs Hmv Hp)
    as [b Hb].
  exists b. split; [done|].
  destruct (cell_in_shape _ _ _ _ _ _ Hs Hempty) as [Hr _].
  destruct (Connect4Moves.connect4_place_cases g a b mv player Hs Hb)
    as [[_ [?|(j & Hj & Hfull)]]
       |(j & r0 & cells & Hj & Hr0 & Hbelow0 & _ & Hcells & Hcol & ->)].
  - lia.
  - apply np_index_nonneg in Hj as ->; [|lia]. rewrite Z2Nat.id in Hfull by lia.
    by destruct (Hfull r).
  - apply np_index_nonneg in Hj as ->; [|lia].
    rewrite Z2Nat.id in Hbelow0 by lia.
    assert (cell a r0 mv = Some 0) as Hr0cell.
    { rewrite cell_nonneg by lia. by rewrite Hcells. }
    assert (r0 = r) as ->.
    { destruct (Z.lt_trichotomy r0 r) as [Hlt|[?|Hgt]]; [|done|].
      - by destruct (Hbelow0 r ltac:(lia)).
      - by destruct (Hbelow r0 ltac:(lia)). }
    assert (∀ r' c',
               cell (<[Z.to_nat r := <[Z.to_nat mv := player + 1]> cells]> a)
                    r' c'
               = if decide (r' = r ∧ c' = mv) then Some (player + 1)
                 else cell a r' c') as Hb'.
    { intros r' c'. rewrite (cell_insert a _ _ cells)
        by (done || by apply lookup_lt_Some in Hcol).
      by rewrite !Z2Nat.id by lia. }
    split.
    + rewrite Hb'. by rewrite decide_True.
    + intros r' c' Hne. rewrite Hb'. rewrite decide_False; [done|].
      intros [-> ->]. done.
Qed.

Lemma connect4_make_move_lands_on_lowest_empty_witness :
  has_shape 6 7 column0_full
  ∧ cell column0_full 5 3 = Some 0
  ∧ ∃ b, Connect4.apply_move (Connect4.Game 6 7 4) column0_full 3 1 = Ok b
         ∧ cell b 5 3 = Some (1 + 1)
         ∧ ∀ r' c', (r', c') ≠ (5, 3) → cell b r' c' = cell column0_full r' c'.
Proof.
  assert (has_shape 6 7 column0_full) as Hs
    by (split; [done|by repeat constructor]).
  split; [exact Hs|]. split; [reflexivity|].
  apply (connect4_make_move_lands_on_lowest_empty (Connect4.Game 6 7 4));
    [exact Hs|simpl; lia|lia|reflexivity|simpl; intros r' Hr'; lia].
Defined.

(** X8.  A full Connect4 column is accepted in silence.  On a board of the
    game's shape with at least one row, a column of the board without empty
    cell is not among the legal moves, and yet [make_move] for it returns
    normally for every player, with a new array equal to the old one, which
    is left in the store as it was. *)
Theorem connect4_full_column_returns_copy (g : Connect4.game) (h : heap)
    (l : loc) (a : ndarray) (mv player : Z) :
  h !! l = Some a →
  has_shape (Connect4.rows g) (Connect4.cols g) a →
  (0 < Connect4.rows g)%nat → 0 ≤ mv < Z.of_nat (Connect4.cols g) →
  (∀ r, 0 ≤ r < Z.of_nat (Connect4.rows g) → cell a r mv ≠ Some 0) →
  Connect4.make_move g l mv player h = (Ok (length h), h ++ [a])
  ∧ ∃ moves, Connect4.get_legal_moves g a player = Ok moves ∧ mv ∉ moves.
Proof.
  intros Hl Hs Hrows Hmv Hfull. split.
  - rewrite (Connect4Facts.connect4_make_move_run g h l a) by done.
    assert (Connect4.place g a mv player = Ok a) as ->; [|done].
    unfold Connect4.place.
    assert (∀ row, row ∈ reverse (range (Z.of_nat (Connect4.rows g))) →
                   ∃ v, np_get a row mv = Ok v ∧ v ≠ 0) as Hread.
    { intros row Hrow%elem_of_reverse%elem_of_range.
      destruct (has_shape_cell _ _ a row mv Hs) as [v Hv]; [lia..|].
      exists v. split; [apply np_get_cell; (lia || done)|].
      intros ->. by destruct (Hfull row). }
    induction (reverse (range (Z.of_nat (Connect4.rows g)))) as [|row todo IH];
      [done|].
    cbn [Connect4.fall]. destruct (Hread row) as (v & -> & Hv); [by left|].
    simpl. destruct (Z.eqb_spec v 0); [done|].
    apply IH. intros r Hr. apply Hread. by right.
  - destruct (Connect4Facts.connect4_legal_moves_total g a player Hs Hrows)
      as [moves Hmoves].
    exists moves. split; [done|].
    intros Hin.
    apply (Connect4Facts.connect4_legal_moves_elem g a player moves mv Hmoves)
      in Hin as [_ Htop].
    by destruct (Hfull 0 ltac:(lia)).
Qed.

Lemma connect4_full_column_returns_copy_witness :
  Connect4.make_move (Connect4.Game 6 7 4) 0%nat 0 1 [column0_full]
  = (Ok 1%nat, [column0_full; column0_full])
  ∧ ∃ moves,
      Connect4.get_legal_moves (Connect4.Game 6 7 4) column0_full 1 = Ok moves
      ∧ 0 ∉ moves.
Proof.
  apply (connect4_full_column_returns_copy (Connect4.Game 6 7 4)
           [column0_full] 0%nat column0_full 0 1 eq_refl).
  - split; [done|by repeat constructor].
  - simpl. lia.
  - simpl. lia.
  - simpl. intros r Hr.
    assert (r = 0 ∨ r = 1 ∨ r = 2 ∨ r = 3 ∨ r = 4 ∨ r = 5) as Hcases by lia.
    by destruct Hcases as [->|[->|[->|[->|[->| ->]]]]].
Defined.

(** *** Column indices off the board *)

Lemma np_index_wrap_eq (n : nat) (i : Z) :
  - Z.of_nat n ≤ i < 0 → np_index n i = np_index n (i + Z.of_nat n).
Proof.
  intros Hi. unfold np_index.
  destruct (Z.leb_spec 0 i); [lia|]. simpl.
  destruct (Z.leb_spec (- Z.of_nat n) i); [|lia].
  destruct (Z.ltb_spec i 0); [|lia]. simpl.
  destruct (Z.leb_spec 0 (i + Z.of_nat n)); [|lia].
  by destruct (Z.ltb_spec (i + Z.of_nat n) (Z.of_nat n)); [|lia].
Qed.

Lemma np_index_off (n : nat) (i : Z) :
  Z.of_nat n ≤ i ∨ i < - Z.of_nat n → np_index n i = Raise IndexError.
Proof.
  intros Hi. unfold np_index.
  destruct (Z.leb_spec 0 i), (Z.ltb_spec i (Z.of_nat n)); simpl; try lia;
    destruct (Z.leb_spec (- Z.of_nat n) i), (Z.ltb_spec i 0); simpl;
    try lia; done.
Qed.

Module Connect4Columns.
Import Connect4 Connect4Facts.

Lemma connect4_row_length (rows cols : nat) (a : ndarray) (row : Z)
    (cells : list Z) :
  has_shape rows cols a → np_item a row = Ok cells → length cells = cols.
Proof.
  intros [_ Hrows] (k & _ & Hk)%np_item_Ok_lookup.
  by apply (Forall_lookup_1 _ _ _ _ Hrows Hk).
Qed.

Lemma connect4_fall_wraps (rows cols : nat) (a : ndarray) (mv p : Z)
    (todo : list Z) :
  has_shape rows cols a → - Z.of_nat cols ≤ mv < 0 →
  fall a mv p todo = fall a (mv + Z.of_nat cols) p todo.
Proof.
  intros Hs Hmv. induction todo as [|row todo IH]; [done|]. cbn [fall].
  assert (np_get a row mv = np_get a row (mv + Z.of_nat cols)) as <-.
  { unfold np_get. destruct (np_item a row) as [cells|] eqn:Hcells; [|done].
    simpl. unfold np_item.
    rewrite (connect4_row_length rows cols a row cells) by done.
    by rewrite np_index_wrap_eq. }
  destruct (np_get a row mv) as [v|]; [|done]. simpl.
  destruct (v =? 0); [|exact IH].
  unfold np_set. destruct (np_index (length a) row); [|done]. simpl.
  destruct (np_item a row) as [cells|] eqn:Hcells; [|done]. simpl.
  rewrite (connect4_row_length rows cols a row cells) by done.
  by rewrite np_index_wrap_eq.
Qed.

Lemma connect4_place_wraps (g : game) (a : ndarray) (mv p : Z) :
  has_shape (rows g) (cols g) a → - Z.of_nat (cols g) ≤ mv < 0 →
  place g a mv p = place g a (mv + Z.of_nat (cols g)) p.
Proof. intros Hs Hmv. by apply (connect4_fall_wraps (rows g) (cols g)). Qed.

Lemma connect4_place_off_board (g : game) (a : ndarray) (mv p : Z) :
  has_shape (rows g) (cols g) a → (0 < rows g)%nat →
  Z.of_nat (cols g) ≤ mv ∨ mv < - Z.of_nat (cols g) →
  place g a mv p = Raise IndexError.
Proof.
  intros Hs Hrows Hoff. unfold place.
  destruct (rows g) as [|k] eqn:Hk; [lia|].
  rewrite Connect4Moves.connect4_rows_down. cbn [fall].
  destruct (has_shape_row _ _ a k Hs) as (cells & Hcells & Hlen); [lia|].
  unfold np_get. rewrite (np_item_lookup a (Z.of_nat k) cells)
    by (lia || by rewrite Nat2Z.id).
  simpl. unfold np_item. by rewrite Hlen, np_index_off.
Qed.

End Connect4Columns.

(** X9.  A Connect4 column index that is off the board is not refused as
    an invalid move.  On a board of the game's shape, a negative index from
    [-cols] on counts from the right: the move is the one of column
    [mv + cols].  With at least one row, an index of [cols] or more, or
    below [-cols], raises the IndexError of the array access; with no row
    at all, every index is accepted. *)
Theorem connect4_column_index_wraps_or_raises (g : Connect4.game)
    (a : ndarray) (mv player : Z) :
  has_shape (Connect4.rows g) (Connect4.cols g) a →
  let cols := Z.of_nat (Connect4.cols g) in
  (- cols ≤ mv < 0 →
   Connect4.apply_move g a mv player
   = Connect4.apply_move g a (mv + cols) player)
  ∧ ((0 < Connect4.rows g)%nat → cols ≤ mv ∨ mv < - cols →
     Connect4.apply_move g a mv player = Raise IndexError)
  ∧ (Connect4.rows g = 0%nat → Connect4.apply_move g a mv player = Ok a).
Proof.
  intros Hs cols. rewrite !Connect4Facts.connect4_apply_move_place.
  split_and!.
  - intros Hmv. by apply Connect4Columns.connect4_place_wraps.
  - intros Hrows Hoff. by apply Connect4Columns.connect4_place_off_board.
  - unfold Connect4.place. by intros ->.
Qed.

Lemma connect4_column_index_wraps_or_raises_witness :
  let g := Connect4.Game 6 7 4 in
  has_shape 6 7 column0_full
  ∧ Connect4.apply_move g column0_full (-1) 0
    = Connect4.apply_move g column0_full (-1 + 7) 0
  ∧ Connect4.apply_move g column0_full 7 0 = Raise IndexError.
Proof.
  assert (has_shape 6 7 column0_full) as Hs
    by (split; [done|by repeat constructor]).
  destruct (connect4_column_index_wraps_or_raises (Connect4.Game 6 7 4)
              column0_full (-1) 0 Hs) as (Hwrap & _ & _).
  destruct (connect4_column_index_wraps_or_raises (Connect4.Game 6 7 4)
              column0_full 7 0 Hs) as (_ & Hraise & _).
  split; [exact Hs|]. split.
  - apply Hwrap. simpl. lia.
  - apply Hraise; simpl; lia.
Defined.

(** *** Gravity *)
Module Connect4Gravity.
Import Connect4 Connect4Facts.

Lemma connect4_zeros_settled (rows cols : nat) : settled (np_zeros rows cols).
Proof.
  intros r c Hcell r' Hr'.
  destruct (cell_in_shape _ _ _ _ _ _ (np_zeros_shape rows cols) Hcell)
    as [Hr Hc].
  destruct (has_shape_cell _ _ _ r' c (np_zeros_shape rows cols)) as [v Hv];
    [lia..|].
  by rewrite Hv, (np_zeros_cell _ _ _ _ _ Hv).
Qed.

Lemma connect4_place_settled (g : game) (a b : ndarray) (mv p : Z) :
  has_shape (rows g) (cols g) a → p + 1 ≠ 0 → settled a →
  place g a mv p = Ok b → settled b.
Proof.
  intros Hs Hp Ha Hplace.
  destruct (Connect4Moves.connect4_place_cases g a b mv p Hs Hplace)
    as [[-> _]|(j & r0 & cells & Hj & Hr0 & Hbelow & _ & Hcells & Hcol & ->)];
    [done|].
  assert (∀ r c,
             cell (<[Z.to_nat r0 := <[j := p + 1]> cells]> a) r c
             = if decide (r = r0 ∧ c = Z.of_nat j) then Some (p + 1)
               else cell a r c) as Hb.
  { intros r c. rewrite (cell_insert a _ _ cells)
      by (done || by apply lookup_lt_Some in Hcol).
    by rewrite !Z2Nat.id by lia. }
  intros r c Hcell r' Hr'. rewrite Hb in Hcell. rewrite Hb.
  destruct (decide (r = r0 ∧ c = Z.of_nat j)) as [_|Hne];
    [by injection Hcell|].
  destruct (cell_in_shape _ _ _ _ _ _ Hs Hcell) as [Hr Hc].
  destruct (decide (r' = r0 ∧ c = Z.of_nat j)) as [[-> ->]|Hne'].
  - by destruct (Hbelow r ltac:(lia)).
  - by apply (Ha r c).
Qed.

Lemma connect4_reachable_valid (g : game) (a : ndarray) :
  reachable g a → valid_board (rows g) (cols g) a.
Proof.
  induction 1 as [|a b mv p _ IH Hp Hmv]; [apply np_zeros_valid|].
  rewrite connect4_apply_move_place in Hmv.
  by apply (connect4_place_valid g a b mv p).
Qed.

Lemma connect4_reachable_settled (g : game) (a : ndarray) :
  reachable g a → settled a.
Proof.
  induction 1 as [|a b mv p Hreach IH Hp Hmv]; [apply connect4_zeros_settled|].
  rewrite connect4_apply_move_place in Hmv.
  apply (connect4_place_settled g a b mv p); try done.
  - by apply connect4_reachable_valid.
  - lia.
Qed.

End Connect4Gravity.

(** X10.  Gravity is an invariant of Connect4.  In every position reached
    from [reset] by [make_move] calls that returned, for players 0 and 1
    and whatever the column indices were, no empty cell lies below a piece:
    above an empty cell the column is empty. *)
Theorem connect4_reachable_positions_are_settled (g : Connect4.game)
    (a : ndarray) :
  Connect4.reachable g a →
  ∀ r c, cell a r c = Some 0 → ∀ r', 0 ≤ r' < r → cell a r' c = Some 0.
Proof. apply Connect4Gravity.connect4_reachable_settled. Qed.

Lemma connect4_reachable_positions_are_settled_witness :
  Connect4.reachable (Connect4.Game 2 2 2) [[0; 0]; [1; 2]]
  ∧ ∀ r c, cell [[0; 0]; [1; 2]] r c = Some 0 →
           ∀ r', 0 ≤ r' < r → cell [[0; 0]; [1; 2]] r' c = Some 0.
Proof.
  assert (Connect4.reachable (Connect4.Game 2 2 2) [[0; 0]; [1; 2]]) as H.
  { apply (Connect4.reach_move _ [[0; 0]; [1; 0]] _ 1 1);
      [|by right|vm_compute; reflexivity].
    apply (Connect4.reach_move _ [[0; 0]; [0; 0]] _ 0 0);
      [|by left|vm_compute; reflexivity].
    apply Connect4.reach_reset. }
  split; [exact H|].
  apply (connect4_reachable_positions_are_settled (Connect4.Game 2 2 2)), H.
Defined.

(** X11.  In a reachable Connect4 position a column is legal exactly when
    it has room: [get_legal_moves], which only looks at the top row, lists
    the columns of the board that hold an empty cell somewhere. *)
Theorem connect4_legal_iff_column_has_room (g : Connect4.game) (a : ndarray)
    (player : Z) :
  Connect4.reachable g a → (0 < Connect4.rows g)%nat →
  ∃ moves,
    Connect4.get_legal_moves g a player = Ok moves
    ∧ ∀ c, c ∈ moves ↔
           0 ≤ c < Z.of_nat (Connect4.cols g) ∧ ∃ r, cell a r c = Some 0.
Proof.
  intros Hreach Hrows.
  pose proof (Connect4Gravity.connect4_reachable_valid g a Hreach) as [Hs _].
  pose proof (Connect4Gravity.connect4_reachable_settled g a Hreach) as Hset.
  destruct (Connect4Facts.connect4_legal_moves_total g a player Hs Hrows)
    as [moves Hmoves].
  exists moves. split; [done|]. intros c.
  rewrite (Connect4Facts.connect4_legal_moves_elem g a player moves c Hmoves).
  split.
  - intros [Hc Htop]. split; [done|]. by exists 0.
  - intros [Hc [r Hr]]. split; [done|].
    destruct (cell_in_shape _ _ _ _ _ _ Hs Hr) as [Hr0 _].
    destruct (decide (r = 0)) as [->|Hne]; [done|].
    apply (Hset r c Hr 0). lia.
Qed.

Lemma connect4_legal_iff_column_has_room_witness :
  Connect4.reachable (Connect4.Game 2 2 2) (Connect4.reset (Connect4.Game 2 2 2))
  ∧ ∃ moves,
      Connect4.get_legal_moves (Connect4.Game 2 2 2)
                               (Connect4.reset (Connect4.Game 2 2 2)) 0
      = Ok moves
      ∧ ∀ c, c ∈ moves ↔
             0 ≤ c < 2
             ∧ ∃ r, cell (Connect4.reset (Connect4.Game 2 2 2)) r c = Some 0.
Proof.
  split; [apply Connect4.reach_reset|].
  apply (connect4_legal_iff_column_has_room (Connect4.Game 2 2 2));
    [apply Connect4.reach_reset|simpl; lia].
Defined.

(** ** Both games: winners and finished games across a move *)

Lemma has_run_kept (a b : ndarray) (w mark : Z) :
  (∀ r c, cell a r c = Some mark → cell b r c = Some mark) →
  has_run a w mark → has_run b w mark.
Proof.
  intros Hkeep (d & r & c & Hd & Hrun). exists d, r, c. split; [done|].
  intros i Hi. by apply Hkeep, Hrun.
Qed.

Lemma gomoku_move_adds_mark (g : Gomoku.game) (a b : ndarray)
    (mv : Gomoku.move) (p : Z) :
  Gomoku.apply_move g a mv p = Ok b → one_mark_added a b (p + 1).
Proof.
  rewrite GomokuFacts.gomoku_apply_move_place. destruct mv as [row col].
  intros [Hempty Hcells]%GomokuMoves.gomoku_place_cells r c.
  rewrite Hcells. case_decide as Heq; [|by left].
  destruct Heq as [-> ->]. by right.
Qed.

Lemma connect4_move_adds_mark (g : Connect4.game) (a b : ndarray)
    (mv : Connect4.move) (p : Z) :
  has_shape (Connect4.rows g) (Connect4.cols g) a →
  Connect4.apply_move g a mv p = Ok b → one_mark_added a b (p + 1).
Proof.
  rewrite Connect4Facts.connect4_apply_move_place.
  intros Hs Hplace r c. by apply (Connect4Moves.connect4_place_cells g a b mv p).
Qed.

Lemma runs_of_other_mark (a b : ndarray) (w mark other : Z) :
  one_mark_added a b mark → other ≠ mark →
  has_run b w other → has_run a w other.
Proof.
  intros Hadd Hne. apply has_run_kept. intros r c Hb.
  destruct (Hadd r c) as [Heq|[_ Hnew]]; congruence.
Qed.

Lemma runs_persist (a b : ndarray) (w mark other : Z) :
  one_mark_added a b mark → other ≠ 0 →
  has_run a w other → has_run b w other.
Proof.
  intros Hadd Hne. apply has_run_kept. intros r c Ha.
  destruct (Hadd r c) as [Heq|[Hempty _]]; congruence.
Qed.

(** The winner after a move, from the results of the scans before and
    after it. *)
Lemma winner_after_move (a b : ndarray) (w p : Z) (b1 b2 b1' b2' : bool) :
  one_mark_added a b (p + 1) → p = 0 ∨ p = 1 →
  (b1 = true ↔ has_run a w 1) → (b2 = true ↔ has_run a w 2) →
  (b1' = true ↔ has_run b w 1) → (b2' = true ↔ has_run b w 2) →
  (if b1 then Some 0 else if b2 then Some 1 else None) = @None Z →
  let after := if b1' then Some 0 else if b2' then Some 1 else None in
  after = None ∨ after = Some p.
Proof.
  intros Hadd Hp H1 H2 H1' H2' Hnone.
  destruct b1; [discriminate|]. destruct b2; [discriminate|].
  destruct Hp as [-> | ->]; simpl.
  - destruct b1'; [by right|]. destruct b2'; [|by left].
    assert (has_run a w 2) as Hrun
      by (apply (runs_of_other_mark a b w (0 + 1)); [done|lia|by apply H2']).
    apply H2 in Hrun. discriminate.
  - destruct b1'.
    + assert (has_run a w 1) as Hrun
        by (apply (runs_of_other_mark a b w (1 + 1)); [done|lia|by apply H1']).
      apply H1 in Hrun. discriminate.
    + destruct b2'; [by right|by left].
Qed.

Lemma gomoku_winner_after_move (g : Gomoku.game) (a b : ndarray)
    (mv : Gomoku.move) (p : Z) :
  has_shape (Gomoku.board_size g) (Gomoku.board_size g) a →
  p = 0 ∨ p = 1 → Gomoku.get_winner g a = Ok None →
  Gomoku.apply_move g a mv p = Ok b →
  Gomoku.get_winner g b = Ok None ∨ Gomoku.get_winner g b = Ok (Some p).
Proof.
  intros Hs Hp Hnone Hmove.
  pose proof (gomoku_move_adds_mark g a b mv p Hmove) as Hadd.
  assert (has_shape (Gomoku.board_size g) (Gomoku.board_size g) b) as Hsb.
  { rewrite GomokuFacts.gomoku_apply_move_place in Hmove.
    by apply (GomokuMoves.gomoku_place_shape g a b mv p). }
  destruct (GomokuScan.gomoku_get_winner_spec g a Hs)
    as (b1 & b2 & H1 & H2 & Hw).
  destruct (GomokuScan.gomoku_get_winner_spec g b Hsb)
    as (b1' & b2' & H1' & H2' & ->).
  rewrite Hw in Hnone. injection Hnone as Hnone.
  destruct (winner_after_move a b _ p b1 b2 b1' b2' Hadd Hp H1 H2 H1' H2'
              Hnone) as [-> | ->]; [by left|by right].
Qed.

Lemma connect4_winner_after_move (g : Connect4.game) (a b : ndarray)
    (mv : Connect4.move) (p : Z) :
  has_shape (Connect4.rows g) (Connect4.cols g) a →
  p = 0 ∨ p = 1 → Connect4.get_winner g a = Ok None →
  Connect4.apply_move g a mv p = Ok b →
  Connect4.get_winner g b = Ok None ∨ Connect4.get_winner g b = Ok (Some p).
Proof.
  intros Hs Hp Hnone Hmove.
  pose proof (connect4_move_adds_mark g a b mv p Hs Hmove) as Hadd.
  assert (has_shape (Connect4.rows g) (Connect4.cols g) b) as Hsb.
  { rewrite Connect4Facts.connect4_apply_move_place in Hmove.
    by apply (Connect4Moves.connect4_place_shape g a b mv p). }
  destruct (Connect4Scan.connect4_get_winner_spec g a Hs)
    as (b1 & b2 & H1 & H2 & Hw).
  destruct (Connect4Scan.connect4_get_winner_spec g b Hsb)
    as (b1' & b2' & H1' & H2' & ->).
  rewrite Hw in Hnone. injection Hnone as Hnone.
  destruct (winner_after_move a b _ p b1 b2 b1' b2' Hadd Hp H1 H2 H1' H2'
              Hnone) as [-> | ->]; [by left|by right].
Qed.

(** X12.  Only the mover can win.  In both games, when a board of the
    game's shape has no winner and player 0 or 1 makes a move that is
    applied, [get_winner] on the new board names that player or nobody. *)
Theorem only_the_mover_can_win :
  (∀ (g : Gomoku.game) (a b : ndarray) (mv : Gomoku.move) (p : Z),
      has_shape (Gomoku.board_size g) (Gomoku.board_size g) a →
      p = 0 ∨ p = 1 → Gomoku.get_winner g a = Ok None →
      Gomoku.apply_move g a mv p = Ok b →
      Gomoku.get_winner g b = Ok None ∨ Gomoku.get_winner g b = Ok (Some p))
  ∧ (∀ (g : Connect4.game) (a b : ndarray) (mv : Connect4.move) (p : Z),
       has_shape (Connect4.rows g) (Connect4.cols g) a →
       p = 0 ∨ p = 1 → Connect4.get_winner g a = Ok None →
       Connect4.apply_move g a mv p = Ok b →
       Connect4.get_winner g b = Ok None
       ∨ Connect4.get_winner g b = Ok (Some p)).
Proof.
  split.
  - apply gomoku_winner_after_move.
  - apply connect4_winner_after_move.
Qed.

Lemma only_the_mover_can_win_witness :
  (Gomoku.get_winner (Gomoku.Game 2 2) [[0; 1]; [0; 0]] = Ok None
   ∧ Gomoku.apply_move (Gomoku.Game 2 2) [[0; 1]; [0; 0]] (1, 1) 0
     = Ok [[0; 1]; [0; 1]]
   ∧ (Gomoku.get_winner (Gomoku.Game 2 2) [[0; 1]; [0; 1]] = Ok None
      ∨ Gomoku.get_winner (Gomoku.Game 2 2) [[0; 1]; [0; 1]] = Ok (Some 0)))
  ∧ (Connect4.get_winner (Connect4.Game 2 2 2) [[0; 0]; [0; 2]] = Ok None
     ∧ Connect4.apply_move (Connect4.Game 2 2 2) [[0; 0]; [0; 2]] 1 1
       = Ok [[0; 2]; [0; 2]]
     ∧ (Connect4.get_winner (Connect4.Game 2 2 2) [[0; 2]; [0; 2]] = Ok None
        ∨ Connect4.get_winner (Connect4.Game 2 2 2) [[0; 2]; [0; 2]]
          = Ok (Some 1))).
Proof.
  destruct only_the_mover_can_win as [Hgomoku Hconnect4].
  split; (split; [vm_compute; reflexivity|]);
    (split; [vm_compute; reflexivity|]).
  - apply (Hgomoku (Gomoku.Game 2 2) [[0; 1]; [0; 0]] _ (1, 1) 0);
      [split; [done|by repeat constructor]|by left|vm_compute; reflexivity
      |vm_compute; reflexivity].
  - apply (Hconnect4 (Connect4.Game 2 2 2) [[0; 0]; [0; 2]] _ 1 1);
      [split; [done|by repeat constructor]|by right|vm_compute; reflexivity
      |vm_compute; reflexivity].
Defined.

Lemma terminal_after_move {Move} (a b : ndarray) (w mark : Z)
    (b1 b2 b1' b2' : bool) (legal legal' : result (list Move)) :
  one_mark_added a b mark →
  (b1 = true ↔ has_run a w 1) → (b2 = true ↔ has_run a w 2) →
  (b1' = true ↔ has_run b w 1) → (b2' = true ↔ has_run b w 2) →
  (legal = Ok [] → legal' = Ok []) →
  (w' <- Ok (if b1 then Some 0 else if b2 then Some 1 else None) ;;
   match w' with
   | Some _ => Ok true
   | None => ms <- legal ;; Ok (Nat.eqb (length ms) 0)
   end) = Ok true →
  (w' <- Ok (if b1' then Some 0 else if b2' then Some 1 else None) ;;
   match w' with
   | Some _ => Ok true
   | None => ms <- legal' ;; Ok (Nat.eqb (length ms) 0)
   end) = Ok true.
Proof.
  intros Hadd H1 H2 H1' H2' Hlegal. simpl.
  assert (b1 = true → b1' = true) as Hb1.
  { intros Hb. apply H1'. apply (runs_persist a b w mark); [done|lia|].
    by apply H1. }
  assert (b2 = true → b2' = true) as Hb2.
  { intros Hb. apply H2'. apply (runs_persist a b w mark); [done|lia|].
    by apply H2. }
  destruct b1; [by rewrite Hb1|]. destruct b2.
  { rewrite Hb2 by done. by destruct b1'. }
  destruct legal as [ms|]; [|discriminate]. simpl.
  destruct ms; [|discriminate]. intros _. rewrite Hlegal by done.
  destruct b1'; [done|]. by destruct b2'.
Qed.

(** X13.  A finished game stays finished.  [make_move] does not look at
    whether the game is over; but in both games, on a board of the game's
    shape for which [is_terminal] answers true, every move that is applied
    leads to a board for which it answers true again. *)
Theorem finished_game_stays_finished :
  (∀ (g : Gomoku.game) (a b : ndarray) (mv : Gomoku.move) (p : Z),
      has_shape (Gomoku.board_size g) (Gomoku.board_size g) a →
      Gomoku.is_terminal g a = Ok true →
      Gomoku.apply_move g a mv p = Ok b →
      Gomoku.is_terminal g b = Ok true)
  ∧ (∀ (g : Connect4.game) (a b : ndarray) (mv : Connect4.move) (p : Z),
       has_shape (Connect4.rows g) (Connect4.cols g) a →
       Connect4.is_terminal g a = Ok true →
       Connect4.apply_move g a mv p = Ok b →
       Connect4.is_terminal g b = Ok true).
Proof.
  split.
  - intros g a b mv p Hs Hterm Hmove.
    pose proof (gomoku_move_adds_mark g a b mv p Hmove) as Hadd.
    rewrite GomokuFacts.gomoku_apply_move_place in Hmove.
    pose proof (GomokuMoves.gomoku_place_shape g a b mv p _ _ Hs Hmove) as Hsb.
    destruct (GomokuScan.gomoku_get_winner_spec g a Hs)
      as (b1 & b2 & H1 & H2 & Hw).
    destruct (GomokuScan.gomoku_get_winner_spec g b Hsb)
      as (b1' & b2' & H1' & H2' & Hw').
    unfold Gomoku.is_terminal in *. rewrite Hw in Hterm. rewrite Hw'.
    apply (terminal_after_move a b (Z.of_nat (Gomoku.win_length g)) (p + 1)
             b1 b2 b1' b2' (Gomoku.get_legal_moves g a 0)); try done.
    intros Hnone. exfalso. destruct mv as [row col].
    destruct (GomokuMoves.gomoku_place_effect g a b row col p Hmove)
      as (Hr & Hc & _).
    destruct (GomokuMoves.gomoku_place_cells g a b row col p Hmove)
      as [Hempty _].
    assert ((row, col) ∈ @nil Gomoku.move) as Hin
      by (by apply (GomokuFacts.gomoku_legal_moves_elem g a 0 [] row col)).
    inversion Hin.
  - intros g a b mv p Hs Hterm Hmove.
    pose proof (connect4_move_adds_mark g a b mv p Hs Hmove) as Hadd.
    rewrite Connect4Facts.connect4_apply_move_place in Hmove.
    pose proof (Connect4Moves.connect4_place_shape g a b mv p _ _ Hs Hmove)
      as Hsb.
    destruct (Connect4Scan.connect4_get_winner_spec g a Hs)
      as (b1 & b2 & H1 & H2 & Hw).
    destruct (Connect4Scan.connect4_get_winner_spec g b Hsb)
      as (b1' & b2' & H1' & H2' & Hw').
    unfold Connect4.is_terminal in *. rewrite Hw in Hterm. rewrite Hw'.
    apply (terminal_after_move a b (Z.of_nat (Connect4.win_length g)) (p + 1)
             b1 b2 b1' b2' (Connect4.get_legal_moves g a 0)); try done.
    intros Hnone. unfold Connect4.get_legal_moves in *.
    assert (∀ c, c ∈ range (Z.of_nat (Connect4.cols g)) →
                 ∃ v, np_get a 0 c = Ok v ∧ v ≠ 0 ∧ np_get b 0 c = Ok v)
      as Htop.
    { intros c Hc.
      destruct (filter_res_all_ok _ _ _ c Hnone Hc) as [ok Hok].
      destruct (np_get a 0 c) as [v|] eqn:Hv; [|discriminate].
      exists v. split; [done|]. pose proof Hc as Hin%elem_of_range.
      assert (v ≠ 0) as Hne.
      { intros ->.
        assert (c ∈ @nil Z) as Hnil.
        { apply (filter_res_elem _ _ _ c Hnone). split; [done|].
          by rewrite Hv. }
        inversion Hnil. }
      split; [done|].
      apply np_get_cell in Hv; [|lia..]. apply np_get_cell; [lia..|].
      destruct (Hadd 0 c) as [Heq|[Hempty _]]; congruence. }
    revert Htop. generalize (range (Z.of_nat (Connect4.cols g))).
    intros cs Htop. induction cs as [|c cs IH]; [done|].
    cbn [filter_res]. destruct (Htop c) as (v & _ & Hne & ->); [by left|].
    simpl. rewrite IH by (intros c' Hc'; apply Htop; by right).
    simpl. by destruct (Z.eqb_spec v 0).
Qed.

Lemma finished_game_stays_finished_witness :
  (Gomoku.is_terminal (Gomoku.Game 5 3) horizontal_win_board_5x5 = Ok true
   ∧ Gomoku.apply_move (Gomoku.Game 5 3) horizontal_win_board_5x5 (0, 0) 1
     = Ok (<[0%nat := [2; 0; 0; 0; 0]]> horizontal_win_board_5x5)
   ∧ Gomoku.is_terminal (Gomoku.Game 5 3)
       (<[0%nat := [2; 0; 0; 0; 0]]> horizontal_win_board_5x5) = Ok true)
  ∧ (Connect4.is_terminal (Connect4.Game 2 2 2) [[0; 0]; [1; 1]] = Ok true
     ∧ Connect4.apply_move (Connect4.Game 2 2 2) [[0; 0]; [1; 1]] 0 1
       = Ok [[2; 0]; [1; 1]]
     ∧ Connect4.is_terminal (Connect4.Game 2 2 2) [[2; 0]; [1; 1]] = Ok true).
Proof.
  destruct finished_game_stays_finished as [Hgomoku Hconnect4].
  split; (split; [vm_compute; reflexivity|]);
    (split; [vm_compute; reflexivity|]).
  - apply (Hgomoku (Gomoku.Game 5 3) horizontal_win_board_5x5 _ (0, 0) 1);
      [by apply shape_5x5|vm_compute; reflexivity|vm_compute; reflexivity].
  - apply (Hconnect4 (Connect4.Game 2 2 2) [[0; 0]; [1; 1]] _ 0 1);
      [split; [done|by repeat constructor]|vm_compute; reflexivity
      |vm_compute; reflexivity].
Defined.

(** ** Matches between arbitrary agents *)
Module MatchFacts.
Import MatchRunner.

Section any_agents.
Context {G : generator} {State Move AState : Type} `{EqDecision Move}.
Context (clock : nat → Q) (game : Game State Move).
Context (agents : list (Agent G State Move AState)).
Context (I : State → Prop).
Context (Hlaw : lawful game I) (HG : well_behaved G).
Context (Hseats : Z.of_nat (length agents) = num_players game).

(** No agent sits in the seat after the last one: the runs of any agents
    are the runs in which that seat is the one always rejected. *)
Lemma nobody_always_illegal :
  always_illegal game agents I (length agents).
Proof.
  intros a ast rng0 s p l Ha. apply lookup_lt_Some in Ha. lia.
Qed.

Local Abbreviation sound := (sound game agents I (length agents)).

Lemma history_turn (max_moves : Z) (r r' : run) (first : State) :
  sound r → turn_to clock game agents max_moves r r' →
  Forall I (states_history r) → states_history r !! 0%nat = Some first →
  Forall I (states_history r') ∧ states_history r' !! 0%nat = Some first.
Proof.
  intros Hs Hturn Hall Hfirst.
  destruct (RunnerFacts.sound_turn clock game agents I (length agents) Hlaw
              nobody_always_illegal max_moves r r' Hs Hturn) as [Hs' _].
  pose proof (snd_state _ _ _ _ _ Hs') as Hnew.
  destruct Hturn; cbn [states_history state] in *; [done|..];
    (split; [apply Forall_app; split; [done|by constructor]
            |by apply lookup_app_l_Some]).
Qed.

Lemma history_loop (fuel : nat) (max_moves : Z) (r r' : run) (first : State) :
  sound r → run_loop clock game agents fuel max_moves r = Done r' →
  Forall I (states_history r) → states_history r !! 0%nat = Some first →
  sound r' ∧ Forall I (states_history r')
  ∧ states_history r' !! 0%nat = Some first.
Proof.
  revert r. induction fuel as [|fuel IH]; intros r Hs; [discriminate|].
  cbn [run_loop].
  destruct (turn clock game agents max_moves r) as [r1|r1|e] eqn:Hturn;
    [| |discriminate].
  - apply RunnerFacts.turn_continue in Hturn. intros Hloop Hall Hfirst.
    destruct (history_turn max_moves r r1 first Hs Hturn Hall Hfirst)
      as [Hall1 Hfirst1].
    destruct (RunnerFacts.sound_turn clock game agents I (length agents) Hlaw
                nobody_always_illegal max_moves r r1 Hs Hturn) as [Hs1 _].
    by apply (IH r1).
  - intros [= <-]. by apply RunnerFacts.turn_stop in Hturn as [-> _].
Qed.

(** A match of a lawful game between any agents runs to completion. *)
Lemma match_completes (fuel : nat) (max_moves : Z)
    (agent_states0 : list AState) (rng0 : gen_state G) :
  0 ≤ max_moves → length agent_states0 = length agents →
  (Z.to_nat max_moves < fuel)%nat →
  ∃ res r,
    run_match clock game agents fuel max_moves agent_states0 rng0
    = Done (res, r)
    ∧ get_winner game (state r) = Ok (res_winner res)
    ∧ I (state r)
    ∧ 0 ≤ move_count r ≤ max_moves
    ∧ (is_terminal game (state r) = Ok true
       ∨ is_terminal game (state r) = Ok false ∧ move_count r = max_moves)
    ∧ (∃ past, states_history r = past ++ [state r]
               ∧ Z.of_nat (length past) = move_count r
               ∧ Forall (λ s, is_terminal game s = Ok false) past)
    ∧ legal_chain game (states_history r)
    ∧ Forall I (states_history r)
    ∧ states_history r !! 0%nat = Some (reset game).
Proof.
  intros Hcap Hlen Hfuel.
  pose proof (RunnerFacts.sound_start game agents I (length agents) Hlaw
                agent_states0 rng0 Hlen) as Hs0.
  destruct (RunnerFacts.sound_loop clock game agents I (length agents) Hlaw HG
              Hseats nobody_always_illegal fuel max_moves
              (start game agents agent_states0 rng0) Hs0)
    as (r & Hloop & _ & Hend & Hle); [simpl; by rewrite Z.sub_0_r|].
  destruct (history_loop fuel max_moves _ r (reset game) Hs0 Hloop)
    as (Hs & Hall & Hfirst);
    [by repeat constructor; apply (law_reset _ _ Hlaw)|done|].
  destruct (law_winner _ _ Hlaw (state r) (snd_state _ _ _ _ _ Hs))
    as [w Hw].
  unfold run_match. rewrite Hloop, Hw. eexists _, _. split; [done|].
  cbn [state move_count states_history result_of res_winner].
  simpl in Hle. destruct Hs as [HI Hcount _ _ Hhist Hchain _ _].
  split_and!; try done; try lia.
  destruct Hend as [?|[? ?]]; [by left|right; split; [done|lia]].
Qed.

(** Along a chain of legal moves a measure that every legal move lowers by
    one counts the moves. *)
Lemma chain_measure (measure : State → nat) (history : list State) :
  (∀ s p l m s', I s → 0 ≤ p < num_players game →
                 get_legal_moves game s p = Ok l → m ∈ l →
                 make_move game s m p = Ok s' →
                 S (measure s') = measure s) →
  legal_chain game history → Forall I history →
  history !! 0%nat = Some (reset game) →
  ∀ j s, history !! j = Some s →
         (measure s + j)%nat = measure (reset game).
Proof.
  intros Hstep Hchain Hall Hfirst j. induction j as [|j IH]; intros s Hj.
  - rewrite Hfirst in Hj. injection Hj as <-. lia.
  - destruct (lookup_lt_is_Some_2 history j) as [s0 Hs0];
      [apply lookup_lt_Some in Hj; lia|].
    destruct (Hchain j s0 s Hs0 Hj) as (l & m & Hl & Hin & Hmove).
    pose proof (Forall_lookup_1 _ _ _ _ Hall Hs0) as HI.
    pose proof (Z.mod_pos_bound (Z.of_nat j) (num_players game)
                  (law_players _ _ Hlaw)) as Hp.
    pose proof (Hstep s0 _ l m s HI Hp Hl Hin Hmove).
    specialize (IH s0 Hs0). lia.
Qed.

End any_agents.
End MatchFacts.

(** *** The two games *)

Lemma gomoku_move_fills_a_cell (g : Gomoku.game) (s s' : ndarray) (p : Z)
    (l : list Gomoku.move) (m : Gomoku.move) :
  valid_board (Gomoku.board_size g) (Gomoku.board_size g) s →
  0 ≤ p < num_players (gomoku g) →
  get_legal_moves (gomoku g) s p = Ok l → m ∈ l →
  make_move (gomoku g) s m p = Ok s' → S (empties s') = empties s.
Proof.
  intros _ Hp _ _ Hmove. cbn [gomoku make_move] in Hmove.
  rewrite GomokuFacts.gomoku_apply_move_place in Hmove.
  apply (GomokuMoves.gomoku_place_empties g s s' m p Hmove). lia.
Qed.

Lemma connect4_move_fills_a_cell (g : Connect4.game) (s s' : ndarray) (p : Z)
    (l : list Connect4.move) (m : Connect4.move) :
  (0 < Connect4.rows g)%nat →
  valid_board (Connect4.rows g) (Connect4.cols g) s →
  0 ≤ p < num_players (connect4 g) →
  get_legal_moves (connect4 g) s p = Ok l → m ∈ l →
  make_move (connect4 g) s m p = Ok s' → S (empties s') = empties s.
Proof.
  intros Hrows [Hs _] Hp Hl Hin Hmove.
  cbn [connect4 make_move get_legal_moves] in Hmove, Hl.
  rewrite Connect4Facts.connect4_apply_move_place in Hmove.
  apply (Connect4Moves.connect4_place_empties g s s' m p p l); try done. lia.
Qed.

(** The facts about a finished match that hold for both games, from the
    measure of the empty cells. *)
Lemma match_fills_the_board {G : generator} {Move AState : Type}
    `{EqDecision Move} (clock : nat → Q) (game : Game ndarray Move)
    (agents : list (Agent G ndarray Move AState)) (rows cols : nat)
    (fuel : nat) (max_moves : Z) (agent_states0 : list AState)
    (rng0 : gen_state G) :
  MatchRunner.lawful game (valid_board rows cols) →
  well_behaved G → Z.of_nat (length agents) = num_players game →
  reset game = np_zeros rows cols →
  (∀ s p l m s', valid_board rows cols s → 0 ≤ p < num_players game →
                 get_legal_moves game s p = Ok l → m ∈ l →
                 make_move game s m p = Ok s' → S (empties s') = empties s) →
  (∀ s p l m, get_legal_moves game s p = Ok l → m ∈ l →
              ∃ r c, cell s r c = Some 0) →
  0 ≤ max_moves → length agent_states0 = length agents →
  (Z.to_nat max_moves < fuel)%nat →
  ∃ res r,
    MatchRunner.run_match clock game agents fuel max_moves agent_states0 rng0
    = MatchRunner.Done (res, r)
    ∧ fills_the_board game (rows * cols) max_moves r.
Proof.
  intros Hlaw HG Hseats Hreset Hstep Hroom Hcap Hlen Hfuel.
  destruct (MatchFacts.match_completes clock game agents _ Hlaw HG Hseats
              fuel max_moves agent_states0 rng0 Hcap Hlen Hfuel)
    as (res & r & Hrun & _ & HI & Hcount & Hend & (past & Hhist & Hpast & _)
        & Hchain & Hall & Hfirst).
  exists res, r. split; [done|].
  pose proof (MatchFacts.chain_measure game agents _ Hlaw empties _ Hstep Hchain Hall
                Hfirst) as Hmeasure.
  rewrite Hreset, empties_zeros in Hmeasure.
  assert (MatchRunner.states_history r !! Z.to_nat (MatchRunner.move_count r)
          = Some (MatchRunner.state r)) as Hlast.
  { rewrite Hhist, <- Hpast, Nat2Z.id. by apply list_lookup_middle. }
  pose proof (Hmeasure _ _ Hlast) as Hfinal.
  split_and!; try done; try lia.
  intros Hcells. destruct Hend as [?|[Hgoes Hmax]]; [done|]. exfalso.
  assert (empties (MatchRunner.state r) = 0%nat) as Hnone by lia.
  destruct (MatchRunner.law_legal _ _ Hlaw (MatchRunner.state r) 0 HI)
    as (l & Hl & Hne).
  destruct l as [|m l]; [by apply Hne|].
  destruct (Hroom _ _ _ m Hl) as (r0 & c0 & Hcell); [by left|].
  by apply (empties_none _ Hnone r0 c0).
Qed.

(** X14.  A match fills the board one cell per turn, whatever the agents
    answer.  For Gomoku and for Connect4 (with at least one row), between
    any two agents, [run_match] returns for every cap; the snapshot of index
    [j] in [states_history] has exactly [j] cells filled; the turns consumed
    are at most the number of cells of the board; and when the cap is at
    least that number, the final state is terminal. *)
Theorem any_match_fills_the_board :
  (∀ (G : generator) (AState : Type) (clock : nat → Q) (g : Gomoku.game)
     (agents : list (Agent G ndarray Gomoku.move AState)) (fuel : nat)
     (max_moves : Z) (agent_states0 : list AState) (rng0 : gen_state G),
      well_behaved G → length agents = 2%nat →
      length agent_states0 = 2%nat → 0 ≤ max_moves →
      (Z.to_nat max_moves < fuel)%nat →
      ∃ res r,
        MatchRunner.run_match clock (gomoku g) agents fuel max_moves
                              agent_states0 rng0
        = MatchRunner.Done (res, r)
        ∧ fills_the_board (gomoku g)
            (Gomoku.board_size g * Gomoku.board_size g) max_moves r)
  ∧ (∀ (G : generator) (AState : Type) (clock : nat → Q) (g : Connect4.game)
       (agents : list (Agent G ndarray Connect4.move AState)) (fuel : nat)
       (max_moves : Z) (agent_states0 : list AState) (rng0 : gen_state G),
        well_behaved G → (0 < Connect4.rows g)%nat →
        length agents = 2%nat → length agent_states0 = 2%nat →
        0 ≤ max_moves → (Z.to_nat max_moves < fuel)%nat →
        ∃ res r,
          MatchRunner.run_match clock (connect4 g) agents fuel max_moves
                                agent_states0 rng0
          = MatchRunner.Done (res, r)
          ∧ fills_the_board (connect4 g)
              (Connect4.rows g * Connect4.cols g) max_moves r).
Proof.
  split.
  - intros G AState clock g agents fuel max_moves as0 rng0 HG Hagents Has0
      Hcap Hfuel.
    apply match_fills_the_board; try done.
    + apply gomoku_lawful.
    + by rewrite Hagents.
    + intros s p l m s'. apply gomoku_move_fills_a_cell.
    + intros s p l [r c] Hl Hin. exists r, c.
      by apply (GomokuFacts.gomoku_legal_moves_elem g s p l r c Hl).
    + by rewrite Hagents.
  - intros G AState clock g agents fuel max_moves as0 rng0 HG Hrows Hagents
      Has0 Hcap Hfuel.
    apply match_fills_the_board; try done.
    + by apply connect4_lawful.
    + by rewrite Hagents.
    + intros s p l m s'. by apply connect4_move_fills_a_cell.
    + intros s p l c Hl Hin. exists 0, c.
      by apply (Connect4Facts.connect4_legal_moves_elem g s p l c Hl).
    + by rewrite Hagents.
Qed.

Lemma any_match_fills_the_board_witness :
  (∃ res r,
      MatchRunner.run_match sample_clock (gomoku (Gomoku.Game 5 3))
                            [off_board; off_board] 26 25 [0%nat; 0%nat]
                            (Mersenne.seed 42)
      = MatchRunner.Done (res, r)
      ∧ fills_the_board (gomoku (Gomoku.Game 5 3)) (5 * 5) 25 r)
  ∧ (∃ res r,
        MatchRunner.run_match sample_clock (connect4 (Connect4.Game 6 7 4))
                              [off_columns; off_columns] 43 42 [0%nat; 0%nat]
                              (Mersenne.seed 42)
        = MatchRunner.Done (res, r)
        ∧ fills_the_board (connect4 (Connect4.Game 6 7 4)) (6 * 7) 42 r).
Proof.
  destruct any_match_fills_the_board as [Hgomoku Hconnect4]. split.
  - apply (Hgomoku mersenne nat sample_clock (Gomoku.Game 5 3)
             [off_board; off_board] 26%nat 25 [0%nat; 0%nat]
             (Mersenne.seed 42) mersenne_well_behaved);
      [reflexivity|reflexivity|lia|lia].
  - apply (Hconnect4 mersenne nat sample_clock (Connect4.Game 6 7 4)
             [off_columns; off_columns] 43%nat 42 [0%nat; 0%nat]
             (Mersenne.seed 42) mersenne_well_behaved);
      [simpl; lia|reflexivity|reflexivity|lia|lia].
Defined.

(** *** The winner of a match *)

Lemma match_winner_moved_last {G : generator} {Move AState : Type}
    `{EqDecision Move} (clock : nat → Q) (game : Game ndarray Move)
    (agents : list (Agent G ndarray Move AState)) (I : ndarray → Prop)
    (fuel : nat) (max_moves : Z) (agent_states0 : list AState)
    (rng0 : gen_state G) :
  MatchRunner.lawful game I → well_behaved G →
  Z.of_nat (length agents) = num_players game → num_players game = 2 →
  get_winner game (reset game) = Ok None →
  (∀ s, is_terminal game s = Ok false → get_winner game s = Ok None) →
  (∀ s w, get_winner game s = Ok (Some w) → is_terminal game s = Ok true) →
  (∀ s p m s', I s → p = 0 ∨ p = 1 → get_winner game s = Ok None →
               make_move game s m p = Ok s' →
               get_winner game s' = Ok None
               ∨ get_winner game s' = Ok (Some p)) →
  0 ≤ max_moves → length agent_states0 = length agents →
  (Z.to_nat max_moves < fuel)%nat →
  ∃ res r,
    MatchRunner.run_match clock game agents fuel max_moves agent_states0 rng0
    = MatchRunner.Done (res, r)
    ∧ ∀ p, MatchRunner.res_winner res = Some p →
           0 < MatchRunner.move_count r
           ∧ p = (MatchRunner.move_count r - 1) mod 2
           ∧ is_terminal game (MatchRunner.state r) = Ok true.
Proof.
  intros Hlaw HG Hseats Htwo Hreset Hgoes Hwon Hmover Hcap Hlen Hfuel.
  destruct (MatchFacts.match_completes clock game agents _ Hlaw HG Hseats
              fuel max_moves agent_states0 rng0 Hcap Hlen Hfuel)
    as (res & r & Hrun & Hw & HI & Hcount & Hend & (past & Hhist & Hpast & Hnt)
        & Hchain & Hall & Hfirst).
  exists res, r. split; [done|]. intros p Hp. rewrite Hp in Hw.
  destruct past as [|s0 past' _] using rev_ind.
  { rewrite Hhist in Hfirst. injection Hfirst as Hfirst.
    rewrite Hfirst, Hreset in Hw. discriminate. }
  rewrite length_app in Hpast. simpl in Hpast.
  apply Forall_app in Hnt as [_ Hs0]. apply Forall_cons_1 in Hs0 as [Hs0 _].
  assert (MatchRunner.states_history r !! length past' = Some s0) as Hj.
  { rewrite Hhist, <- app_assoc. by apply list_lookup_middle. }
  assert (MatchRunner.states_history r !! S (length past')
          = Some (MatchRunner.state r)) as HSj.
  { rewrite Hhist. replace (S (length past')) with (length (past' ++ [s0]))
      by (rewrite length_app; simpl; lia).
    by apply list_lookup_middle. }
  destruct (Hchain _ _ _ Hj HSj) as (l & m & _ & _ & Hmove).
  rewrite Htwo in Hmove.
  pose proof (Z.mod_pos_bound (Z.of_nat (length past')) 2 ltac:(lia)) as Hseat.
  assert (Z.of_nat (length past') mod 2 = 0
          ∨ Z.of_nat (length past') mod 2 = 1) as Hparity by lia.
  destruct (Hmover s0 _ m _ (Forall_lookup_1 _ _ _ _ Hall Hj)
              Hparity (Hgoes s0 Hs0) Hmove) as [Hnone|Hsome];
    [congruence|].
  rewrite Hw in Hsome. injection Hsome as ->.
  split_and!; [lia|f_equal; lia|by apply (Hwon _ _ Hw)].
Qed.

Lemma gomoku_goes_on_without_winner (g : Gomoku.game) (s : ndarray) :
  Gomoku.is_terminal g s = Ok false → Gomoku.get_winner g s = Ok None.
Proof.
  unfold Gomoku.is_terminal.
  by destruct (Gomoku.get_winner g s) as [[?|]|].
Qed.

Lemma connect4_goes_on_without_winner (g : Connect4.game) (s : ndarray) :
  Connect4.is_terminal g s = Ok false → Connect4.get_winner g s = Ok None.
Proof.
  unfold Connect4.is_terminal.
  by destruct (Connect4.get_winner g s) as [[?|]|].
Qed.

(** X15.  The winner of a match made the last move.  For Gomoku and for
    Connect4 (with at least one row), with a positive [win_length] and
    between any two agents, when the result of [run_match] names a winner
    [p], at least one turn was consumed, [p] is the player of the last
    consumed turn, and the final state is terminal. *)
Theorem match_winner_made_the_last_move :
  (∀ (G : generator) (AState : Type) (clock : nat → Q) (g : Gomoku.game)
     (agents : list (Agent G ndarray Gomoku.move AState)) (fuel : nat)
     (max_moves : Z) (agent_states0 : list AState) (rng0 : gen_state G),
      well_behaved G → (0 < Gomoku.win_length g)%nat →
      length agents = 2%nat → length agent_states0 = 2%nat →
      0 ≤ max_moves → (Z.to_nat max_moves < fuel)%nat →
      ∃ res r,
        MatchRunner.run_match clock (gomoku g) agents fuel max_moves
                              agent_states0 rng0
        = MatchRunner.Done (res, r)
        ∧ ∀ p, MatchRunner.res_winner res = Some p →
               0 < MatchRunner.move_count r
               ∧ p = (MatchRunner.move_count r - 1) mod 2
               ∧ is_terminal (gomoku g) (MatchRunner.state r) = Ok true)
  ∧ (∀ (G : generator) (AState : Type) (clock : nat → Q) (g : Connect4.game)
       (agents : list (Agent G ndarray Connect4.move AState)) (fuel : nat)
       (max_moves : Z) (agent_states0 : list AState) (rng0 : gen_state G),
        well_behaved G → (0 < Connect4.rows g)%nat →
        (0 < Connect4.win_length g)%nat →
        length agents = 2%nat → length agent_states0 = 2%nat →
        0 ≤ max_moves → (Z.to_nat max_moves < fuel)%nat →
        ∃ res r,
          MatchRunner.run_match clock (connect4 g) agents fuel max_moves
                                agent_states0 rng0
          = MatchRunner.Done (res, r)
          ∧ ∀ p, MatchRunner.res_winner res = Some p →
                 0 < MatchRunner.move_count r
                 ∧ p = (MatchRunner.move_count r - 1) mod 2
                 ∧ is_terminal (connect4 g) (MatchRunner.state r) = Ok true).
Proof.
  split.
  - intros G AState clock g agents fuel max_moves as0 rng0 HG Hw Hagents Has0
      Hcap Hfuel.
    apply (match_winner_moved_last clock (gomoku g) agents
             (valid_board (Gomoku.board_size g) (Gomoku.board_size g)));
      try done; try (by rewrite Hagents).
    + apply gomoku_lawful.
    + cbn [gomoku get_winner reset].
      destruct (GomokuScan.gomoku_get_winner_spec g (Gomoku.reset g)
                  (np_zeros_shape _ _)) as (b1 & b2 & H1 & H2 & ->).
      destruct b1; [by destruct (no_run_on_zeros (Gomoku.board_size g)
                                   (Gomoku.board_size g)
                                   (Z.of_nat (Gomoku.win_length g)) 1);
                    [lia| |apply H1]|].
      destruct b2; [by destruct (no_run_on_zeros (Gomoku.board_size g)
                                   (Gomoku.board_size g)
                                   (Z.of_nat (Gomoku.win_length g)) 2);
                    [lia| |apply H2]|].
      done.
    + apply gomoku_goes_on_without_winner.
    + intros s w Hwin. cbn [gomoku is_terminal get_winner] in *.
      unfold Gomoku.is_terminal. by rewrite Hwin.
    + intros s p m s' [Hs _]. by apply gomoku_winner_after_move.
  - intros G AState clock g agents fuel max_moves as0 rng0 HG Hrows Hw Hagents
      Has0 Hcap Hfuel.
    apply (match_winner_moved_last clock (connect4 g) agents
             (valid_board (Connect4.rows g) (Connect4.cols g)));
      try done; try (by rewrite Hagents).
    + by apply connect4_lawful.
    + cbn [connect4 get_winner reset].
      destruct (Connect4Scan.connect4_get_winner_spec g (Connect4.reset g)
                  (np_zeros_shape _ _)) as (b1 & b2 & H1 & H2 & ->).
      destruct b1; [by destruct (no_run_on_zeros (Connect4.rows g)
                                   (Connect4.cols g)
                                   (Z.of_nat (Connect4.win_length g)) 1);
                    [lia| |apply H1]|].
      destruct b2; [by destruct (no_run_on_zeros (Connect4.rows g)
                                   (Connect4.cols g)
                                   (Z.of_nat (Connect4.win_length g)) 2);
                    [lia| |apply H2]|].
      done.
    + apply connect4_goes_on_without_winner.
    + intros s w Hwin. cbn [connect4 is_terminal get_winner] in *.
      unfold Connect4.is_terminal. by rewrite Hwin.
    + intros s p m s' [Hs _]. by apply connect4_winner_after_move.
Qed.

Lemma match_winner_made_the_last_move_witness :
  (∃ res r,
      MatchRunner.run_match sample_clock (gomoku (Gomoku.Game 5 3))
                            [off_board; off_board] 26 25 [0%nat; 0%nat]
                            (Mersenne.seed 42)
      = MatchRunner.Done (res, r)
      ∧ ∀ p, MatchRunner.res_winner res = Some p →
             0 < MatchRunner.move_count r
             ∧ p = (MatchRunner.move_count r - 1) mod 2
             ∧ is_terminal (gomoku (Gomoku.Game 5 3)) (MatchRunner.state r)
               = Ok true)
  ∧ (∃ res r,
        MatchRunner.run_match sample_clock (connect4 (Connect4.Game 6 7 4))
                              [off_columns; off_columns] 43 42 [0%nat; 0%nat]
                              (Mersenne.seed 42)
        = MatchRunner.Done (res, r)
        ∧ ∀ p, MatchRunner.res_winner res = Some p →
               0 < MatchRunner.move_count r
               ∧ p = (MatchRunner.move_count r - 1) mod 2
               ∧ is_terminal (connect4 (Connect4.Game 6 7 4))
                             (MatchRunner.state r) = Ok true).
Proof.
  destruct match_winner_made_the_last_move as [Hgomoku Hconnect4]. split.
  - apply (Hgomoku mersenne nat sample_clock (Gomoku.Game 5 3)
             [off_board; off_board] 26%nat 25 [0%nat; 0%nat]
             (Mersenne.seed 42) mersenne_well_behaved);
      [simpl; lia|reflexivity|reflexivity|lia|lia].
  - apply (Hconnect4 mersenne nat sample_clock (Connect4.Game 6 7 4)
             [off_columns; off_columns] 43%nat 42 [0%nat; 0%nat]
             (Mersenne.seed 42) mersenne_well_behaved);
      [simpl; lia|simpl; lia|reflexivity|reflexivity|lia|lia].
Defined.

(** ** EnforcedRandomAgent *)
Module EnforcedFacts.

Section enforced_facts.
Context {G : generator} {State Move : Type}.
Context (game : Game State Move) (state : State) (player : Z).

(** When no trial raises anything but ValueError, the loop keeps the
    candidates whose trial returned, in their order. *)
Lemma validate_keeps (legal_moves validated : list Move) :
  (∀ m, m ∈ legal_moves →
        (∃ s, make_move game state m player = Ok s)
        ∨ ∃ msg, make_move game state m player = Raise (ValueError msg)) →
  ∃ kept,
    EnforcedRandomAgent.validate game state player legal_moves validated = Ok (validated ++ kept)
    ∧ (∀ m, m ∈ kept ↔
            m ∈ legal_moves ∧ ∃ s, make_move game state m player = Ok s).
Proof.
  revert validated. induction legal_moves as [|m0 rest IH]; intros validated H.
  - exists []. split; [by rewrite app_nil_r|]. intros m. split.
    + inversion 1.
    + intros [Hin _]. inversion Hin.
  - cbn [EnforcedRandomAgent.validate].
    destruct (H m0 ltac:(left)) as [[s Hs]|[msg Hmsg]].
    + rewrite Hs.
      destruct (IH (validated ++ [m0])) as (kept & -> & Hkept);
        [intros m Hm; apply H; by right|].
      exists (m0 :: kept). split; [by rewrite <- app_assoc|].
      intros m. rewrite !elem_of_cons, Hkept. split.
      * intros [->|[? ?]]; eauto.
      * intros [[->|?] ?]; eauto.
    + rewrite Hmsg.
      destruct (IH validated) as (kept & -> & Hkept);
        [intros m Hm; apply H; by right|].
      exists kept. split; [done|].
      intros m. rewrite elem_of_cons, Hkept. split.
      * intros [? ?]; eauto.
      * intros [[->|?] [s Hs]]; [congruence|eauto].
Qed.

(** When every trial returns, nothing is filtered out. *)
Lemma validate_all (legal_moves validated : list Move) :
  (∀ m, m ∈ legal_moves → ∃ s, make_move game state m player = Ok s) →
  EnforcedRandomAgent.validate game state player legal_moves validated
  = Ok (validated ++ legal_moves).
Proof.
  revert validated. induction legal_moves as [|m0 rest IH]; intros validated H.
  - by rewrite app_nil_r.
  - cbn [EnforcedRandomAgent.validate]. destruct (H m0 ltac:(left)) as [s ->].
    rewrite IH by (intros m Hm; apply H; by right).
    by rewrite <- app_assoc.
Qed.

(** The first trial that raises something else than ValueError ends the
    loop with that exception. *)
Lemma validate_raises (legal_moves validated : list Move) (e : exn) :
  (∀ m, m ∈ legal_moves →
        (∃ s, make_move game state m player = Ok s)
        ∨ make_move game state m player = Raise e) →
  (∃ m, m ∈ legal_moves ∧ make_move game state m player = Raise e) →
  (∀ msg, e ≠ ValueError msg) →
  EnforcedRandomAgent.validate game state player legal_moves validated = Raise e.
Proof.
  intros H Hsome He. revert validated H Hsome.
  induction legal_moves as [|m0 rest IH]; intros validated H (m & Hin & Hm).
  - inversion Hin.
  - cbn [EnforcedRandomAgent.validate].
    destruct (H m0 ltac:(left)) as [[s Hs]|Hm0]; rewrite ?Hs, ?Hm0.
    + apply IH; [intros m' Hm'; apply H; by right|].
      apply elem_of_cons in Hin as [->|Hin]; [congruence|eauto].
    + destruct e; try done. by destruct (He msg).
Qed.

End enforced_facts.
End EnforcedFacts.

(** A Gomoku trial returns for the legal moves and raises ValueError for
    every other move. *)
Lemma gomoku_trial (g : Gomoku.game) (state : ndarray) (player : Z)
    (moves : list Gomoku.move) (m : Gomoku.move) :
  has_shape (Gomoku.board_size g) (Gomoku.board_size g) state →
  -128 ≤ player + 1 ≤ 127 →
  Gomoku.get_legal_moves g state player = Ok moves →
  (m ∈ moves ∧ ∃ s, make_move (gomoku g) state m player = Ok s)
  ∨ ((m ∉ moves)
     ∧ ∃ msg, make_move (gomoku g) state m player = Raise (ValueError msg)).
Proof.
  intros Hs Hp Hmoves. cbn [gomoku make_move].
  rewrite GomokuFacts.gomoku_apply_move_place. destruct m as [row col].
  destruct (decide ((row, col) ∈ moves)) as [Hin|Hout].
  - left. split; [done|].
    by apply (GomokuFacts.gomoku_place_legal g state player player moves).
  - right. split; [done|].
    destruct (decide (0 ≤ row < Z.of_nat (Gomoku.board_size g)
                      ∧ 0 ≤ col < Z.of_nat (Gomoku.board_size g)))
      as [[Hr Hc]|Hoff].
    + destruct (has_shape_cell _ _ state row col Hs Hr Hc) as [v Hv].
      apply (GomokuFacts.gomoku_place_occupied g state row col v player Hv).
      intros ->. destruct Hout.
      by apply (GomokuFacts.gomoku_legal_moves_elem g state player moves).
    + rewrite GomokuFacts.gomoku_place_out_of_bounds by done. eauto.
Qed.

(** X16.  With Gomoku, EnforcedRandomAgent keeps its promise for any list
    of candidates.  On a board of the game's size, for a generator whose
    draws are in range and a mark that fits a cell, every move that
    [make_move] returns is one of the candidates and is legal on the state;
    it returns a move as soon as one candidate is legal; and when none is,
    it raises a ValueError ("No legal moves available" for an empty list,
    "No valid moves available after validation" otherwise) without having
    drawn from the generator. *)
Theorem enforced_agent_returns_legal_gomoku_moves (G : generator)
    (g : Gomoku.game) (rng : gen_state G) (state : ndarray)
    (candidates moves : list Gomoku.move) (player : Z) :
  well_behaved G →
  has_shape (Gomoku.board_size g) (Gomoku.board_size g) state →
  -128 ≤ player + 1 ≤ 127 →
  Gomoku.get_legal_moves g state player = Ok moves →
  (∃ m rng', EnforcedRandomAgent.make_move (gomoku g) rng state candidates
                                           player = (Ok m, rng')
             ∧ m ∈ candidates ∧ m ∈ moves)
  ∨ ((∀ m, m ∈ candidates → m ∉ moves)
     ∧ EnforcedRandomAgent.make_move (gomoku g) rng state candidates player
       = (Raise (ValueError
                   (match candidates with
                    | [] => "No legal moves available"
                    | _ :: _ => "No valid moves available after validation"
                    end)), rng)).
Proof.
  intros HG Hs Hp Hmoves.
  destruct (EnforcedFacts.validate_keeps (gomoku g) state player candidates [])
    as (kept & Hval & Hkept).
  { intros m _.
    destruct (gomoku_trial g state player moves m Hs Hp Hmoves)
      as [[_ ?]|[_ ?]]; eauto. }
  simpl in Hval.
  assert (∀ m, m ∈ kept ↔ m ∈ candidates ∧ m ∈ moves) as Hlegal.
  { intros m. rewrite Hkept. split.
    - intros [Hin [s Hok]]. split; [done|].
      destruct (gomoku_trial g state player moves m Hs Hp Hmoves)
        as [[? _]|[_ [msg Hmsg]]]; [done|congruence].
    - intros [Hin Hm]. split; [done|].
      destruct (gomoku_trial g state player moves m Hs Hp Hmoves)
        as [[_ ?]|[? _]]; done. }
  unfold EnforcedRandomAgent.make_move.
  destruct candidates as [|m0 rest].
  { right. split; [|done]. intros m Hin. inversion Hin. }
  rewrite Hval. destruct kept as [|k kept'].
  - right. split; [|done]. intros m Hin Hm.
    assert (m ∈ @nil Gomoku.move) as Hnil by (by apply Hlegal).
    inversion Hnil.
  - left.
    destruct (RunnerFacts.choice_total (k :: kept') rng HG)
      as (m & rng' & Hchoice); [done|].
    exists m, rng'. split; [done|].
    by apply Hlegal, (RunnerFacts.choice_elem _ _ _ _ Hchoice).
Qed.

Lemma enforced_agent_returns_legal_gomoku_moves_witness :
  let g := Gomoku.Game 2 2 in
  Gomoku.get_legal_moves g [[0; 1]; [0; 2]] 0 = Ok [(0, 0); (1, 0)]
  ∧ ((∃ m rng',
         EnforcedRandomAgent.make_move (G := mersenne) (gomoku g)
           (Mersenne.seed 42) [[0; 1]; [0; 2]] [(0, 1); (1, 0); (5, 5)] 0
         = (Ok m, rng')
         ∧ m ∈ [(0, 1); (1, 0); (5, 5)] ∧ m ∈ [(0, 0); (1, 0)])
     ∨ ((∀ m, m ∈ [(0, 1); (1, 0); (5, 5)] → m ∉ [(0, 0); (1, 0)])
        ∧ EnforcedRandomAgent.make_move (G := mersenne) (gomoku g)
            (Mersenne.seed 42) [[0; 1]; [0; 2]] [(0, 1); (1, 0); (5, 5)] 0
          = (Raise (ValueError "No valid moves available after validation"),
             Mersenne.seed 42))).
Proof.
  split; [vm_compute; reflexivity|].
  apply (enforced_agent_returns_legal_gomoku_moves mersenne (Gomoku.Game 2 2)
           (Mersenne.seed 42) [[0; 1]; [0; 2]] [(0, 1); (1, 0); (5, 5)]
           [(0, 0); (1, 0)] 0 mersenne_well_behaved);
    [split; [done|by repeat constructor]|lia|vm_compute; reflexivity].
Defined.

(** X17.  On the legal moves of the game, EnforcedRandomAgent is
    RandomAgent.  For Gomoku and Connect4, on a valid board, when the list
    handed to [make_move] is the non-empty list [get_legal_moves] returns
    for player 0 or 1, the validation loop keeps every move, and the move
    returned and the state of the generator afterwards are those of
    [RandomAgent.make_move]. *)
Theorem enforced_agent_is_random_agent_on_legal_moves :
  (∀ (G : generator) (g : Gomoku.game) (rng : gen_state G) (state : ndarray)
     (moves : list Gomoku.move) (player : Z),
      well_behaved G →
      valid_board (Gomoku.board_size g) (Gomoku.board_size g) state →
      player = 0 ∨ player = 1 → moves ≠ [] →
      Gomoku.get_legal_moves g state player = Ok moves →
      ∃ m rng',
        EnforcedRandomAgent.make_move (gomoku g) rng state moves player
        = (Ok m, rng')
        ∧ RandomAgent.make_move tt rng state moves player
          = (Returned m, tt, rng'))
  ∧ (∀ (G : generator) (g : Connect4.game) (rng : gen_state G)
       (state : ndarray) (moves : list Connect4.move) (player : Z),
        well_behaved G → (0 < Connect4.rows g)%nat →
        valid_board (Connect4.rows g) (Connect4.cols g) state →
        player = 0 ∨ player = 1 → moves ≠ [] →
        Connect4.get_legal_moves g state player = Ok moves →
        ∃ m rng',
          EnforcedRandomAgent.make_move (connect4 g) rng state moves player
          = (Ok m, rng')
          ∧ RandomAgent.make_move tt rng state moves player
            = (Returned m, tt, rng')).
Proof.
  assert (∀ (G : generator) (Move : Type) (game : Game ndarray Move)
            (I : ndarray → Prop) (rng : gen_state G) (state : ndarray)
            (moves : list Move) (player : Z),
             MatchRunner.lawful game I → num_players game = 2 →
             well_behaved G → I state → player = 0 ∨ player = 1 →
             moves ≠ [] → get_legal_moves game state player = Ok moves →
             ∃ m rng',
               EnforcedRandomAgent.make_move game rng state moves player
               = (Ok m, rng')
               ∧ RandomAgent.make_move tt rng state moves player
                 = (Returned m, tt, rng')) as Hboth.
  { intros G Move game I rng state moves player Hlaw Htwo HG HI Hp Hne Hmoves.
    assert (EnforcedRandomAgent.validate game state player moves []
            = Ok moves) as Hval.
    { rewrite EnforcedFacts.validate_all; [done|]. intros m Hin.
      destruct (MatchRunner.law_move _ _ Hlaw state player moves m HI)
        as (s & Hs & _); try done; [lia|]. by exists s. }
    destruct (RunnerFacts.choice_total moves rng HG Hne)
      as (m & rng' & Hchoice).
    exists m, rng'.
    unfold EnforcedRandomAgent.make_move, RandomAgent.make_move.
    rewrite Hval, Hchoice. by destruct moves. }
  split.
  - intros G g rng state moves player HG HI Hp Hne Hmoves.
    by apply (Hboth G _ (gomoku g) _ rng state moves player (gomoku_lawful g)).
  - intros G g rng state moves player HG Hrows HI Hp Hne Hmoves.
    by apply (Hboth G _ (connect4 g) _ rng state moves player
                (connect4_lawful g Hrows)).
Qed.

Lemma enforced_agent_is_random_agent_on_legal_moves_witness :
  (∃ m rng',
      EnforcedRandomAgent.make_move (G := mersenne) (gomoku (Gomoku.Game 2 2))
        (Mersenne.seed 42) [[0; 1]; [0; 2]] [(0, 0); (1, 0)] 0 = (Ok m, rng')
      ∧ RandomAgent.make_move (G := mersenne) tt (Mersenne.seed 42)
          [[0; 1]; [0; 2]] [(0, 0); (1, 0)] 0 = (Returned m, tt, rng'))
  ∧ (∃ m rng',
        EnforcedRandomAgent.make_move (G := mersenne)
          (connect4 (Connect4.Game 2 2 2)) (Mersenne.seed 42)
          [[0; 1]; [0; 2]] [0] 1 = (Ok m, rng')
        ∧ RandomAgent.make_move (G := mersenne) tt (Mersenne.seed 42)
            [[0; 1]; [0; 2]] [0] 1 = (Returned m, tt, rng')).
Proof.
  destruct enforced_agent_is_random_agent_on_legal_moves
    as [Hgomoku Hconnect4].
  assert (valid_board 2 2 [[0; 1]; [0; 2]]) as Hvalid.
  { split; [split; [done|by repeat constructor]|].
    repeat constructor; unfold cell_ok; lia. }
  split.
  - apply (Hgomoku mersenne (Gomoku.Game 2 2) (Mersenne.seed 42)
             [[0; 1]; [0; 2]] [(0, 0); (1, 0)] 0 mersenne_well_behaved Hvalid);
      [by left|discriminate|vm_compute; reflexivity].
  - apply (Hconnect4 mersenne (Connect4.Game 2 2 2) (Mersenne.seed 42)
             [[0; 1]; [0; 2]] [0] 1 mersenne_well_behaved);
      [simpl; lia|exact Hvalid|by right|discriminate|vm_compute; reflexivity].
Defined.

(** X18.  With Connect4 the validation of EnforcedRandomAgent filters
    nothing and does not catch what [make_move] raises.  On a board of the
    game's shape with at least one row, and for a mark that fits a cell:
    when every candidate is a column index from [-cols] to [cols - 1], the
    agent returns what [random.choice] draws from the whole list of
    candidates, full columns included; and when some candidate is outside
    that range, the IndexError of its trial leaves [make_move], without a
    draw, whatever the other candidates are. *)
Theorem enforced_agent_validates_nothing_on_connect4 (G : generator)
    (g : Connect4.game) (rng : gen_state G) (state : ndarray)
    (candidates : list Connect4.move) (player : Z) :
  has_shape (Connect4.rows g) (Connect4.cols g) state →
  (0 < Connect4.rows g)%nat → -128 ≤ player + 1 ≤ 127 → candidates ≠ [] →
  let cols := Z.of_nat (Connect4.cols g) in
  ((∀ c, c ∈ candidates → - cols ≤ c < cols) →
   EnforcedRandomAgent.make_move (connect4 g) rng state candidates player
   = choice candidates rng)
  ∧ ((∃ c, c ∈ candidates ∧ (cols ≤ c ∨ c < - cols)) →
     EnforcedRandomAgent.make_move (connect4 g) rng state candidates player
     = (Raise IndexError, rng)).
Proof.
  intros Hs Hrows Hp Hne cols.
  assert (∀ c, - cols ≤ c < cols →
               ∃ s, make_move (connect4 g) state c player = Ok s) as Hok.
  { intros c Hc. cbn [connect4 make_move].
    rewrite Connect4Facts.connect4_apply_move_place.
    destruct (decide (0 ≤ c)) as [Hpos|Hneg].
    - apply Connect4Facts.connect4_place_in_range; (done || lia).
    - rewrite Connect4Columns.connect4_place_wraps by (done || lia).
      apply Connect4Facts.connect4_place_in_range; (done || lia). }
  assert (∀ c, cols ≤ c ∨ c < - cols →
               make_move (connect4 g) state c player = Raise IndexError)
    as Hoff.
  { intros c Hc. cbn [connect4 make_move].
    rewrite Connect4Facts.connect4_apply_move_place.
    by apply Connect4Columns.connect4_place_off_board. }
  unfold EnforcedRandomAgent.make_move. split.
  - intros Hrange. rewrite EnforcedFacts.validate_all
      by (intros c Hin; by apply Hok, Hrange).
    by destruct candidates.
  - intros (c & Hin & Hout).
    rewrite (EnforcedFacts.validate_raises _ _ _ _ _ IndexError);
      [by destruct candidates| |by eauto|done].
    intros c' _. destruct (decide (- cols ≤ c' < cols)) as [Hin'|Hout'].
    + left. by apply Hok.
    + right. apply Hoff. lia.
Qed.

Lemma enforced_agent_validates_nothing_on_connect4_witness :
  let g := Connect4.Game 6 7 4 in
  Connect4.get_legal_moves g column0_full 1 = Ok [1; 2; 3; 4; 5; 6]
  ∧ EnforcedRandomAgent.make_move (G := mersenne) (connect4 g)
      (Mersenne.seed 42) column0_full [0] 1
    = choice (G := mersenne) [0] (Mersenne.seed 42)
  ∧ EnforcedRandomAgent.make_move (G := mersenne) (connect4 g)
      (Mersenne.seed 42) column0_full [3; 7] 1
    = (Raise IndexError, Mersenne.seed 42).
Proof.
  assert (has_shape 6 7 column0_full) as Hs
    by (split; [done|by repeat constructor]).
  split; [vm_compute; reflexivity|]. split.
  - apply (enforced_agent_validates_nothing_on_connect4 mersenne
             (Connect4.Game 6 7 4) (Mersenne.seed 42) column0_full [0] 1 Hs);
      [simpl; lia|lia|discriminate|].
    intros c ->%list_elem_of_singleton. simpl. lia.
  - apply (enforced_agent_validates_nothing_on_connect4 mersenne
             (Connect4.Game 6 7 4) (Mersenne.seed 42) column0_full [3; 7] 1
             Hs); [simpl; lia|lia|discriminate|].
    exists 7. split; [by right; left|simpl; lia].
Defined.

(** ** The text of a board *)

Lemma str_app_assoc (s t u : string) : ((s ++ t) ++ u = s ++ (t ++ u))%string.
Proof. induction s as [|c s IH]; [done|]. simpl. by rewrite IH. Qed.

Lemma str_app_nil_r (s : string) : (s ++ "" = s)%string.
Proof. induction s as [|c s IH]; [done|]. simpl. by rewrite IH. Qed.

Lemma str_app_inv_head (s x y : string) : (s ++ x = s ++ y)%string → x = y.
Proof. induction s as [|c s IH]; [done|]. simpl. intros [= H]. by apply IH. Qed.

Lemma str_concat_app (l1 l2 : list string) :
  str_concat (l1 ++ l2) = (str_concat l1 ++ str_concat l2)%string.
Proof.
  induction l1 as [|s l1 IH]; [done|]. simpl. by rewrite IH, str_app_assoc.
Qed.

Lemma str_concat_res_app {A} (f : A → result string) (l1 l2 : list A)
    (s1 s2 : string) :
  str_concat_res f l1 = Ok s1 → str_concat_res f l2 = Ok s2 →
  str_concat_res f (l1 ++ l2) = Ok (s1 ++ s2)%string.
Proof.
  revert s1. induction l1 as [|x l1 IH]; intros s1; simpl.
  - by intros [= <-].
  - destruct (f x) as [s|]; [|discriminate]. simpl.
    destruct (str_concat_res f l1) as [t|]; [|discriminate]. simpl.
    intros [= <-] H2. rewrite (IH t eq_refl H2). simpl.
    by rewrite str_app_assoc.
Qed.

(** A loop over the indices of a list that produces, at each index, a text
    of the item at that index. *)
Lemma str_concat_by_index {A} (l : list A) (F : Z → result string)
    (T : nat → A → string) :
  (∀ j x, l !! j = Some x → F (Z.of_nat j) = Ok (T j x)) →
  str_concat_res F (seqZ 0 (Z.of_nat (length l))) = Ok (str_concat (imap T l)).
Proof.
  induction l as [|x l IH] using rev_ind; intros H; [done|].
  rewrite length_app. cbn [length].
  replace (length l + 1)%nat with (S (length l)) by lia.
  rewrite seqZ_S, imap_app, str_concat_app.
  apply str_concat_res_app.
  - apply IH. intros j y Hj. apply H. by apply lookup_app_l_Some.
  - rewrite Z.add_0_l. cbn [str_concat_res imap].
    rewrite (H (length l) x) by (by apply list_lookup_middle).
    simpl. by rewrite Nat.add_0_r.
Qed.

(** The text of the cells of a row, and of the rows of a board, from loops
    over the indices. *)
Lemma row_text (rows cols : nat) (a : ndarray) (r : nat) (cells : list Z)
    (cell_text : Z → string) :
  has_shape rows cols a → a !! r = Some cells →
  str_concat_res (λ col, v <- np_get a (Z.of_nat r) col ;; Ok (cell_text v))
                 (range (Z.of_nat cols))
  = Ok (str_concat (map cell_text cells)).
Proof.
  intros [_ Hrows] Hcells.
  pose proof (Forall_lookup_1 _ _ _ _ Hrows Hcells) as Hlen. simpl in Hlen.
  unfold range. rewrite <- Hlen.
  rewrite (str_concat_by_index cells _ (λ _, cell_text)).
  - f_equal. f_equal. clear. induction cells as [|v cells IH]; [done|].
    rewrite imap_cons. simpl. by f_equal.
  - intros j v Hv.
    assert (cell a (Z.of_nat r) (Z.of_nat j) = Some v) as Hcell.
    { rewrite cell_nonneg, !Nat2Z.id by lia. by rewrite Hcells. }
    apply np_get_cell in Hcell; [|lia..]. by rewrite Hcell.
Qed.

Lemma board_text (rows cols : nat) (a : ndarray) (cell_text : Z → string)
    (before : Z → string) (after : string) :
  has_shape rows cols a →
  str_concat_res
    (λ row,
       cells <- str_concat_res
                  (λ col, v <- np_get a row col ;; Ok (cell_text v))
                  (range (Z.of_nat cols)) ;;
       Ok (before row ++ cells ++ after)%string)
    (range (Z.of_nat rows))
  = Ok (str_concat
          (imap (λ r cells, before (Z.of_nat r)
                            ++ str_concat (map cell_text cells) ++ after)%string
                a)).
Proof.
  intros Hs. rewrite <- (proj1 Hs).
  apply (str_concat_by_index a). intros r cells Hcells.
  by rewrite (row_text rows cols a r cells cell_text Hs Hcells).
Qed.

(** Texts of cells that no text of another cell starts with can be read
    back. *)
Lemma cells_text_inj (cell_text : Z → string) (cells cells' : list Z)
    (x y : string) :
  (∀ v v' s t, cell_ok v → cell_ok v' →
               (cell_text v ++ s = cell_text v' ++ t)%string → v = v') →
  Forall cell_ok cells → Forall cell_ok cells' →
  length cells = length cells' →
  (str_concat (map cell_text cells) ++ x
   = str_concat (map cell_text cells') ++ y)%string →
  cells = cells' ∧ x = y.
Proof.
  intros Hfree Hok. revert cells'.
  induction Hok as [|v cells Hv _ IH]; intros [|v' cells'] Hok' Hlen;
    try discriminate.
  - done.
  - simpl. rewrite !str_app_assoc. intros Heq.
    apply Forall_cons_1 in Hok' as [Hv' Hok'].
    pose proof (Hfree _ _ _ _ Hv Hv' Heq) as <-.
    apply str_app_inv_head in Heq.
    destruct (IH cells' Hok') as [-> ->]; [by injection Hlen|done|done].
Qed.

Lemma board_text_inj (cell_text : Z → string) (before : Z → string)
    (after : string) (cols : nat) (a b : ndarray) (k : nat) (x y : string) :
  (∀ v v' s t, cell_ok v → cell_ok v' →
               (cell_text v ++ s = cell_text v' ++ t)%string → v = v') →
  Forall (λ r, length r = cols) a → Forall (λ r, length r = cols) b →
  Forall (Forall cell_ok) a → Forall (Forall cell_ok) b →
  length a = length b →
  (str_concat
     (imap (λ r cells, before (Z.of_nat (k + r))
                       ++ str_concat (map cell_text cells) ++ after) a) ++ x
   = str_concat
       (imap (λ r cells, before (Z.of_nat (k + r))
                         ++ str_concat (map cell_text cells) ++ after) b)
     ++ y)%string →
  a = b.
Proof.
  intros Hfree Ha. revert b k.
  induction Ha as [|cells a Hcells _ IH]; intros [|cells' b] k Hb Hoka Hokb Hlen;
    try discriminate; [done|].
  rewrite !imap_cons. cbn [str_concat fold_right].
  rewrite !str_app_assoc. intros Heq. apply str_app_inv_head in Heq.
  apply Forall_cons_1 in Hb as [Hcells' Hb].
  apply Forall_cons_1 in Hoka as [Hokc Hoka].
  apply Forall_cons_1 in Hokb as [Hokc' Hokb].
  apply (cells_text_inj cell_text) in Heq as [-> Heq]; try done; [|congruence].
  apply str_app_inv_head in Heq. f_equal.
  apply (IH b (S k)); try done; [by injection Hlen|].
  assert (∀ l : ndarray,
             imap ((λ r cells0, before (Z.of_nat (k + r))
                                ++ str_concat (map cell_text cells0)
                                ++ after)%string ∘ S) l
             = imap (λ r cells0, before (Z.of_nat (S k + r))
                                 ++ str_concat (map cell_text cells0)
                                 ++ after)%string l) as Hshift.
  { intros l. apply imap_ext. intros i z _. simpl.
    by rewrite Nat.add_succ_r. }
  by rewrite !Hshift in Heq.
Qed.

(** X19.  The Connect4 board text is faithful.  On a valid board of the
    game's shape [display_state] never raises, and two valid boards with
    the same text are the same board: the three characters written for a
    cell ("   ", " X ", " O ") tell its value. *)
Theorem connect4_display_is_faithful (g : Connect4.game) (a b : ndarray) :
  valid_board (Connect4.rows g) (Connect4.cols g) a →
  valid_board (Connect4.rows g) (Connect4.cols g) b →
  (∃ text, Connect4Text.display_state g a = Ok text)
  ∧ (Connect4Text.display_state g a = Connect4Text.display_state g b →
     a = b).
Proof.
  intros [Hsa Hoka] [Hsb Hokb]. unfold Connect4Text.display_state.
  rewrite (board_text _ _ a Connect4Text.cell_text (λ _, "|"%string)
             ("|" ++ nl)%string Hsa).
  rewrite (board_text _ _ b Connect4Text.cell_text (λ _, "|"%string)
             ("|" ++ nl)%string Hsb).
  cbn [rbind]. split; [eauto|]. intros Heq.
  assert (∀ x y : string, Ok x = @Ok string y → x = y) as Hinj
    by (by intros x y [= ->]).
  apply Hinj, str_app_inv_head in Heq.
  assert (∀ v v' s t, cell_ok v → cell_ok v' →
                      (Connect4Text.cell_text v ++ s
                       = Connect4Text.cell_text v' ++ t)%string → v = v')
    as Hfree.
  { intros v v' s t Hv Hv'.
    destruct Hv as [->|[->| ->]], Hv' as [->|[->| ->]]; try done;
      cbn; intros [=]. }
  assert (length a = length b) as Hlen
    by (by rewrite (proj1 Hsa), (proj1 Hsb)).
  exact (board_text_inj Connect4Text.cell_text (λ _, "|"%string)
           ("|" ++ nl)%string (Connect4.cols g) a b 0 _ _ Hfree
           (proj2 Hsa) (proj2 Hsb) Hoka Hokb Hlen Heq).
Qed.

Lemma connect4_display_is_faithful_witness :
  valid_board 2 2 [[0; 2]; [1; 2]]
  ∧ (∃ text, Connect4Text.display_state (Connect4.Game 2 2 2) [[0; 2]; [1; 2]]
             = Ok text)
  ∧ (Connect4Text.display_state (Connect4.Game 2 2 2) [[0; 2]; [1; 2]]
     = Connect4Text.display_state (Connect4.Game 2 2 2) [[0; 2]; [1; 2]] →
     [[0; 2]; [1; 2]] = [[0; 2]; [1; 2]]).
Proof.
  assert (valid_board 2 2 [[0; 2]; [1; 2]]) as Hvalid.
  { split; [split; [done|by repeat constructor]|].
    repeat constructor; unfold cell_ok; lia. }
  split; [exact Hvalid|].
  exact (connect4_display_is_faithful (Connect4.Game 2 2 2) _ _ Hvalid Hvalid).
Defined.

(** X20.  The Gomoku board text is faithful.  On a valid board of the
    game's size [display_state] never raises, and two valid boards with the
    same text are the same board: the stone written for a cell tells its
    value. *)
Theorem gomoku_display_is_faithful (g : Gomoku.game) (a b : ndarray) :
  valid_board (Gomoku.board_size g) (Gomoku.board_size g) a →
  valid_board (Gomoku.board_size g) (Gomoku.board_size g) b →
  (∃ text, GomokuText.display_state g a = Ok text)
  ∧ (GomokuText.display_state g a = GomokuText.display_state g b → a = b).
Proof.
  intros [Hsa Hoka] [Hsb Hokb]. unfold GomokuText.display_state.
  rewrite (board_text _ _ a GomokuText.cell_text fmt_2d nl Hsa).
  rewrite (board_text _ _ b GomokuText.cell_text fmt_2d nl Hsb).
  cbn [rbind]. split; [eauto|]. intros Heq.
  assert (∀ x y : string, Ok x = @Ok string y → x = y) as Hinj
    by (by intros x y [= ->]).
  apply Hinj, str_app_inv_head in Heq.
  assert (∀ v v' s t, cell_ok v → cell_ok v' →
                      (GomokuText.cell_text v ++ s
                       = GomokuText.cell_text v' ++ t)%string → v = v')
    as Hfree.
  { intros v v' s t Hv Hv'.
    destruct Hv as [->|[->| ->]], Hv' as [->|[->| ->]]; try done;
      cbn; intros [=]. }
  assert (length a = length b) as Hlen
    by (by rewrite (proj1 Hsa), (proj1 Hsb)).
  apply (f_equal (λ t, t ++ EmptyString)%string) in Heq.
  exact (board_text_inj GomokuText.cell_text fmt_2d nl (Gomoku.board_size g)
           a b 0 _ _ Hfree (proj2 Hsa) (proj2 Hsb) Hoka Hokb Hlen Heq).
Qed.

Lemma gomoku_display_is_faithful_witness :
  valid_board 2 2 [[0; 2]; [1; 2]]
  ∧ (∃ text, GomokuText.display_state (Gomoku.Game 2 2) [[0; 2]; [1; 2]]
             = Ok text)
  ∧ (GomokuText.display_state (Gomoku.Game 2 2) [[0; 2]; [1; 2]]
     = GomokuText.display_state (Gomoku.Game 2 2) [[0; 2]; [1; 2]] →
     [[0; 2]; [1; 2]] = [[0; 2]; [1; 2]]).
Proof.
  assert (valid_board 2 2 [[0; 2]; [1; 2]]) as Hvalid.
  { split; [split; [done|by repeat constructor]|].
    repeat constructor; unfold cell_ok; lia. }
  split; [exact Hvalid|].
  exact (gomoku_display_is_faithful (Gomoku.Game 2 2) _ _ Hvalid Hvalid).
Defined.

(** ** LLMAgent: requests and moves *)
Module LLMFacts.
Import LLMRequest.

Section llm_facts.
Context {E : Type} (api : nat → string → E + option string).

(** The attempts [first, first + 1, ..] of the loop, [todo] of them, the
    last being attempt [max_retries - 1]. *)
Lemma query_loop_fails (max_retries : Z) (prompt : string) (todo : nat)
    (first : Z) (w : io) (e : E) :
  first + Z.of_nat (S todo) = max_retries →
  (∀ i, (i < todo)%nat → ∃ e', api (requests w + i)%nat prompt = inl e') →
  api (requests w + todo)%nat prompt = inl e →
  query_loop api max_retries prompt (seqZ first (Z.of_nat (S todo))) w
  = (inl e, IO (requests w + S todo) (sleeps w + todo)).
Proof.
  revert first w. induction todo as [|todo IH]; intros first w Hlast Hfail He.
  - rewrite seqZ_cons by lia. cbn [query_loop].
    rewrite Nat.add_0_r in He. rewrite He.
    destruct (Z.ltb_spec first (max_retries - 1)); [lia|].
    do 2 f_equal; lia.
  - rewrite seqZ_cons by lia. cbn [query_loop].
    destruct (Hfail 0%nat ltac:(lia)) as [e' He']. rewrite Nat.add_0_r in He'.
    rewrite He'.
    destruct (Z.ltb_spec first (max_retries - 1)); [|lia].
    replace (Z.pred (Z.of_nat (S (S todo)))) with (Z.of_nat (S todo)) by lia.
    rewrite (IH (Z.succ first)); cbn [requests sleeps].
    + do 2 f_equal; lia.
    + lia.
    + intros i Hi. destruct (Hfail (S i) ltac:(lia)) as [e'' He''].
      exists e''. by replace (S (requests w) + i)%nat
                     with (requests w + S i)%nat by lia.
    + by replace (S (requests w) + todo)%nat
        with (requests w + S todo)%nat by lia.
Qed.

Lemma query_loop_answers (max_retries : Z) (prompt : string) (failed : nat)
    (first len : Z) (w : io) (content : option string) :
  first + len = max_retries → Z.of_nat failed < len →
  (∀ i, (i < failed)%nat → ∃ e', api (requests w + i)%nat prompt = inl e') →
  api (requests w + failed)%nat prompt = inr content →
  query_loop api max_retries prompt (seqZ first len) w
  = (inr content, IO (requests w + S failed) (sleeps w + failed)).
Proof.
  revert first len w.
  induction failed as [|failed IH]; intros first len w Hlast Hlen Hfail Hc.
  - rewrite seqZ_cons by lia. cbn [query_loop].
    rewrite Nat.add_0_r in Hc. rewrite Hc. do 2 f_equal; lia.
  - rewrite seqZ_cons by lia. cbn [query_loop].
    destruct (Hfail 0%nat ltac:(lia)) as [e' He']. rewrite Nat.add_0_r in He'.
    rewrite He'.
    destruct (Z.ltb_spec first (max_retries - 1)); [|lia].
    rewrite (IH (Z.succ first)); cbn [requests sleeps].
    + do 2 f_equal; lia.
    + lia.
    + lia.
    + intros i Hi. destruct (Hfail (S i) ltac:(lia)) as [e'' He''].
      exists e''. by replace (S (requests w) + i)%nat
                     with (requests w + S i)%nat by lia.
    + by replace (S (requests w) + failed)%nat
        with (requests w + S failed)%nat by lia.
Qed.

End llm_facts.
End LLMFacts.

(** X21.  The request loop of LLMAgent.  [_query_llm] returns the content
    of the first request that does not raise, having slept once after each
    failed request before it; when all [max_retries] requests raise, it
    raises the exception of the last one, without sleeping after it; and
    when [max_retries] is 0 or less it sends no request and returns
    [None]. *)
Theorem llm_query_retries (E : Type) (api : nat → string → E + option string)
    (max_retries : Z) (prompt : string) (w : LLMRequest.io) :
  (∀ (failed : nat) (content : option string),
      Z.of_nat failed < max_retries →
      (∀ i, (i < failed)%nat →
            ∃ e, api (LLMRequest.requests w + i)%nat prompt = inl e) →
      api (LLMRequest.requests w + failed)%nat prompt = inr content →
      LLMRequest._query_llm api max_retries prompt w
      = (inr content,
         LLMRequest.IO (LLMRequest.requests w + S failed)
                       (LLMRequest.sleeps w + failed)))
  ∧ (∀ (last : nat) (e : E),
        Z.of_nat (S last) = max_retries →
        (∀ i, (i < last)%nat →
              ∃ e', api (LLMRequest.requests w + i)%nat prompt = inl e') →
        api (LLMRequest.requests w + last)%nat prompt = inl e →
        LLMRequest._query_llm api max_retries prompt w
        = (inl e,
           LLMRequest.IO (LLMRequest.requests w + S last)
                         (LLMRequest.sleeps w + last)))
  ∧ (max_retries ≤ 0 →
     LLMRequest._query_llm api max_retries prompt w = (inr None, w)).
Proof.
  unfold LLMRequest._query_llm, range. split_and!.
  - intros failed content Hlt Hfail Hc.
    by apply LLMFacts.query_loop_answers; [lia|lia|..].
  - intros last e Hmax Hfail He. rewrite <- Hmax.
    by apply LLMFacts.query_loop_fails; [lia|..].
  - intros Hle. by rewrite seqZ_nil.
Qed.

Lemma llm_query_retries_witness :
  let api := λ (n : nat) (_ : string),
               if (n <? 2)%nat then inl n else inr (Some "MOVE: 1"%string) in
  LLMRequest._query_llm api 3 "prompt" (LLMRequest.IO 0 0)
  = (inr (Some "MOVE: 1"%string), LLMRequest.IO 3 2)
  ∧ LLMRequest._query_llm api 2 "prompt" (LLMRequest.IO 0 0)
    = (inl 1%nat, LLMRequest.IO 2 1).
Proof.
  intros api.
  destruct (llm_query_retries nat api 3 "prompt" (LLMRequest.IO 0 0))
    as (Hanswer & _ & _).
  destruct (llm_query_retries nat api 2 "prompt" (LLMRequest.IO 0 0))
    as (_ & Hfail & _).
  split.
  - apply (Hanswer 2%nat (Some "MOVE: 1"%string)); [lia| |reflexivity].
    intros i Hi. exists i. simpl.
    by destruct i as [|[|i]]; [| |lia].
  - apply (Hfail 1%nat 1%nat); [lia| |reflexivity].
    intros i Hi. exists i. simpl. by destruct i as [|i]; [|lia].
Defined.





(** ** The match log *)
Module MatchLogFacts.
Import MatchLog.

Lemma prepare_for_json_array_free (v : pyval) :
  array_free (prepare_for_json v) = true.
Proof.
  revert v. fix IH 1. intros [| | | |l|items|a]; simpl; try done.
  - induction l as [|x l IHl]; [done|]. simpl. by rewrite IH, IHl.
  - induction items as [|[k x] items IHl]; [done|]. simpl. by rewrite IH, IHl.
  - induction a as [|row a IHa]; [done|]. simpl. rewrite IHa, andb_true_r.
    clear. induction row as [|n row IHr]; [done|]. done.
Qed.

Lemma prepare_for_json_keeps (v : pyval) :
  array_free v = true → prepare_for_json v = v.
Proof.
  revert v. fix IH 1. intros [| | | |l|items|a]; simpl; try done.
  - intros H. f_equal. induction l as [|x l IHl]; [done|].
    simpl in *. apply andb_true_iff in H as [Hx Hl].
    by rewrite IH, IHl.
  - intros H. f_equal. induction items as [|[k x] items IHl]; [done|].
    simpl in *. apply andb_true_iff in H as [Hx Hl].
    by rewrite IH, IHl.
Qed.

Lemma tolist_array_free (a : ndarray) : array_free (tolist a) = true.
Proof. apply (prepare_for_json_array_free (PArray a)). Qed.

Lemma dict_set_array_free (key : string) (value : pyval)
    (items : list (string * pyval)) :
  array_free value = true → array_free (PDict items) = true →
  array_free (PDict (dict_set key value items)) = true.
Proof.
  intros Hv. induction items as [|[k v] items IH]; simpl.
  - by rewrite Hv.
  - intros [Hk Hitems]%andb_true_iff. destruct (String.eqb k key); simpl.
    + by rewrite Hv.
    + rewrite Hk. by apply IH.
Qed.

Lemma dict_get_set (key : string) (value : pyval)
    (items : list (string * pyval)) :
  dict_get key (dict_set key value items) = Some value.
Proof.
  induction items as [|[k v] items IH]; simpl.
  - by rewrite String.eqb_refl.
  - destruct (String.eqb k key) eqn:Hk; simpl; by rewrite Hk.
Qed.

Lemma dict_get_set_ne (key key' : string) (value : pyval)
    (items : list (string * pyval)) :
  key ≠ key' →
  dict_get key' (dict_set key value items) = dict_get key' items.
Proof.
  intros Hne. induction items as [|[k v] items IH]; simpl.
  - destruct (String.eqb_spec key key'); [done|done].
  - destruct (String.eqb_spec k key) as [->|]; simpl.
    + by destruct (String.eqb_spec key key').
    + by rewrite IH.
Qed.

End MatchLogFacts.

(** X23.  [prepare_for_json] leaves no numpy array in the data and changes
    nothing else: its result holds no array, and a value that holds none
    comes back as it is, so that preparing twice is preparing once. *)
Theorem prepare_for_json_removes_arrays (v : MatchLog.pyval) :
  MatchLog.array_free (MatchLog.prepare_for_json v) = true
  ∧ (MatchLog.array_free v = true → MatchLog.prepare_for_json v = v)
  ∧ MatchLog.prepare_for_json (MatchLog.prepare_for_json v)
    = MatchLog.prepare_for_json v.
Proof.
  split_and!.
  - apply MatchLogFacts.prepare_for_json_array_free.
  - apply MatchLogFacts.prepare_for_json_keeps.
  - apply MatchLogFacts.prepare_for_json_keeps,
      MatchLogFacts.prepare_for_json_array_free.
Qed.

Lemma prepare_for_json_removes_arrays_witness :
  MatchLog.array_free (MatchLog.PList [MatchLog.PInt 1; MatchLog.PNone]) = true
  ∧ MatchLog.prepare_for_json (MatchLog.PList [MatchLog.PInt 1; MatchLog.PNone])
    = MatchLog.PList [MatchLog.PInt 1; MatchLog.PNone].
Proof.
  split; [reflexivity|].
  by apply (prepare_for_json_removes_arrays
              (MatchLog.PList [MatchLog.PInt 1; MatchLog.PNone])).
Defined.

(** *** The data logged for a match *)
Module LastState.
Import MatchRunner.

Section last_state.
Context {G : generator} {State Move AState : Type} `{EqDecision Move}.
Context (clock : nat → Q) (game : Game State Move).
Context (agents : list (Agent G State Move AState)).

(** The last snapshot is the current state, for any game and any agents. *)
Lemma last_state_turn (max_moves : Z) (r r' : run) :
  turn_to clock game agents max_moves r r' →
  list.last (states_history r) = Some (state r) →
  list.last (states_history r') = Some (state r').
Proof.
  intros Hturn Hlast.
  destruct Hturn; cbn [states_history state]; [done|..]; apply last_snoc.
Qed.

Lemma last_state_loop (fuel : nat) (max_moves : Z) (r r' : run) :
  run_loop clock game agents fuel max_moves r = Done r' →
  list.last (states_history r) = Some (state r) →
  list.last (states_history r') = Some (state r').
Proof.
  revert r. induction fuel as [|fuel IH]; intros r; [discriminate|].
  cbn [run_loop].
  destruct (turn clock game agents max_moves r) as [r1|r1|e] eqn:Hturn;
    [| |discriminate].
  - intros Hloop Hlast. apply (IH r1 Hloop).
    eapply last_state_turn; [|done]. by apply RunnerFacts.turn_continue.
  - intros [= <-]. by apply RunnerFacts.turn_stop in Hturn as [-> _].
Qed.

Lemma last_state_match (fuel : nat) (max_moves : Z)
    (agent_states0 : list AState) (rng0 : gen_state G) (res : match_result)
    (r : run) :
  run_match clock game agents fuel max_moves agent_states0 rng0
  = Done (res, r) →
  list.last (states_history r) = Some (state r)
  ∧ res_moves res = length (moves_history r).
Proof.
  unfold run_match.
  destruct (run_loop clock game agents fuel max_moves
              (start game agents agent_states0 rng0)) as [r0| |] eqn:Hloop;
    try discriminate.
  destruct (get_winner game (state r0)) as [w|]; [|discriminate].
  intros [= <- <-]. cbn [states_history state result_of res_moves
                         moves_history].
  split; [|done]. by apply (last_state_loop _ _ _ _ Hloop).
Qed.

(** The data handed to the logger after a match, for a representation of
    the state that holds no array. *)
Lemma log_data_of_match (get_state_representation : State → MatchLog.pyval)
    (match_id date : string) (fuel : nat) (max_moves : Z)
    (agent_states0 : list AState) (rng0 : gen_state G) (res : match_result)
    (r : run) :
  (∀ s, MatchLog.array_free (get_state_representation s) = true) →
  run_match clock game agents fuel max_moves agent_states0 rng0
  = Done (res, r) →
  ∃ items,
    MatchLog.log_data get_state_representation
      (MatchLog.result_dict game agents match_id date r (res_winner res)) r
    = Ok (MatchLog.PDict items)
    ∧ MatchLog.prepare_for_json (MatchLog.PDict items) = MatchLog.PDict items
    ∧ MatchLog.dict_get "final_state" items
      = Some (get_state_representation (state r))
    ∧ MatchLog.dict_get "moves_history" items
      = Some (MatchLog.PList (map MatchLog.move_info_dict (moves_history r)))
    ∧ MatchLog.dict_get "moves" items
      = Some (MatchLog.PInt (Z.of_nat (length (moves_history r))))
    ∧ res_moves res = length (moves_history r).
Proof.
  intros Hrepr Hrun.
  destruct (last_state_match _ _ _ _ _ _ Hrun) as [Hlast Hmoves].
  unfold MatchLog.log_data. rewrite Hlast. eexists. split; [done|].
  split_and!.
  - apply MatchLogFacts.prepare_for_json_keeps.
    apply MatchLogFacts.dict_set_array_free; [apply Hrepr|].
    apply MatchLogFacts.dict_set_array_free.
    + simpl. generalize (moves_history r). intros l.
      induction l as [|mi l IH]; [done|]. simpl. exact IH.
    + assert (forallb MatchLog.array_free
                (map (λ a : Agent G State Move AState,
                        MatchLog.PStr (agent_name a)) agents) = true) as Hnames.
      { clear. induction agents as [|a l IH]; [done|]. simpl. exact IH. }
      unfold MatchLog.result_dict. simpl. rewrite Hnames.
      by destruct (res_winner res), (move_times r).
  - apply MatchLogFacts.dict_get_set.
  - rewrite MatchLogFacts.dict_get_set_ne by done.
    apply MatchLogFacts.dict_get_set.
  - rewrite !MatchLogFacts.dict_get_set_ne by done. reflexivity.
  - done.
Qed.

End last_state.
End LastState.

(** X24.  The log of a match is ready for JSON and shows the final board.
    After a match of Gomoku or Connect4 between any agents, the data that
    [MatchRunner.log_match] hands to the logger can be built
    ([states_history[-1]] exists); [prepare_for_json] returns it unchanged,
    since [get_state_representation] has already turned the board into
    lists; its entry "final_state" is the representation of the state the
    winner was read from, with the board under "board"; and its entry
    "moves" is the number of entries of "moves_history". *)
Theorem match_log_is_json_ready :
  (∀ (G : generator) (AState : Type) (clock : nat → Q) (g : Gomoku.game)
     (agents : list (Agent G ndarray Gomoku.move AState)) (fuel : nat)
     (max_moves : Z) (agent_states0 : list AState) (rng0 : gen_state G)
     (match_id date : string) res r,
      MatchRunner.run_match clock (gomoku g) agents fuel max_moves
                            agent_states0 rng0 = MatchRunner.Done (res, r) →
      ∃ items,
        MatchLog.log_data (MatchLog.gomoku_state_representation g)
          (MatchLog.result_dict (gomoku g) agents match_id date r
                                (MatchRunner.res_winner res)) r
        = Ok (MatchLog.PDict items)
        ∧ MatchLog.prepare_for_json (MatchLog.PDict items)
          = MatchLog.PDict items
        ∧ (∃ rest,
              MatchLog.dict_get "final_state" items
              = Some (MatchLog.PDict
                        (("board"%string,
                          MatchLog.tolist (MatchRunner.state r)) :: rest)))
        ∧ MatchLog.dict_get "moves_history" items
          = Some (MatchLog.PList (map MatchLog.move_info_dict
                                      (MatchRunner.moves_history r)))
        ∧ MatchLog.dict_get "moves" items
          = Some (MatchLog.PInt
                    (Z.of_nat (length (MatchRunner.moves_history r)))))
  ∧ (∀ (G : generator) (AState : Type) (clock : nat → Q) (g : Connect4.game)
       (agents : list (Agent G ndarray Connect4.move AState)) (fuel : nat)
       (max_moves : Z) (agent_states0 : list AState) (rng0 : gen_state G)
       (match_id date : string) res r,
        MatchRunner.run_match clock (connect4 g) agents fuel max_moves
                              agent_states0 rng0 = MatchRunner.Done (res, r) →
        ∃ items,
          MatchLog.log_data (MatchLog.connect4_state_representation g)
            (MatchLog.result_dict (connect4 g) agents match_id date r
                                  (MatchRunner.res_winner res)) r
          = Ok (MatchLog.PDict items)
          ∧ MatchLog.prepare_for_json (MatchLog.PDict items)
            = MatchLog.PDict items
          ∧ (∃ rest,
                MatchLog.dict_get "final_state" items
                = Some (MatchLog.PDict
                          (("board"%string,
                            MatchLog.tolist (MatchRunner.state r)) :: rest)))
          ∧ MatchLog.dict_get "moves_history" items
            = Some (MatchLog.PList (map MatchLog.move_info_dict
                                        (MatchRunner.moves_history r)))
          ∧ MatchLog.dict_get "moves" items
            = Some (MatchLog.PInt
                      (Z.of_nat (length (MatchRunner.moves_history r))))).
Proof.
  split.
  - intros G AState clock g agents fuel max_moves as0 rng0 match_id date res r
      Hrun.
    destruct (LastState.log_data_of_match clock (gomoku g) agents
                (MatchLog.gomoku_state_representation g) match_id date fuel
                max_moves as0 rng0 res r)
      as (items & Hdata & Hready & Hfinal & Hhist & Hmoves & _);
      [|done|].
    { intros s. pose proof (MatchLogFacts.tolist_array_free s) as Hboard.
      simpl in *. by rewrite Hboard. }
    exists items. split_and!; try done. rewrite Hfinal. by eexists.
  - intros G AState clock g agents fuel max_moves as0 rng0 match_id date res r
      Hrun.
    destruct (LastState.log_data_of_match clock (connect4 g) agents
                (MatchLog.connect4_state_representation g) match_id date fuel
                max_moves as0 rng0 res r)
      as (items & Hdata & Hready & Hfinal & Hhist & Hmoves & _);
      [|done|].
    { intros s. pose proof (MatchLogFacts.tolist_array_free s) as Hboard.
      simpl in *. by rewrite Hboard. }
    exists items. split_and!; try done. rewrite Hfinal. by eexists.
Qed.

Lemma match_log_is_json_ready_witness :
  ∃ res r,
    MatchRunner.run_match sample_clock (gomoku (Gomoku.Game 5 3))
                          [off_board; off_board] 26 25 [0%nat; 0%nat]
                          (Mersenne.seed 42)
    = MatchRunner.Done (res, r)
    ∧ ∃ items,
        MatchLog.log_data (MatchLog.gomoku_state_representation
                             (Gomoku.Game 5 3))
          (MatchLog.result_dict (gomoku (Gomoku.Game 5 3))
                                [off_board; off_board] "id" "today" r
                                (MatchRunner.res_winner res)) r
        = Ok (MatchLog.PDict items)
        ∧ MatchLog.prepare_for_json (MatchLog.PDict items)
          = MatchLog.PDict items.
Proof.
  destruct (MatchFacts.match_completes sample_clock (gomoku (Gomoku.Game 5 3))
              [off_board; off_board] _ (gomoku_lawful (Gomoku.Game 5 3))
              mersenne_well_behaved eq_refl 26 25 [0%nat; 0%nat]
              (Mersenne.seed 42)) as (res & r & Hrun & _);
    [lia|reflexivity|lia|].
  exists res, r. split; [exact Hrun|].
  destruct match_log_is_json_ready as [Hgomoku _].
  destruct (Hgomoku mersenne nat sample_clock (Gomoku.Game 5 3)
              [off_board; off_board] 26%nat 25 [0%nat; 0%nat]
              (Mersenne.seed 42) "id"%string "today"%string res r Hrun)
    as (items & Hdata & Hready & _).
  exists items. split; [exact Hdata|exact Hready].
Defined.
(** ** A second match on the same runner *)
Module MatchAgainFacts.
Import MatchRunner MatchAgain.

Section match_again.
Context {G : generator} {State Move AState : Type} `{EqDecision Move}.
Context (clock : nat → Q) (game : Game State Move).
Context (agents : list (Agent G State Move AState)).
Context (prev : @run G State Move AState).

Local Abbreviation later := (λ n : nat, clock (n + ticks prev)%nat).

(** One turn of the second match is the turn of a fresh runner, with the
    histories of the first match in front. *)
Lemma continued_turn (max_moves : Z) (r : run) :
  turn clock game agents max_moves (continued prev r)
  = match turn later game agents max_moves r with
    | Continue r' => Continue (continued prev r')
    | Stop r' => Stop (continued prev r')
    | Abort e => Abort e
    end.
Proof.
  unfold turn, accept, recover, next_player, continued.
  cbn [state current_player move_count moves_history states_history
       move_times agent_states rng ticks events].
  repeat (match goal with
          | |- context [match ?x with _ => _ end] =>
              lazymatch x with
              | context [match _ with _ => _ end] => fail
              | _ => destruct x eqn:?
              end
          end; try done;
          cbn [state current_player move_count moves_history states_history
               move_times agent_states rng ticks events]);
    rewrite <- ?(assoc_L (++)); try done.
Qed.

Lemma continued_loop (fuel : nat) (max_moves : Z) (r : run) :
  run_loop clock game agents fuel max_moves (continued prev r)
  = match run_loop later game agents fuel max_moves r with
    | Done r' => Done (continued prev r')
    | Failed e => Failed e
    | OutOfFuel => OutOfFuel
    end.
Proof.
  revert r. induction fuel as [|fuel IH]; intros r; [done|].
  cbn [run_loop]. rewrite continued_turn.
  destruct (turn later game agents max_moves r); [apply IH|done..].
Qed.

Lemma continued_start :
  start_again game agents prev
  = continued prev (start game agents (agent_states prev) (rng prev)).
Proof.
  unfold start_again, continued, start.
  cbn [state current_player move_count moves_history states_history
       move_times agent_states rng ticks events].
  by rewrite !app_nil_r.
Qed.

(** What the second call returns, from what a fresh runner returns on the
    agents, the generator and the clock as the first match left them. *)
Lemma continued_match (fuel : nat) (max_moves : Z) (res : match_result)
    (r : run) :
  run_match later game agents fuel max_moves (agent_states prev) (rng prev)
  = Done (res, r) →
  run_match_again clock game agents fuel max_moves prev
  = Done (result_of game agents (continued prev r) (res_winner res),
          continued prev r).
Proof.
  unfold run_match, run_match_again.
  rewrite continued_start, continued_loop.
  destruct (run_loop later game agents fuel max_moves _) as [r0| |];
    try discriminate.
  cbn [continued state].
  destruct (get_winner game (state r0)) as [w|]; [|discriminate].
  intros [= <- <-]. cbn [result_of res_winner]. unfold continued.
  cbn [state current_player move_count moves_history states_history
       move_times agent_states rng ticks events].
  by rewrite <- !(assoc_L (++)).
Qed.

(** The private states of the agents stay as many as they were. *)
Lemma seats_turn (max_moves : Z) (r r' : run) :
  turn_to clock game agents max_moves r r' →
  length (agent_states r') = length (agent_states r).
Proof.
  intros Hturn.
  destruct Hturn; cbn [agent_states]; [done|..]; apply length_insert.
Qed.

Lemma seats_loop (fuel : nat) (max_moves : Z) (r r' : run) :
  run_loop clock game agents fuel max_moves r = Done r' →
  length (agent_states r') = length (agent_states r).
Proof.
  revert r. induction fuel as [|fuel IH]; intros r; [discriminate|].
  cbn [run_loop].
  destruct (turn clock game agents max_moves r) as [r1|r1|e] eqn:Hturn;
    [| |discriminate].
  - intros Hloop. rewrite (IH r1 Hloop).
    by apply seats_turn with max_moves, RunnerFacts.turn_continue.
  - intros [= <-]. by apply RunnerFacts.turn_stop in Hturn as [-> _].
Qed.

Lemma seats_match (fuel : nat) (max_moves : Z) (agent_states0 : list AState)
    (rng0 : gen_state G) (res : match_result) (r : run) :
  run_match clock game agents fuel max_moves agent_states0 rng0
  = Done (res, r) →
  length (agent_states r) = length agent_states0.
Proof.
  unfold run_match.
  destruct (run_loop clock game agents fuel max_moves
              (start game agents agent_states0 rng0)) as [r0| |] eqn:Hloop;
    try discriminate.
  destruct (get_winner game (state r0)) as [w|]; [|discriminate].
  intros [= <- <-]. cbn [agent_states].
  by rewrite (seats_loop _ _ _ _ Hloop).
Qed.

End match_again.
End MatchAgainFacts.

(** X25.  A runner keeps its histories from one [run_match] to the next.
    When a match has been run and a fresh runner, on the agents, the
    generator and the clock as that match left them, would play a second
    match to its end, a second [run_match] on the same runner plays that
    second match, but on the histories of the first: the entries of
    [moves_history], [states_history] and [move_times] of both matches
    follow one another, and the count of moves of the second result is the
    sum of the counts of both matches.  The winner and the final state are
    those of the second match. *)
Theorem second_match_adds_to_the_histories :
  ∀ (G : generator) (State Move AState : Type) (Heq : EqDecision Move)
    (clock : nat → Q) (game : Game State Move)
    (agents : list (Agent G State Move AState)) (fuel1 fuel2 : nat)
    (max_moves1 max_moves2 : Z) (agent_states0 : list AState)
    (rng0 : gen_state G) (res1 res2 : MatchRunner.match_result)
    (r1 r2 : MatchRunner.run),
    MatchRunner.run_match clock game agents fuel1 max_moves1 agent_states0
                          rng0
    = MatchRunner.Done (res1, r1) →
    MatchRunner.run_match (λ n, clock (n + MatchRunner.ticks r1)%nat) game
                          agents fuel2 max_moves2
                          (MatchRunner.agent_states r1) (MatchRunner.rng r1)
    = MatchRunner.Done (res2, r2) →
    ∃ res r,
      MatchAgain.run_match_again clock game agents fuel2 max_moves2 r1
      = MatchRunner.Done (res, r)
      ∧ MatchRunner.moves_history r
        = MatchRunner.moves_history r1 ++ MatchRunner.moves_history r2
      ∧ MatchRunner.states_history r
        = MatchRunner.states_history r1 ++ MatchRunner.states_history r2
      ∧ MatchRunner.move_times r
        = MatchRunner.move_times r1 ++ MatchRunner.move_times r2
      ∧ MatchRunner.events r
        = MatchRunner.events r1 ++ MatchRunner.events r2
      ∧ MatchRunner.state r = MatchRunner.state r2
      ∧ MatchRunner.move_count r = MatchRunner.move_count r2
      ∧ MatchRunner.res_winner res = MatchRunner.res_winner res2
      ∧ MatchRunner.res_moves res
        = (MatchRunner.res_moves res1 + MatchRunner.res_moves res2)%nat.
Proof.
  intros G State Move AState Heq clock game agents fuel1 fuel2 max_moves1
         max_moves2 agent_states0 rng0 res1 res2 r1 r2 Hfirst Hsecond.
  pose proof (MatchAgainFacts.continued_match clock game agents r1 fuel2
                max_moves2 res2 r2 Hsecond) as Hagain.
  destruct (LastState.last_state_match _ _ _ _ _ _ _ _ _ Hfirst)
    as [_ Hmoves1].
  destruct (LastState.last_state_match _ _ _ _ _ _ _ _ _ Hsecond)
    as [_ Hmoves2].
  eexists _, _. split; [exact Hagain|].
  cbn [MatchAgain.continued MatchRunner.moves_history
       MatchRunner.states_history MatchRunner.move_times MatchRunner.events
       MatchRunner.state MatchRunner.move_count MatchRunner.result_of
       MatchRunner.res_winner MatchRunner.res_moves].
  split_and!; try done.
  by rewrite length_app, Hmoves1, Hmoves2.
Qed.

Lemma second_match_adds_to_the_histories_witness :
  ∃ res1 r1 res2 r2 res r,
    MatchRunner.run_match sample_clock (gomoku (Gomoku.Game 5 3))
                          [off_board; off_board] 26 25 [0%nat; 0%nat]
                          (Mersenne.seed 42)
    = MatchRunner.Done (res1, r1)
    ∧ MatchRunner.run_match (λ n, sample_clock (n + MatchRunner.ticks r1)%nat)
                            (gomoku (Gomoku.Game 5 3))
                            [off_board; off_board] 26 25
                            (MatchRunner.agent_states r1) (MatchRunner.rng r1)
      = MatchRunner.Done (res2, r2)
    ∧ MatchAgain.run_match_again sample_clock (gomoku (Gomoku.Game 5 3))
                                 [off_board; off_board] 26 25 r1
      = MatchRunner.Done (res, r)
    ∧ MatchRunner.res_moves res
      = (MatchRunner.res_moves res1 + MatchRunner.res_moves res2)%nat.
Proof.
  destruct (MatchFacts.match_completes sample_clock (gomoku (Gomoku.Game 5 3))
              [off_board; off_board] _ (gomoku_lawful (Gomoku.Game 5 3))
              mersenne_well_behaved eq_refl 26 25 [0%nat; 0%nat]
              (Mersenne.seed 42)) as (res1 & r1 & Hfirst & _);
    [lia|reflexivity|lia|].
  pose proof (MatchAgainFacts.seats_match _ _ _ _ _ _ _ _ _ Hfirst) as Hseats.
  destruct (MatchFacts.match_completes
              (λ n, sample_clock (n + MatchRunner.ticks r1)%nat)
              (gomoku (Gomoku.Game 5 3))
              [off_board; off_board] _ (gomoku_lawful (Gomoku.Game 5 3))
              mersenne_well_behaved eq_refl 26 25
              (MatchRunner.agent_states r1) (MatchRunner.rng r1))
    as (res2 & r2 & Hsecond & _); [lia|exact Hseats|lia|].
  destruct (second_match_adds_to_the_histories mersenne ndarray Gomoku.move
              nat _ sample_clock (gomoku (Gomoku.Game 5 3))
              [off_board; off_board] 26%nat 26%nat 25 25 [0%nat; 0%nat]
              (Mersenne.seed 42) res1 res2 r1 r2 Hfirst Hsecond)
    as (res & r & Hagain & _ & _ & _ & _ & _ & _ & _ & Hmoves).
  exists res1, r1, res2, r2, res, r. split_and!; assumption.
Defined.

(** ** The hook calls of a match *)
Module HookFacts.
Import MatchRunner.

Section hooks.
Context {G : generator} {State Move AState : Type} `{EqDecision Move}.
Context (clock : nat → Q) (game : Game State Move).
Context (agents : list (Agent G State Move AState)).
Context (I : State → Prop).
Context (Hlaw : lawful game I) (HG : well_behaved G).
Context (Hseats : Z.of_nat (length agents) = num_players game).

Local Abbreviation sound := (sound game agents I (length agents)).
Local Abbreviation starts :=
  (map (λ i : nat, @GameStart Move (Z.of_nat i)) (seq 0 (length agents))).

Lemma judge_rejects (legal_moves : list Move) (rep : reply Move)
    (mv : option Move) (message : string) :
  judge game legal_moves rep = (mv, false, message) →
  message ≠ EmptyString.
Proof.
  unfold judge. destruct rep as [m|msg]; [destruct (decide _)|];
    intros [= <- <-]; discriminate.
Qed.

Lemma feedback_snoc (calls : list (event Move)) (count : Z)
    (mv : option Move) (ok : bool) (message : string) :
  0 ≤ count → length calls = Z.to_nat count →
  (ok = true → message = EmptyString ∧ is_Some mv) →
  (ok = false → message ≠ EmptyString) →
  feedback_per_turn (num_players game) calls →
  length (calls ++ [MoveFeedback (count mod num_players game) mv ok message])
  = Z.to_nat (count + 1)
  ∧ feedback_per_turn (num_players game)
      (calls ++ [MoveFeedback (count mod num_players game) mv ok message]).
Proof.
  intros Hcount Hlen Hok Hno Hcalls. split.
  - rewrite length_app. simpl. lia.
  - intros i e Hi. apply lookup_snoc_Some in Hi as [[_ Hi]|[Hi <-]].
    + by apply Hcalls.
    + exists mv, ok, message. split; [|done].
      do 2 f_equal. lia.
Qed.

Lemma hooks_turn (max_moves : Z) (r r' : run) (calls : list (event Move)) :
  sound r → turn_to clock game agents max_moves r r' →
  events r = starts ++ calls → length calls = Z.to_nat (move_count r) →
  feedback_per_turn (num_players game) calls →
  ∃ calls', events r' = starts ++ calls'
            ∧ length calls' = Z.to_nat (move_count r')
            ∧ feedback_per_turn (num_players game) calls'.
Proof.
  intros Hs Hturn Hev Hlen Hcalls.
  pose proof (snd_count _ _ _ _ _ Hs) as Hcount.
  pose proof (snd_player _ _ _ _ _ Hs) as Hplayer.
  destruct Hturn as [agent ast next Hterm _ _ _ Hlegal _
                    |agent ast ast' l m rng' s' next _ _ _ _ _ _ _ _ _
                    |agent ast ast' l rep mv message m rng' rng'' s' next
                       _ _ _ _ _ _ _ Hjudge _ _ _];
    cbn [events move_count].
  - destruct (law_legal _ _ Hlaw (state r) (current_player r)
                (snd_state _ _ _ _ _ Hs)) as (l & Hl & Hne).
    rewrite Hlegal in Hl. injection Hl as <-. by destruct (Hne Hterm).
  - rewrite Hev, <- (assoc_L (++)), Hplayer. eexists. split; [done|].
    apply feedback_snoc; try done; by intros _.
  - rewrite Hev, <- (assoc_L (++)), Hplayer. eexists. split; [done|].
    apply feedback_snoc; try done; intros _.
    by apply (judge_rejects l rep mv).
Qed.

Lemma hooks_loop (fuel : nat) (max_moves : Z) (r r' : run)
    (calls : list (event Move)) :
  sound r → run_loop clock game agents fuel max_moves r = Done r' →
  events r = starts ++ calls → length calls = Z.to_nat (move_count r) →
  feedback_per_turn (num_players game) calls →
  ∃ calls', events r' = starts ++ calls'
            ∧ length calls' = Z.to_nat (move_count r')
            ∧ feedback_per_turn (num_players game) calls'.
Proof.
  revert r calls. induction fuel as [|fuel IH]; intros r calls Hs;
    [discriminate|].
  cbn [run_loop].
  destruct (turn clock game agents max_moves r) as [r1|r1|e] eqn:Hturn;
    [| |discriminate].
  - apply RunnerFacts.turn_continue in Hturn.
    intros Hloop Hev Hlen Hcalls.
    destruct (hooks_turn max_moves r r1 calls Hs Hturn Hev Hlen Hcalls)
      as (calls1 & Hev1 & Hlen1 & Hcalls1).
    destruct (RunnerFacts.sound_turn clock game agents I (length agents) Hlaw
                (MatchFacts.nobody_always_illegal game agents I) max_moves r r1
                Hs Hturn)
      as [Hs1 _].
    by apply (IH r1 calls1).
  - intros [= <-] Hev Hlen Hcalls.
    apply RunnerFacts.turn_stop in Hturn as [-> _]. by exists calls.
Qed.

(** A match of a lawful game between any agents runs to its end and calls
    the hooks in order. *)
Lemma hooks_match (fuel : nat) (max_moves : Z) (agent_states0 : list AState)
    (rng0 : gen_state G) :
  0 ≤ max_moves → length agent_states0 = length agents →
  (Z.to_nat max_moves < fuel)%nat →
  ∃ res r,
    run_match clock game agents fuel max_moves agent_states0 rng0
    = Done (res, r)
    ∧ hooks_in_order (length agents) (num_players game) (move_count r)
                     (res_winner res) (events r).
Proof.
  intros Hcap Hlen Hfuel.
  destruct (MatchFacts.match_completes clock game agents I Hlaw HG Hseats fuel
              max_moves agent_states0 rng0 Hcap Hlen Hfuel)
    as (res & r & Hrun & _).
  exists res, r. split; [done|]. revert Hrun. unfold run_match.
  destruct (run_loop clock game agents fuel max_moves
              (start game agents agent_states0 rng0)) as [r0| |] eqn:Hloop;
    try discriminate.
  destruct (get_winner game (state r0)) as [w|]; [|discriminate].
  intros [= <- <-]. cbn [events move_count result_of res_winner].
  pose proof (RunnerFacts.sound_start game agents I (length agents) Hlaw
                agent_states0 rng0 Hlen) as Hs0.
  destruct (hooks_loop fuel max_moves _ r0 [] Hs0 Hloop)
    as (calls & Hev & Hcalls & Hturns);
    [by rewrite app_nil_r|done|by intros i e Hi|].
  exists calls. by rewrite Hev, <- (assoc_L (++)).
Qed.

End hooks.
End HookFacts.

(** X26.  The hook calls of a match, whatever the agents answer.  For Gomoku
    and for Connect4 (with at least one row), between any two agents,
    [run_match] returns, and the hooks it has called are: [game_start] for
    seat 0 then seat 1; then one [move_feedback] per consumed turn, the one
    of turn [i] to player [i mod 2], with the empty message when the move
    was accepted and a message that is not empty when it was rejected; then
    [game_end], with the winner of the result, for seat 0 then seat 1. *)
Theorem match_calls_the_hooks_in_order :
  (∀ (G : generator) (AState : Type) (clock : nat → Q) (g : Gomoku.game)
     (agents : list (Agent G ndarray Gomoku.move AState)) (fuel : nat)
     (max_moves : Z) (agent_states0 : list AState) (rng0 : gen_state G),
      well_behaved G → length agents = 2%nat →
      length agent_states0 = 2%nat → 0 ≤ max_moves →
      (Z.to_nat max_moves < fuel)%nat →
      ∃ res r,
        MatchRunner.run_match clock (gomoku g) agents fuel max_moves
                              agent_states0 rng0
        = MatchRunner.Done (res, r)
        ∧ hooks_in_order 2 2 (MatchRunner.move_count r)
                         (MatchRunner.res_winner res) (MatchRunner.events r))
  ∧ (∀ (G : generator) (AState : Type) (clock : nat → Q) (g : Connect4.game)
       (agents : list (Agent G ndarray Connect4.move AState)) (fuel : nat)
       (max_moves : Z) (agent_states0 : list AState) (rng0 : gen_state G),
        well_behaved G → (0 < Connect4.rows g)%nat →
        length agents = 2%nat → length agent_states0 = 2%nat →
        0 ≤ max_moves → (Z.to_nat max_moves < fuel)%nat →
        ∃ res r,
          MatchRunner.run_match clock (connect4 g) agents fuel max_moves
                                agent_states0 rng0
          = MatchRunner.Done (res, r)
          ∧ hooks_in_order 2 2 (MatchRunner.move_count r)
                           (MatchRunner.res_winner res)
                           (MatchRunner.events r)).
Proof.
  split.
  - intros G AState clock g agents fuel max_moves as0 rng0 HG Hagents Has0
      Hcap Hfuel.
    destruct (HookFacts.hooks_match clock (gomoku g) agents _
                (gomoku_lawful g) HG ltac:(by rewrite Hagents) fuel max_moves
                as0 rng0) as (res & r & Hrun & Hhooks);
      [done|by rewrite Hagents|done|].
    rewrite Hagents in Hhooks. by exists res, r.
  - intros G AState clock g agents fuel max_moves as0 rng0 HG Hrows Hagents
      Has0 Hcap Hfuel.
    destruct (HookFacts.hooks_match clock (connect4 g) agents _
                (connect4_lawful g Hrows) HG ltac:(by rewrite Hagents) fuel
                max_moves as0 rng0) as (res & r & Hrun & Hhooks);
      [done|by rewrite Hagents|done|].
    rewrite Hagents in Hhooks. by exists res, r.
Qed.

Lemma match_calls_the_hooks_in_order_witness :
  (∃ res r,
      MatchRunner.run_match sample_clock (gomoku (Gomoku.Game 5 3))
                            [off_board; off_board] 26 25 [0%nat; 0%nat]
                            (Mersenne.seed 42)
      = MatchRunner.Done (res, r)
      ∧ hooks_in_order 2 2 (MatchRunner.move_count r)
                       (MatchRunner.res_winner res) (MatchRunner.events r))
  ∧ (∃ res r,
        MatchRunner.run_match sample_clock (connect4 (Connect4.Game 6 7 4))
                              [off_columns; off_columns] 43 42 [0%nat; 0%nat]
                              (Mersenne.seed 42)
        = MatchRunner.Done (res, r)
        ∧ hooks_in_order 2 2 (MatchRunner.move_count r)
                         (MatchRunner.res_winner res) (MatchRunner.events r)).
Proof.
  destruct match_calls_the_hooks_in_order as [Hgomoku Hconnect4]. split.
  - apply (Hgomoku mersenne nat sample_clock (Gomoku.Game 5 3)
             [off_board; off_board] 26%nat 25 [0%nat; 0%nat]
             (Mersenne.seed 42) mersenne_well_behaved);
      [reflexivity|reflexivity|lia|lia].
  - apply (Hconnect4 mersenne nat sample_clock (Connect4.Game 6 7 4)
             [off_columns; off_columns] 43%nat 42 [0%nat; 0%nat]
             (Mersenne.seed 42) mersenne_well_behaved);
      [simpl; lia|reflexivity|reflexivity|lia|lia].
Defined.
